(** * ldpc.c : the sum-product LDPC decoder of LDPC_demo

    A shallow embedding of [src/ldpc.c].  The decoder computes on C
    [double]s; every definition of the engine is written once, over an
    abstract type [D] of doubles with the operations the C code applies to
    them (class [Double] for the arithmetic of the language and [floor],
    class [Libm] for the transcendental functions of [math.h]).  What is
    proved in the generic sections holds for every interpretation of these
    operations.  The interpretation the program runs on is given further
    down: the kernel's IEEE-754 binary64 floats for the arithmetic
    (section [FloatModel]), and for [math.h] any three functions on them,
    pinned where a result depends on their values (section
    [FloatExample]). *)

From Stdlib Require Import ZArith QArith Lia.
From Stdlib Require Import Floats Uint63 Ascii FunctionalExtensionality.
From stdpp Require Import base list strings gmap.

Set Default Proof Using "Type*".

(** ** The arithmetic of [double] *)

(** The operations of C on [double]: [+ - * /], [<], the conversion of a
    decimal literal or of an [int] constant to [double], and [floor]. *)
Class Double (D : Type) := {
  dadd : D → D → D;
  dsub : D → D → D;
  dmul : D → D → D;
  ddiv : D → D → D;
  dlt : D → D → bool;
  dfloor : D → D;
  dconst : Q → D;
  dlt_irrefl : ∀ x, dlt x x = false
}.

(** The functions of [math.h] the decoder calls. *)
Class Libm (D : Type) := {
  dexp : D → D;
  dlog : D → D;
  dtanh : D → D
}.

(** ** Loops *)

(** [for (int i = 0; i < n; i++) body] on a state of type [T]. *)
Definition for_range {T : Type} (n : nat) (body : nat → T → T) (s : T) : T :=
  fold_left (λ s i, body i s) (seq 0 n) s.

Section Engine.
Context {D : Type} `{!Double D} `{!Libm D}.

(** ** Data *)

(** [struct iteration]; the [next] pointer is the tail of the list that
    holds the record. *)
Record iteration := Iteration {
  message_v_to_c : list (list D);
  l : list D;
  message_c_to_v : list (list D);
  codeword : list Z;
  parity : list Z
}.

(** [struct state]; [first_iteration] is the linked list of iterations,
    which [add_iteration] builds by linking fresh records in front, so it
    is finite and shares no record.  The [int] fields are [Z]: the code
    moves [cursor] and [page] by one inside [0, n_v) and [0, iterations),
    far from the ends of [int], and [iterations - 1] of the page-down key
    is the [int] the code computes for every [iterations] above
    [INT_MIN].  The two dimensions are [nat]. *)
Record state := State {
  cursor : Z;
  page : Z;
  iterations : Z;
  n_v : nat;
  n_c : nat;
  channel : list D;
  channel_llr : list D;
  matrix : list (list Z);
  first_iteration : list iteration
}.

(** Array reads [a[i]], [A[c][v]] and the write [A[c][v] = x].  The
    engine only ever indexes inside the allocated shape; the defaults
    below stand for the reads C leaves undefined. *)
Definition get (a : list D) (i : nat) : D := default (dconst 0) (a !! i).
Definition get8 (a : list Z) (i : nat) : Z := default 0%Z (a !! i).
Definition get2 (A : list (list D)) (c v : nat) : D := get (default [] (A !! c)) v.
Definition mat (m : list (list Z)) (c v : nat) : Z := get8 (default [] (m !! c)) v.
Definition set2 (A : list (list D)) (c v : nat) (x : D) : list (list D) :=
  alter (λ row, <[v := x]> row) c A.

(** ** Little helper functions *)

Definition l_to_p (x : D) : D := ddiv (dexp x) (dadd (dconst 1) (dexp x)).

Definition p_to_l (p : D) : D := dlog (ddiv p (dsub (dconst 1) p)).

(** ** The code's constants *)

(** The global [matrix]: 4 checks (rows) by 6 variables (columns). *)
Definition ldpc_matrix : list (list Z) :=
  [ [1; 1; 0; 1; 0; 0];
    [0; 1; 1; 0; 1; 0];
    [1; 0; 0; 0; 1; 1];
    [0; 0; 1; 1; 0; 1] ]%Z.

(** The global [initial_r], as the decimal literals of the source. *)
Definition initial_r : list Q := [ -(5#10); 25#10; -(4#1); 5#1; -(35#10); 25#10 ]%Q.

Definition N_ITERATIONS : Z := 8.

(** ** Allocation *)

(** [malloc] returns memory whose content is indeterminate: a fresh array
    of doubles reads as [indet] and a fresh array of bytes as [indet8],
    whatever these are. *)
Variable indet : D.
Variable indet8 : Z.

Definition malloc_double (n : nat) : list D := replicate n indet.
Definition malloc_uint8 (n : nat) : list Z := replicate n indet8.

(** [add_iteration]: a new record with five fresh arrays, linked in front
    of the list. *)
Definition add_iteration (s : state) : state :=
  let new_i := {|
    l := malloc_double (n_v s);
    message_v_to_c := replicate (n_c s) (malloc_double (n_v s));
    message_c_to_v := replicate (n_c s) (malloc_double (n_v s));
    codeword := malloc_uint8 (n_v s);
    parity := malloc_uint8 (n_c s) |} in
  {| cursor := cursor s; page := page s; iterations := iterations s;
     n_v := n_v s; n_c := n_c s; channel := channel s;
     channel_llr := channel_llr s; matrix := matrix s;
     first_iteration := new_i :: first_iteration s |}.

(** [state_new]: [n_v] and [n_c] are the dimensions of the global matrix. *)
Definition state_new (n_i : Z) : state :=
  let n_v := 6 in
  let n_c := 4 in
  let channel0 := malloc_double n_v in
  let channel_llr0 := malloc_double n_v in
  let matrix0 := replicate n_c (malloc_uint8 n_v) in
  (* Set the initial channel probabilities *)
  let channel1 :=
    for_range n_v (λ i ch,
      if decide (i < length initial_r)
      then <[i := l_to_p (dconst (default 0%Q (initial_r !! i)))]> ch
      else <[i := dconst (50#100)]> ch) channel0 in
  (* Copy the LDPC matrix into the structure *)
  let matrix1 :=
    for_range n_v (λ i m,
      for_range n_c (λ j m,
        alter (λ row, <[i := mat ldpc_matrix j i]> row) j m) m) matrix0 in
  let s := {| cursor := 0; page := 0; iterations := n_i;
              n_v := n_v; n_c := n_c; channel := channel1;
              channel_llr := channel_llr0; matrix := matrix1;
              first_iteration := [] |} in
  (* Add the storage needed for each iteration *)
  for_range (Z.to_nat n_i) (λ _ s, add_iteration s) s.

(** ** The two message rules *)

(** [calc_message_v_to_c]: the tanh-product rule over the other variables
    of check [c], read from [message_c_to_v]. *)
Definition calc_message_v_to_c (s : state) (it : iteration) (v c : nat) : D :=
  let t :=
    for_range (n_v s) (λ i t,
      if bool_decide (i ≠ v) && negb (mat (matrix s) c i =? 0)%Z
      then dmul t (dtanh (ddiv (get2 (message_c_to_v it) c i) (dconst 2)))
      else t) (dconst 1) in
  dlog (ddiv (dadd (dconst 1) t) (dsub (dconst 1) t)).

(** [calc_message_c_to_v]: the channel LLR of [v] plus the messages of
    the other checks of [v], read from [message_v_to_c]. *)
Definition calc_message_c_to_v (s : state) (it : iteration) (v c : nat) : D :=
  for_range (n_c s) (λ i p,
    if bool_decide (i ≠ c) && (mat (matrix s) i v =? 1)%Z
    then dadd p (get2 (message_v_to_c it) i v)
    else p) (get (channel_llr s) v).

(** ** [state_solve] *)

(** [for c < n_c, for v < n_v: A[c][v] = f c v], the shape of the three
    loops of [state_solve] that fill a message array.  In each of them the
    right-hand side reads other arrays than the one written. *)
Definition fill2 (nc nv : nat) (f : nat → nat → D) (A : list (list D)) : list (list D) :=
  for_range nc (λ c A, for_range nv (λ v A, set2 A c v (f c v)) A) A.

(** First loop of the [while] body: every slot of [message_v_to_c]. *)
Definition solve_v_to_c (s : state) (cur : iteration) : iteration :=
  {| message_v_to_c :=
       fill2 (n_c s) (n_v s) (λ c v, calc_message_v_to_c s cur v c) (message_v_to_c cur);
     l := l cur; message_c_to_v := message_c_to_v cur;
     codeword := codeword cur; parity := parity cur |}.

(** [for i < n_c: parity[i] = 0]. *)
Definition clear_parity (s : state) (cur : iteration) : iteration :=
  {| message_v_to_c := message_v_to_c cur; l := l cur;
     message_c_to_v := message_c_to_v cur; codeword := codeword cur;
     parity := for_range (n_c s) (λ i par, <[i := 0%Z]> par) (parity cur) |}.

(** Body of the loop over the variables: [l[v]], the bit [b],
    [codeword[v]] and the parity updates. *)
Definition solve_variable (s : state) (v : nat) (cur : iteration) : iteration :=
  let l1 := <[v := get (channel_llr s) v]> (l cur) in
  let l2 :=
    for_range (n_c s) (λ i lv,
      if negb (mat (matrix s) i v =? 0)%Z
      then <[v := dadd (get lv v) (get2 (message_v_to_c cur) i v)]> lv
      else lv) l1 in
  let b : Z := if dlt (get l2 v) (dconst 0) then 1%Z else 0%Z in
  let codeword1 := <[v := b]> (codeword cur) in
  let parity1 :=
    for_range (n_c s) (λ i par,
      if negb (mat (matrix s) i v =? 0)%Z
      then <[i := Z.lxor (get8 par i) b]> par
      else par) (parity cur) in
  {| message_v_to_c := message_v_to_c cur; l := l2;
     message_c_to_v := message_c_to_v cur; codeword := codeword1;
     parity := parity1 |}.

(** The part of the [while] body that writes into [current]. *)
Definition solve_current (s : state) (cur : iteration) : iteration :=
  for_range (n_v s) (solve_variable s) (clear_parity s (solve_v_to_c s cur)).

(** The part that writes into [current->next], run when there is one. *)
Definition solve_next (s : state) (cur nxt : iteration) : iteration :=
  {| message_v_to_c := message_v_to_c nxt; l := l nxt;
     message_c_to_v :=
       fill2 (n_c s) (n_v s) (λ c v, calc_message_c_to_v s cur v c) (message_c_to_v nxt);
     codeword := codeword nxt; parity := parity nxt |}.

(** [while (current != NULL)]: [cur] is [current], [rest] the list from
    [current->next] on. *)
Fixpoint solve_loop (s : state) (cur : iteration) (rest : list iteration) : list iteration :=
  let cur' := solve_current s cur in
  match rest with
  | [] => [cur']
  | nxt :: rest' => cur' :: solve_loop s (solve_next s cur' nxt) rest'
  end.

(** The first loop of [state_solve]:
    [s->channel_llr[i] = p_to_l(s->channel[i])]. *)
Definition solve_llr (s : state) : state :=
  {| cursor := cursor s; page := page s; iterations := iterations s;
     n_v := n_v s; n_c := n_c s; channel := channel s;
     channel_llr :=
       for_range (n_v s) (λ i a, <[i := p_to_l (get (channel s) i)]> a) (channel_llr s);
     matrix := matrix s; first_iteration := first_iteration s |}.

(** The second loop: every slot of the first iteration's
    [message_c_to_v] receives the channel LLR of its column. *)
Definition solve_seed (s : state) (first : iteration) : iteration :=
  {| message_v_to_c := message_v_to_c first; l := l first;
     message_c_to_v :=
       fill2 (n_c s) (n_v s) (λ c v, get (channel_llr s) v) (message_c_to_v first);
     codeword := codeword first; parity := parity first |}.

Definition state_solve (s : state) : state :=
  let s1 := solve_llr s in
  match first_iteration s1 with
  | [] => s1
  | first :: rest =>
      {| cursor := cursor s1; page := page s1; iterations := iterations s1;
         n_v := n_v s1; n_c := n_c s1; channel := channel s1;
         channel_llr := channel_llr s1; matrix := matrix s1;
         first_iteration := solve_loop s1 (solve_seed s1 first) rest |}
  end.

(** ** The validity flag of [state_display] *)

(** [int valid = 1; for (i < n_c) if (current->parity[i]) valid = 0;],
    the one computation of the display on a snapshot. *)
Definition display_valid (s : state) (current : iteration) : Z :=
  for_range (n_c s) (λ i valid,
    if negb (get8 (parity current) i =? 0)%Z then 0%Z else valid) 1%Z.

(** ** [process_keys] *)

(** The key codes of [ncurses.h] that the [switch] names. *)
Definition KEY_DOWN : Z := 258.
Definition KEY_UP : Z := 259.
Definition KEY_LEFT : Z := 260.
Definition KEY_RIGHT : Z := 261.
Definition KEY_NPAGE : Z := 338.
Definition KEY_PPAGE : Z := 339.

Definition set_cursor (s : state) (x : Z) : state :=
  {| cursor := x; page := page s; iterations := iterations s;
     n_v := n_v s; n_c := n_c s; channel := channel s;
     channel_llr := channel_llr s; matrix := matrix s;
     first_iteration := first_iteration s |}.

Definition set_page (s : state) (x : Z) : state :=
  {| cursor := cursor s; page := x; iterations := iterations s;
     n_v := n_v s; n_c := n_c s; channel := channel s;
     channel_llr := channel_llr s; matrix := matrix s;
     first_iteration := first_iteration s |}.

Definition set_channel (s : state) (ch : list D) : state :=
  {| cursor := cursor s; page := page s; iterations := iterations s;
     n_v := n_v s; n_c := n_c s; channel := ch;
     channel_llr := channel_llr s; matrix := matrix s;
     first_iteration := first_iteration s |}.

(** [s->channel[s->cursor] = floor(s->channel[s->cursor]*100)/100] *)
Definition snap_channel (s : state) : state :=
  let k := Z.to_nat (cursor s) in
  set_channel s
    (<[k := ddiv (dfloor (dmul (get (channel s) k) (dconst 100))) (dconst 100)]> (channel s)).

(** The statements of [case KEY_UP], up to the call of [state_solve]: the
    up key lowers the prior. *)
Definition key_up_channel (s : state) : state :=
  let k := Z.to_nat (cursor s) in
  let s1 := snap_channel s in
  if dlt (dconst (1#100)) (get (channel s1) k)
  then set_channel s1 (<[k := dsub (get (channel s1) k) (dconst (1#100))]> (channel s1))
  else set_channel s1 (<[k := dconst (1#100)]> (channel s1)).

(** The statements of [case KEY_DOWN], up to the call of [state_solve]:
    the down key raises the prior. *)
Definition key_down_channel (s : state) : state :=
  let k := Z.to_nat (cursor s) in
  let s1 := snap_channel s in
  if dlt (get (channel s1) k) (dconst (99#100))
  then set_channel s1 (<[k := dadd (get (channel s1) k) (dconst (1#100))]> (channel s1))
  else set_channel s1 (<[k := dconst (99#100)]> (channel s1)).

(** [process_keys], with the key that [getch()] returned as an argument;
    the result is the returned [int] and the state left behind. *)
Definition process_keys (key : Z) (s : state) : Z * state :=
  if (key =? 27)%Z then (0%Z, s)
  else if (key =? 113)%Z || (key =? 81)%Z then (0%Z, s)
  else if (key =? KEY_PPAGE)%Z then
    (1%Z, if (page s >? 0)%Z then set_page s (page s - 1) else s)
  else if (key =? KEY_NPAGE)%Z then
    (1%Z, if (page s <? iterations s - 1)%Z then set_page s (page s + 1) else s)
  else if (key =? KEY_LEFT)%Z then
    (1%Z, if (cursor s =? 0)%Z then set_cursor s (Z.of_nat (n_v s) - 1)
          else set_cursor s (cursor s - 1))
  else if (key =? KEY_RIGHT)%Z then
    (1%Z, if (cursor s =? Z.of_nat (n_v s) - 1)%Z then set_cursor s 0
          else set_cursor s (cursor s + 1))
  else if (key =? KEY_UP)%Z then (1%Z, state_solve (key_up_channel s))
  else if (key =? KEY_DOWN)%Z then (1%Z, state_solve (key_down_channel s))
  else (1%Z, s).

(** [main], from [state_new] to the first display. *)
Definition main_state : state := state_solve (state_new N_ITERATIONS).

End Engine.

Arguments iteration D : clear implicits.
Arguments state D : clear implicits.

(** The cases of the [switch] of [process_keys], each closed by [tac]
    when [tac] applies. *)
Ltac key_cases tac :=
  unfold process_keys;
  repeat (destruct (_ =? _)%Z; simpl; try tac);
  repeat (destruct (_ <? _)%Z; simpl; try tac);
  repeat (destruct (_ >? _)%Z; simpl; try tac).

(** ** Facts about loops *)

Section LoopFacts.
Context {T : Type}.
Implicit Types (body : nat → T → T) (s : T).

Lemma for_range_0 body s : for_range 0 body s = s.
Proof. reflexivity. Qed.

Lemma for_range_S n body s :
  for_range (S n) body s = body n (for_range n body s).
Proof.
  unfold for_range. rewrite seq_S, fold_left_app. reflexivity.
Qed.

(** Loop invariants: [P i] holds before iteration [i]. *)
Lemma for_range_ind (P : nat → T → Prop) n body s :
  P 0 s →
  (∀ i x, i < n → P i x → P (S i) (body i x)) →
  P n (for_range n body s).
Proof.
  intros H0 Hstep. induction n as [|n IH].
  - exact H0.
  - rewrite for_range_S. apply Hstep; [lia|]. apply IH.
    intros i x Hi. apply Hstep. lia.
Qed.

Lemma for_range_ext n body1 body2 s :
  (∀ i x, i < n → body1 i x = body2 i x) →
  for_range n body1 s = for_range n body2 s.
Proof.
  intros Hext. induction n as [|n IH]; [reflexivity|].
  rewrite !for_range_S, IH by (intros; apply Hext; lia).
  apply Hext. lia.
Qed.

End LoopFacts.

(** A loop that rewrites slot [i] in iteration [i] maps the array slot by
    slot. *)
Lemma for_range_pointwise {A : Type} (n : nat) (body : nat → list A → list A)
    (g : nat → A → A) (a : list A) :
  (∀ i a', i < n → body i a' = alter (g i) i a') →
  for_range n body a = imap (λ i x, if decide (i < n) then g i x else x) a.
Proof.
  intros Hbody. induction n as [|n IH].
  - rewrite for_range_0. apply list_eq. intros i.
    rewrite list_lookup_imap. destruct (a !! i); reflexivity.
  - rewrite for_range_S, Hbody, IH by (try lia; intros; apply Hbody; lia).
    apply list_eq. intros i. rewrite list_lookup_alter, !list_lookup_imap.
    destruct (decide (n = i)) as [->|Hne].
    + destruct (a !! i); simpl; [|done].
      repeat case_decide; try lia; done.
    + destruct (a !! i); simpl; [|done].
      repeat case_decide; try lia; done.
Qed.

(** An inner loop that only touches row [c]. *)
Lemma for_range_alter_row {A : Type} (n c : nat) (g : nat → A → A) (rows : list A) :
  for_range n (λ v rows, alter (g v) c rows) rows = alter (for_range n g) c rows.
Proof.
  induction n as [|n IH].
  - rewrite for_range_0. symmetry. apply list_alter_id. intros x. reflexivity.
  - rewrite for_range_S, IH, list_alter_alter_eq.
    apply list_alter_ext; [|reflexivity]. intros x _. simpl.
    rewrite for_range_S. reflexivity.
Qed.

(** A loop that stores [g i] in slot [i] of an array of [n] slots. *)
Lemma for_range_insert {A : Type} (n : nat) (g : nat → A) (a : list A) :
  length a = n →
  for_range n (λ i a, <[i := g i]> a) a = g <$> seq 0 n.
Proof.
  intros Hlen.
  rewrite (for_range_pointwise n _ (λ i _, g i))
    by (intros; apply list_insert_alter).
  apply list_eq. intros i.
  rewrite list_lookup_imap, list_lookup_fmap.
  destruct (decide (i < n)) as [Hi|Hi].
  - rewrite lookup_seq_lt by done.
    destruct (lookup_lt_is_Some_2 a i) as [x ->]; [lia|].
    reflexivity.
  - rewrite lookup_seq_ge, lookup_ge_None_2 by lia. done.
Qed.

(** A loop with a guarded accumulation folds over the indices that pass
    the guard. *)
Lemma for_range_filter {A : Type} (P : nat → Prop) `{!∀ i, Decision (P i)}
    (b : nat → bool) (op : A → nat → A) (n : nat) (a : A) :
  (∀ i, i < n → b i = true ↔ P i) →
  for_range n (λ i acc, if b i then op acc i else acc) a
  = foldl op a (filter P (seq 0 n)).
Proof.
  intros Hb. induction n as [|n IH]; [reflexivity|].
  rewrite for_range_S, IH by (intros; apply Hb; lia).
  rewrite seq_S, filter_app, foldl_app. simpl.
  rewrite filter_cons, filter_nil.
  destruct (b n) eqn:Hbn; case_decide as HP; simpl; try reflexivity.
  - exfalso. apply HP, Hb; [lia|done].
  - apply Hb in HP; [congruence|lia].
Qed.

(** Slots rewritten one by one, in index order. *)
Lemma imap_prefix_0 {A : Type} (g : nat → A) (a : list A) :
  imap (λ j x, if decide (j < 0) then g j else x) a = a.
Proof.
  apply list_eq. intros i. rewrite list_lookup_imap.
  destruct (a !! i); [|done].
  cbn [fmap option_fmap option_map]. case_decide; [lia|done].
Qed.

Lemma imap_prefix_S {A : Type} (g : nat → A) (a : list A) (k : nat) :
  <[k := g k]> (imap (λ j x, if decide (j < k) then g j else x) a)
  = imap (λ j x, if decide (j < S k) then g j else x) a.
Proof.
  apply list_eq. intros i.
  rewrite list_insert_alter, list_lookup_alter, !list_lookup_imap.
  destruct (decide (k = i)) as [->|Hne];
    (destruct (a !! i); [|done]);
    cbn [fmap option_fmap option_map];
    repeat case_decide; try lia; done.
Qed.

Lemma imap_prefix_all {A : Type} (g : nat → A) (a : list A) (n : nat) :
  length a = n →
  imap (λ j x, if decide (j < n) then g j else x) a = g <$> seq 0 n.
Proof.
  intros Hlen. apply list_eq. intros i.
  rewrite list_lookup_imap, list_lookup_fmap.
  destruct (decide (i < n)) as [Hi|Hi].
  - rewrite lookup_seq_lt by done.
    destruct (lookup_lt_is_Some_2 a i) as [x ->]; [lia|]. reflexivity.
  - rewrite lookup_seq_ge, lookup_ge_None_2 by lia. done.
Qed.

Lemma foldl_ext_Forall {A B : Type} (P : B → Prop) (f g : A → B → A) (a : A) (l : list B) :
  Forall P l → (∀ a x, P x → f a x = g a x) → foldl f a l = foldl g a l.
Proof.
  intros Hl Hfg. revert a. induction Hl as [|x l Hx _ IH]; intros a; simpl; [done|].
  by rewrite Hfg, IH.
Qed.

Lemma Forall_filter_seq (P : nat → Prop) `{!∀ i, Decision (P i)} (n : nat) :
  Forall (λ i, i < n ∧ P i) (filter P (seq 0 n)).
Proof.
  apply Forall_forall. intros i Hi.
  apply list_elem_of_filter in Hi as [HP Hi].
  apply elem_of_seq in Hi. split; [lia|done].
Qed.

(** ** Shapes *)

(** An [nc] by [nv] array of arrays, as [add_iteration] allocates them. *)
Definition shaped {A : Type} (nc nv : nat) (M : list (list A)) : Prop :=
  length M = nc ∧ Forall (λ row, length row = nv) M.

Lemma shaped_lookup {A : Type} (nc nv : nat) (M : list (list A)) c :
  shaped nc nv M → c < nc → ∃ row, M !! c = Some row ∧ length row = nv.
Proof.
  intros [Hlen Hrows] Hc.
  destruct (lookup_lt_is_Some_2 M c) as [row Hrow]; [lia|].
  exists row. split; [done|].
  exact (Forall_lookup_1 (λ row, length row = nv) M c row Hrows Hrow).
Qed.

Lemma shaped_tabulate {A : Type} (nc nv : nat) (f : nat → nat → A) :
  shaped nc nv ((λ c, f c <$> seq 0 nv) <$> seq 0 nc).
Proof.
  split.
  - by rewrite length_fmap, length_seq.
  - apply Forall_fmap, Forall_forall. intros c _. simpl.
    by rewrite length_fmap, length_seq.
Qed.

Lemma shaped_replicate {A : Type} (nc nv : nat) (x : A) :
  shaped nc nv (replicate nc (replicate nv x)).
Proof.
  split; [apply length_replicate|].
  apply Forall_forall. intros row Hrow.
  apply elem_of_replicate in Hrow as [-> _]. apply length_replicate.
Qed.

Section EngineFacts.
Context {D : Type} `{!Double D} `{!Libm D}.
Implicit Types (s : state D) (it cur nxt : iteration D) (A : list (list D)).

(** The three filling loops leave the array tabulating the right-hand
    side. *)
Lemma fill2_spec nc nv (f : nat → nat → D) A :
  shaped nc nv A →
  fill2 nc nv f A = (λ c, f c <$> seq 0 nv) <$> seq 0 nc.
Proof.
  intros HA. destruct HA as [Hlen Hrows]. unfold fill2.
  rewrite (for_range_pointwise nc _
             (λ c, for_range nv (λ v row, <[v := f c v]> row))).
  - apply list_eq. intros c.
    rewrite list_lookup_imap, list_lookup_fmap.
    destruct (decide (c < nc)) as [Hc|Hc].
    + rewrite lookup_seq_lt by done.
      destruct (lookup_lt_is_Some_2 A c) as [row Hrow]; [lia|].
      rewrite Hrow. simpl. f_equal. apply for_range_insert.
      exact (Forall_lookup_1 (λ row, length row = nv) A c row Hrows Hrow).
    + rewrite lookup_seq_ge, lookup_ge_None_2 by lia. done.
  - intros c A' _. unfold set2. apply for_range_alter_row.
Qed.

Lemma get2_tabulate nc nv (f : nat → nat → D) c v :
  c < nc → v < nv →
  get2 ((λ c, f c <$> seq 0 nv) <$> seq 0 nc) c v = f c v.
Proof.
  intros Hc Hv. unfold get2, get.
  rewrite list_lookup_fmap, lookup_seq_lt by done. simpl.
  rewrite list_lookup_fmap, lookup_seq_lt by done. reflexivity.
Qed.

(** *** Well-formed states *)

(** The shapes [add_iteration] gives to the arrays of an iteration. *)
Record wf_iteration (nc nv : nat) it : Prop := {
  wf_v_to_c : shaped nc nv (message_v_to_c it);
  wf_l : length (l it) = nv;
  wf_c_to_v : shaped nc nv (message_c_to_v it);
  wf_codeword : length (codeword it) = nv;
  wf_parity : length (parity it) = nc
}.

(** The shapes [state_new] gives to the arrays of a state, with a
    parity-check matrix of zeros and ones. *)
Record wf_state s : Prop := {
  wf_channel : length (channel s) = n_v s;
  wf_channel_llr : length (channel_llr s) = n_v s;
  wf_matrix : shaped (n_c s) (n_v s) (matrix s);
  wf_binary : Forall (Forall (λ x, x = 0 ∨ x = 1)%Z) (matrix s);
  wf_iterations : Forall (wf_iteration (n_c s) (n_v s)) (first_iteration s)
}.

(** *** The rules of the specification *)

(** [connected(c, v)]: the matrix entry is 1. *)
Definition connected s (c v : nat) : Prop := mat (matrix s) c v = 1%Z.

#[global] Instance connected_dec s c v : Decision (connected s c v) :=
  decide (mat (matrix s) c v = 1%Z).

(** [llr_of(v) = log(prior[v] / (1 - prior[v]))]. *)
Definition llr_of s (v : nat) : D := p_to_l (get (channel s) v).

(** [log((1 + t) / (1 - t))], with [t] the product over the variables
    [v' != v] connected to [c] of [tanh(incoming(c, v') / 2)], taken in
    the order of the variable indices. *)
Definition check_rule s (incoming : nat → nat → D) (c v : nat) : D :=
  let t :=
    foldl (λ t v', dmul t (dtanh (ddiv (incoming c v') (dconst 2)))) (dconst 1)
      (filter (λ v', v' ≠ v ∧ connected s c v') (seq 0 (n_v s))) in
  dlog (ddiv (dadd (dconst 1) t) (dsub (dconst 1) t)).

(** [llr_of(v)] plus the sum over the checks [c' != c] connected to [v]
    of [check_message[c'][v]], taken in the order of the check indices. *)
Definition variable_rule s (check_message : nat → nat → D) (c v : nat) : D :=
  foldl (λ p c', dadd p (check_message c' v)) (llr_of s v)
    (filter (λ c', c' ≠ c ∧ connected s c' v) (seq 0 (n_c s))).

(** [llr_of(v)] plus the sum over the checks connected to [v] of
    [check_message[c][v]]. *)
Definition belief_rule s (check_message : nat → nat → D) (v : nat) : D :=
  foldl (λ p c, dadd p (check_message c v)) (llr_of s v)
    (filter (λ c, connected s c v) (seq 0 (n_c s))).

(** The XOR of [codeword[v]] over the variables connected to [c]. *)
Definition syndrome_rule s (cw : nat → Z) (c : nat) : Z :=
  foldl (λ x v, Z.lxor x (cw v)) 0%Z
    (filter (λ v, connected s c v) (seq 0 (n_v s))).

(** The history a decode run leaves: the snapshots in round order. *)
Definition history s : list (iteration D) := first_iteration (state_solve s).

(** *** The two message rules, as the specification words them *)

Lemma mat_binary s c v : wf_state s → mat (matrix s) c v = 0%Z ∨ mat (matrix s) c v = 1%Z.
Proof.
  intros Hwf. unfold mat, get8.
  destruct (matrix s !! c) as [row|] eqn:Hrow; simpl; [|by left].
  destruct (row !! v) as [x|] eqn:Hx; simpl; [|by left].
  pose proof (Forall_lookup_1 _ _ _ _ (wf_binary s Hwf) Hrow) as Hr.
  exact (Forall_lookup_1 _ _ _ _ Hr Hx).
Qed.

(** On a matrix of zeros and ones the test [matrix[c][v]] of the code is
    the test [matrix[c][v] == 1]. *)
Lemma mat_test s c v :
  wf_state s → negb (mat (matrix s) c v =? 0)%Z = true ↔ connected s c v.
Proof.
  intros Hwf. unfold connected.
  destruct (mat_binary s c v Hwf) as [-> | ->]; simpl; split; done.
Qed.

Lemma mat_test_1 s c v : (mat (matrix s) c v =? 1)%Z = true ↔ connected s c v.
Proof. unfold connected. apply Z.eqb_eq. Qed.

Lemma calc_message_v_to_c_rule s it v c :
  wf_state s →
  calc_message_v_to_c s it v c = check_rule s (get2 (message_c_to_v it)) c v.
Proof.
  intros Hwf. unfold calc_message_v_to_c, check_rule.
  rewrite (for_range_filter (λ i, i ≠ v ∧ connected s c i)
             (λ i, bool_decide (i ≠ v) && negb (mat (matrix s) c i =? 0)%Z)).
  - reflexivity.
  - intros i _. rewrite andb_true_iff, bool_decide_eq_true, mat_test by done.
    reflexivity.
Qed.

(** The sum of [calc_message_c_to_v], from the channel LLR the state
    holds. *)
Lemma calc_message_c_to_v_fold s it v c :
  calc_message_c_to_v s it v c
  = foldl (λ p c', dadd p (get2 (message_v_to_c it) c' v)) (get (channel_llr s) v)
      (filter (λ c', c' ≠ c ∧ connected s c' v) (seq 0 (n_c s))).
Proof.
  unfold calc_message_c_to_v.
  rewrite (for_range_filter (λ i, i ≠ c ∧ connected s i v)
             (λ i, bool_decide (i ≠ c) && (mat (matrix s) i v =? 1)%Z)).
  - reflexivity.
  - intros i _. rewrite andb_true_iff, bool_decide_eq_true, mat_test_1.
    reflexivity.
Qed.

(** *** The first loop: the channel LLRs *)

Lemma channel_llr_solve_llr s :
  wf_state s → channel_llr (solve_llr s) = llr_of s <$> seq 0 (n_v s).
Proof.
  intros Hwf. unfold solve_llr. simpl.
  apply (for_range_insert (n_v s) (llr_of s)). apply Hwf.
Qed.

Lemma get_channel_llr s v :
  wf_state s → v < n_v s → get (channel_llr (solve_llr s)) v = llr_of s v.
Proof.
  intros Hwf Hv. rewrite channel_llr_solve_llr by done. unfold get.
  rewrite list_lookup_fmap, lookup_seq_lt by done. reflexivity.
Qed.

Lemma wf_solve_llr s : wf_state s → wf_state (solve_llr s).
Proof.
  intros Hwf. pose proof (channel_llr_solve_llr s Hwf) as Hllr.
  destruct Hwf as [H1 H2 H3 H4 H5].
  split; try assumption.
  rewrite Hllr. by rewrite length_fmap, length_seq.
Qed.

(** *** The loop over the variables *)

(** [l[v]] after the inner loop of variable [v], on the check messages
    [V]. *)
Definition belief s (V : list (list D)) (v : nat) : D :=
  for_range (n_c s) (λ i p,
    if negb (mat (matrix s) i v =? 0)%Z then dadd p (get2 V i v) else p)
    (get (channel_llr s) v).

(** The bit [b] of variable [v]. *)
Definition hard_bit s (V : list (list D)) (v : nat) : Z :=
  if dlt (belief s V v) (dconst 0) then 1%Z else 0%Z.

(** [parity[i]] once the variables below [k] are done. *)
Definition parity_upto s (V : list (list D)) (k i : nat) : Z :=
  for_range k (λ v x,
    if negb (mat (matrix s) i v =? 0)%Z then Z.lxor x (hard_bit s V v) else x) 0%Z.

Lemma get_insert_eq (a : list D) i x : i < length a → get (<[i := x]> a) i = x.
Proof. intros Hi. unfold get. by rewrite list_lookup_insert_eq. Qed.

Lemma get_lookup (a : list D) i x : a !! i = Some x → get a i = x.
Proof. intros Hx. unfold get. by rewrite Hx. Qed.

Lemma get8_lookup (a : list Z) i x : a !! i = Some x → get8 a i = x.
Proof. intros Hx. unfold get8. by rewrite Hx. Qed.

Lemma insert_get8_alter (f : Z → Z) (a : list Z) i :
  <[i := f (get8 a i)]> a = alter f i a.
Proof.
  rewrite list_insert_alter. apply list_alter_ext; [|reflexivity].
  intros x Hx. by rewrite (get8_lookup a i x).
Qed.

(** The read-modify-write loop on [l[v]]. *)
Lemma accumulate_slot (n v : nat) (b : nat → bool) (x : nat → D) (a : list D) :
  v < length a →
  for_range n (λ i lv, if b i then <[v := dadd (get lv v) (x i)]> lv else lv) a
  = <[v := for_range n (λ i p, if b i then dadd p (x i) else p) (get a v)]> a.
Proof.
  intros Hv. induction n as [|n IH].
  - rewrite !for_range_0. symmetry. apply list_insert_id.
    unfold get. by destruct (lookup_lt_is_Some_2 a v Hv) as [y ->].
  - rewrite !for_range_S, IH. destruct (b n); [|reflexivity].
    by rewrite get_insert_eq, list_insert_insert_eq.
Qed.

Lemma solve_variable_spec s v cur :
  v < length (l cur) →
  solve_variable s v cur =
  {| message_v_to_c := message_v_to_c cur;
     l := <[v := belief s (message_v_to_c cur) v]> (l cur);
     message_c_to_v := message_c_to_v cur;
     codeword := <[v := hard_bit s (message_v_to_c cur) v]> (codeword cur);
     parity :=
       imap (λ i x,
         if decide (i < n_c s) then
           if negb (mat (matrix s) i v =? 0)%Z
           then Z.lxor x (hard_bit s (message_v_to_c cur) v) else x
         else x) (parity cur) |}.
Proof.
  intros Hv. unfold solve_variable.
  rewrite accumulate_slot by by rewrite length_insert.
  rewrite get_insert_eq, list_insert_insert_eq by done.
  fold (belief s (message_v_to_c cur) v).
  rewrite get_insert_eq by done.
  fold (hard_bit s (message_v_to_c cur) v).
  f_equal.
  apply (for_range_pointwise (n_c s) _
           (λ i x, if negb (mat (matrix s) i v =? 0)%Z
                   then Z.lxor x (hard_bit s (message_v_to_c cur) v) else x)).
  intros i a _. destruct (negb _).
  - apply (insert_get8_alter (λ x, Z.lxor x _)).
  - symmetry. apply list_alter_id. done.
Qed.

(** *** One round *)

(** The check messages a round computes from the incoming array [C]. *)
Definition round_v_to_c s (C : list (list D)) : list (list D) :=
  (λ c, (λ v, check_rule s (get2 C) c v) <$> seq 0 (n_v s)) <$> seq 0 (n_c s).

Lemma solve_v_to_c_spec s cur :
  wf_state s → wf_iteration (n_c s) (n_v s) cur →
  message_v_to_c (solve_v_to_c s cur) = round_v_to_c s (message_c_to_v cur).
Proof.
  intros Hs Hcur. unfold solve_v_to_c, round_v_to_c. simpl.
  rewrite fill2_spec by apply Hcur.
  apply list_fmap_ext. intros _ c _. apply list_fmap_ext. intros _ v _.
  by apply calc_message_v_to_c_rule.
Qed.

Lemma parity_upto_S s V k i :
  parity_upto s V (S k) i =
  if negb (mat (matrix s) i k =? 0)%Z
  then Z.lxor (parity_upto s V k i) (hard_bit s V k) else parity_upto s V k i.
Proof. unfold parity_upto. by rewrite for_range_S. Qed.

(** The loop over the variables, after the parity entries were cleared:
    every slot of [l], [codeword] and [parity] is rewritten from the check
    messages of [x]. *)
Lemma solve_variables_spec s x :
  wf_iteration (n_c s) (n_v s) x →
  let V := message_v_to_c x in
  for_range (n_v s) (solve_variable s) (clear_parity s x) =
  {| message_v_to_c := V;
     l := belief s V <$> seq 0 (n_v s);
     message_c_to_v := message_c_to_v x;
     codeword := hard_bit s V <$> seq 0 (n_v s);
     parity := parity_upto s V (n_v s) <$> seq 0 (n_c s) |}.
Proof.
  intros Hx V.
  assert (Hinv : ∀ k, k ≤ n_v s →
    for_range k (solve_variable s) (clear_parity s x) =
    {| message_v_to_c := V;
       l := imap (λ j y, if decide (j < k) then belief s V j else y) (l x);
       message_c_to_v := message_c_to_v x;
       codeword := imap (λ j y, if decide (j < k) then hard_bit s V j else y) (codeword x);
       parity := parity_upto s V k <$> seq 0 (n_c s) |}).
  { induction k as [|k IH]; intros Hk.
    - rewrite for_range_0, !imap_prefix_0. unfold clear_parity. f_equal.
      apply (for_range_insert (n_c s) (λ _, 0%Z)), Hx.
    - rewrite for_range_S, IH by lia.
      rewrite solve_variable_spec
        by (simpl; rewrite length_imap, (wf_l _ _ _ Hx); lia).
      simpl. rewrite !imap_prefix_S. f_equal.
      apply list_eq. intros i. rewrite list_lookup_imap, !list_lookup_fmap.
      destruct (decide (i < n_c s)) as [Hi|Hi].
      + rewrite lookup_seq_lt by done. simpl.
        by rewrite parity_upto_S.
      + rewrite lookup_seq_ge by lia. done. }
  rewrite Hinv by done.
  rewrite !imap_prefix_all by apply Hx. reflexivity.
Qed.

Lemma wf_solve_v_to_c s cur :
  wf_iteration (n_c s) (n_v s) cur →
  wf_iteration (n_c s) (n_v s) (solve_v_to_c s cur).
Proof.
  intros Hcur. unfold solve_v_to_c. split; simpl; try apply Hcur.
  rewrite fill2_spec by apply Hcur. apply shaped_tabulate.
Qed.

(** What the writes into [current] leave: the round, in closed form. *)
Lemma solve_current_spec s cur :
  wf_state s → wf_iteration (n_c s) (n_v s) cur →
  let V := round_v_to_c s (message_c_to_v cur) in
  solve_current s cur =
  {| message_v_to_c := V;
     l := belief s V <$> seq 0 (n_v s);
     message_c_to_v := message_c_to_v cur;
     codeword := hard_bit s V <$> seq 0 (n_v s);
     parity := parity_upto s V (n_v s) <$> seq 0 (n_c s) |}.
Proof.
  intros Hs Hcur V. unfold solve_current.
  rewrite solve_variables_spec by by apply wf_solve_v_to_c.
  by rewrite solve_v_to_c_spec.
Qed.

(** The variable messages prepared from the check messages [V]. *)
Definition round_c_to_v s (V : list (list D)) : list (list D) :=
  (λ c, (λ v,
     foldl (λ p c', dadd p (get2 V c' v)) (get (channel_llr s) v)
       (filter (λ c', c' ≠ c ∧ connected s c' v) (seq 0 (n_c s))))
     <$> seq 0 (n_v s)) <$> seq 0 (n_c s).

Lemma solve_next_spec s cur nxt :
  wf_iteration (n_c s) (n_v s) nxt →
  solve_next s cur nxt =
  {| message_v_to_c := message_v_to_c nxt; l := l nxt;
     message_c_to_v := round_c_to_v s (message_v_to_c cur);
     codeword := codeword nxt; parity := parity nxt |}.
Proof.
  intros Hnxt. unfold solve_next, round_c_to_v.
  rewrite fill2_spec by apply Hnxt. f_equal.
  apply list_fmap_ext. intros _ c _. apply list_fmap_ext. intros _ v _.
  apply calc_message_c_to_v_fold.
Qed.

Lemma solve_seed_spec s first :
  wf_iteration (n_c s) (n_v s) first →
  solve_seed s first =
  {| message_v_to_c := message_v_to_c first; l := l first;
     message_c_to_v :=
       (λ c, (λ v, get (channel_llr s) v) <$> seq 0 (n_v s)) <$> seq 0 (n_c s);
     codeword := codeword first; parity := parity first |}.
Proof.
  intros Hfirst. unfold solve_seed. by rewrite fill2_spec by apply Hfirst.
Qed.

Lemma wf_solve_current s cur :
  wf_state s → wf_iteration (n_c s) (n_v s) cur →
  wf_iteration (n_c s) (n_v s) (solve_current s cur).
Proof.
  intros Hs Hcur. rewrite solve_current_spec by done.
  split; simpl; rewrite ?length_fmap, ?length_seq; try done.
  - apply shaped_tabulate.
  - apply Hcur.
Qed.

Lemma wf_solve_next s cur nxt :
  wf_iteration (n_c s) (n_v s) nxt →
  wf_iteration (n_c s) (n_v s) (solve_next s cur nxt).
Proof.
  intros Hnxt. rewrite solve_next_spec by done.
  split; simpl; try apply Hnxt. apply shaped_tabulate.
Qed.

Lemma wf_solve_seed s first :
  wf_iteration (n_c s) (n_v s) first →
  wf_iteration (n_c s) (n_v s) (solve_seed s first).
Proof.
  intros Hfirst. rewrite solve_seed_spec by done.
  split; simpl; try apply Hfirst. apply shaped_tabulate.
Qed.

(** *** The [while] loop *)

Lemma solve_loop_length s cur rest :
  length (solve_loop s cur rest) = S (length rest).
Proof.
  revert cur. induction rest as [|nxt rest IH]; intros cur; simpl; [done|].
  by rewrite IH.
Qed.

(** Round [r] of the loop is [solve_current] of its input: the first
    iteration for round 0, and for a later round what [solve_next] made of
    the round before and the next record of the list. *)
Lemma solve_loop_lookup s cur rest r it :
  solve_loop s cur rest !! r = Some it →
  ∃ cur_r, it = solve_current s cur_r ∧
    match r with
    | 0 => cur_r = cur
    | S r' => ∃ it' nxt,
        solve_loop s cur rest !! r' = Some it' ∧ rest !! r' = Some nxt ∧
        cur_r = solve_next s it' nxt
    end.
Proof.
  revert cur rest. induction r as [|r IH]; intros cur rest Hit.
  - exists cur. split; [|done]. destruct rest; simpl in Hit; congruence.
  - destruct rest as [|nxt rest]; [done|]. simpl in Hit.
    destruct (IH _ _ Hit) as (cur_r & -> & Hcur). exists cur_r. split; [done|].
    destruct r as [|r'].
    + subst cur_r. exists (solve_current s cur), nxt.
      split; [by destruct rest|]. done.
    + destruct Hcur as (it' & nxt' & H1 & H2 & ->).
      exists it', nxt'. done.
Qed.

Lemma solve_loop_input_wf s cur rest r it :
  wf_state s → wf_iteration (n_c s) (n_v s) cur →
  Forall (wf_iteration (n_c s) (n_v s)) rest →
  solve_loop s cur rest !! r = Some it →
  ∃ cur_r, wf_iteration (n_c s) (n_v s) cur_r ∧ it = solve_current s cur_r ∧
    match r with
    | 0 => cur_r = cur
    | S r' => ∃ it' nxt,
        solve_loop s cur rest !! r' = Some it' ∧ rest !! r' = Some nxt ∧
        cur_r = solve_next s it' nxt
    end.
Proof.
  intros Hs Hcur Hrest Hit.
  destruct (solve_loop_lookup _ _ _ _ _ Hit) as (cur_r & -> & Hr).
  exists cur_r. split; [|done].
  destruct r as [|r']; [by subst|].
  destruct Hr as (it' & nxt & _ & Hnxt & ->).
  apply wf_solve_next. exact (Forall_lookup_1 _ _ _ _ Hrest Hnxt).
Qed.

(** *** The history of a run *)

Lemma history_length s : length (history s) = length (first_iteration s).
Proof.
  unfold history, state_solve. simpl.
  destruct (first_iteration s) as [|first rest] eqn:Hfi; simpl.
  - by rewrite Hfi.
  - apply solve_loop_length.
Qed.

(** Snapshot [r] of a run is [solve_current] of a well-shaped input:
    the seeded first iteration for round 0, and for a later round what
    [solve_next] prepared from the snapshot before. *)
Lemma history_lookup s r it :
  wf_state s → history s !! r = Some it →
  ∃ cur_r, wf_iteration (n_c s) (n_v s) cur_r ∧
    it = solve_current (solve_llr s) cur_r ∧
    match r with
    | 0 => ∃ first, wf_iteration (n_c s) (n_v s) first ∧
                    cur_r = solve_seed (solve_llr s) first
    | S r' => ∃ it' nxt, history s !! r' = Some it' ∧
                         wf_iteration (n_c s) (n_v s) nxt ∧
                         cur_r = solve_next (solve_llr s) it' nxt
    end.
Proof.
  intros Hs. pose proof (wf_solve_llr s Hs) as Hs1.
  pose proof (wf_iterations s Hs) as Hits.
  unfold history, state_solve. simpl.
  destruct (first_iteration s) as [|first rest] eqn:Hfi; simpl.
  { rewrite Hfi. done. }
  apply Forall_cons in Hits as [Hfirst Hrest]. intros Hit.
  destruct (solve_loop_input_wf (solve_llr s) (solve_seed (solve_llr s) first)
              rest r it Hs1 (wf_solve_seed (solve_llr s) first Hfirst) Hrest Hit)
    as (cur_r & Hwf & -> & Hr).
  exists cur_r. split; [done|]. split; [done|].
  destruct r as [|r'].
  - exists first. done.
  - destruct Hr as (it' & nxt & H1 & H2 & ->). exists it', nxt.
    split; [done|]. split; [|done].
    exact (Forall_lookup_1 _ _ _ _ Hrest H2).
Qed.

Lemma belief_rule_eq s V v :
  wf_state s → v < n_v s →
  belief (solve_llr s) V v = belief_rule s (get2 V) v.
Proof.
  intros Hs Hv. unfold belief, belief_rule.
  rewrite get_channel_llr by done.
  apply (for_range_filter (λ c, connected s c v)
           (λ i, negb (mat (matrix s) i v =? 0)%Z)
           (λ p c, dadd p (get2 V c v))).
  intros i _. by apply mat_test.
Qed.

Lemma parity_upto_rule s V c :
  wf_state s →
  parity_upto (solve_llr s) V (n_v s) c = syndrome_rule s (hard_bit (solve_llr s) V) c.
Proof.
  intros Hs. unfold parity_upto, syndrome_rule.
  apply (for_range_filter (λ v, connected s c v)
           (λ v, negb (mat (matrix s) c v =? 0)%Z)
           (λ x v, Z.lxor x (hard_bit (solve_llr s) V v))).
  intros i _. by apply mat_test.
Qed.

Lemma round_c_to_v_rule s V c v :
  wf_state s → c < n_c s → v < n_v s →
  get2 (round_c_to_v (solve_llr s) V) c v = variable_rule s (get2 V) c v.
Proof.
  intros Hs Hc Hv. unfold round_c_to_v.
  rewrite (get2_tabulate (n_c s) (n_v s)) by done.
  rewrite get_channel_llr by done. reflexivity.
Qed.

(** What a snapshot holds, field by field, from the input of its round. *)
Lemma history_fields s r it :
  wf_state s → history s !! r = Some it →
  let s1 := solve_llr s in
  let V := round_v_to_c s1 (message_c_to_v it) in
  message_v_to_c it = V ∧
  l it = belief s1 V <$> seq 0 (n_v s) ∧
  codeword it = hard_bit s1 V <$> seq 0 (n_v s) ∧
  parity it = parity_upto s1 V (n_v s) <$> seq 0 (n_c s) ∧
  match r with
  | 0 => message_c_to_v it =
         (λ c, (λ v, llr_of s v) <$> seq 0 (n_v s)) <$> seq 0 (n_c s)
  | S r' => ∃ it', history s !! r' = Some it' ∧
                   message_c_to_v it = round_c_to_v s1 (message_v_to_c it')
  end.
Proof.
  intros Hs Hit. pose proof (wf_solve_llr s Hs) as Hs1.
  destruct (history_lookup s r it Hs Hit) as (cur_r & Hwf & -> & Hr).
  rewrite solve_current_spec by done. simpl.
  repeat (split; [reflexivity|]).
  destruct r as [|r'].
  - destruct Hr as (first & Hfirst & ->).
    rewrite solve_seed_spec by done. simpl.
    apply list_fmap_ext. intros _ c _. apply list_fmap_ext. intros i v Hv.
    apply lookup_seq in Hv as [-> Hv]. by apply get_channel_llr.
  - destruct Hr as (it' & nxt & Hit' & Hnxt & ->). exists it'. split; [done|].
    by rewrite solve_next_spec by done.
Qed.

Lemma history_check_rule s r it c v :
  wf_state s → history s !! r = Some it → c < n_c s → v < n_v s →
  get2 (message_v_to_c it) c v = check_rule s (get2 (message_c_to_v it)) c v.
Proof.
  intros Hs Hit Hc Hv.
  destruct (history_fields s r it Hs Hit) as (HV & _).
  rewrite HV at 1. unfold round_v_to_c.
  rewrite (get2_tabulate (n_c s) (n_v s)) by done. reflexivity.
Qed.

(** C1. In every round [r], at every edge [(c, v)], the check message of
    the snapshot ([message_v_to_c] in the code's naming) is
    [log((1 + t) / (1 - t))] with [t] the product, over the variables
    [v' != v] connected to [c], of [tanh(incoming(c, v') / 2)], where the
    incoming values are those the snapshot holds in [message_c_to_v]: in
    round 0 the channel LLR [llr_of(v')], in a later round the variable
    message prepared at the end of the round before. *)
Theorem check_message_rule s r it c v :
  wf_state s → history s !! r = Some it →
  c < n_c s → v < n_v s → connected s c v →
  get2 (message_v_to_c it) c v = check_rule s (get2 (message_c_to_v it)) c v ∧
  match r with
  | 0 => ∀ v', v' < n_v s → get2 (message_c_to_v it) c v' = llr_of s v'
  | S r' => ∃ it', history s !! r' = Some it' ∧
      ∀ v', v' < n_v s →
        get2 (message_c_to_v it) c v' = variable_rule s (get2 (message_v_to_c it')) c v'
  end.
Proof.
  intros Hs Hit Hc Hv _.
  destruct (history_fields s r it Hs Hit) as (HV & _ & _ & _ & Hin).
  split.
  - by apply (history_check_rule s r).
  - destruct r as [|r'].
    + intros v' Hv'. rewrite Hin.
      by rewrite (get2_tabulate (n_c s) (n_v s) (λ _ v, llr_of s v)).
    + destruct Hin as (it' & Hit' & Hin). exists it'. split; [done|].
      intros v' Hv'. rewrite Hin. by apply round_c_to_v_rule.
Qed.

(** Extrinsic exclusion: the check rule at [(c, v)] does not read the
    incoming value of [v], and the variable rule at [(c, v)] does not read
    the check message of [c]. *)
Lemma check_rule_excludes s (inc inc' : nat → nat → D) c v :
  (∀ v', v' ≠ v → inc c v' = inc' c v') →
  check_rule s inc c v = check_rule s inc' c v.
Proof.
  intros Hinc. unfold check_rule.
  rewrite (foldl_ext_Forall (λ v', v' < n_v s ∧ v' ≠ v ∧ connected s c v')
             _ (λ t v', dmul t (dtanh (ddiv (inc' c v') (dconst 2))))).
  - reflexivity.
  - apply (Forall_filter_seq (λ v', v' ≠ v ∧ connected s c v')).
  - intros t v' (_ & Hne & _). by rewrite Hinc.
Qed.

Lemma variable_rule_excludes s (M M' : nat → nat → D) c v :
  (∀ c', c' ≠ c → M c' v = M' c' v) →
  variable_rule s M c v = variable_rule s M' c v.
Proof.
  intros HM. unfold variable_rule.
  apply (foldl_ext_Forall (λ c', c' < n_c s ∧ c' ≠ c ∧ connected s c' v)).
  - apply (Forall_filter_seq (λ c', c' ≠ c ∧ connected s c' v)).
  - intros p c' (_ & Hne & _). by rewrite HM.
Qed.

(** C2. When round [r] is not the last, the variable message prepared for
    round [r + 1] (the [message_c_to_v] of the next snapshot) is, at every
    edge [(c, v)], [llr_of(v)] plus the sum of round [r]'s check messages
    [check_message[c'][v]] over the checks [c' != c] connected to [v].
    Check [c] is excluded from that sum and variable [v] from the product
    of the check message at [(c, v)]: whatever stands in the excluded slot,
    the value is the same.  The last round prepares nothing: with no
    record left the loop ends on the writes into [current], and the
    history has no further snapshot. *)
Theorem variable_message_rule s r it it' c v :
  wf_state s → history s !! r = Some it → history s !! S r = Some it' →
  c < n_c s → v < n_v s → connected s c v →
  get2 (message_c_to_v it') c v = variable_rule s (get2 (message_v_to_c it)) c v ∧
  (∀ M : nat → nat → D,
     (∀ c', c' ≠ c → M c' v = get2 (message_v_to_c it) c' v) →
     get2 (message_c_to_v it') c v = variable_rule s M c v) ∧
  (∀ I : nat → nat → D,
     (∀ v', v' ≠ v → I c v' = get2 (message_c_to_v it) c v') →
     get2 (message_v_to_c it) c v = check_rule s I c v) ∧
  (∀ cur, solve_loop (solve_llr s) cur [] = [solve_current (solve_llr s) cur]) ∧
  history s !! length (first_iteration s) = None.
Proof.
  intros Hs Hit Hit' Hc Hv Hcv.
  assert (Hrule : get2 (message_c_to_v it') c v
                  = variable_rule s (get2 (message_v_to_c it)) c v).
  { destruct (history_fields s (S r) it' Hs Hit') as (_ & _ & _ & _ & Hin).
    destruct Hin as (it0 & Hit0 & Hin).
    assert (it0 = it) as -> by congruence.
    rewrite Hin. by apply round_c_to_v_rule. }
  repeat split.
  - exact Hrule.
  - intros M HM. rewrite Hrule. apply variable_rule_excludes.
    intros c' Hc'. symmetry. by apply HM.
  - intros I HI.
    rewrite (history_check_rule s r it c v Hs Hit Hc Hv).
    apply check_rule_excludes. intros v' Hv'. symmetry. by apply HI.
  - apply lookup_ge_None_2. by rewrite history_length.
Qed.

(** C3. In every round the belief of variable [v] ([l[v]]) is [llr_of(v)]
    plus the sum of the round's check messages over the checks connected
    to [v]; the codeword bit is 1 when the belief is below 0 and 0
    otherwise, so that a belief of exactly 0 gives bit 0. *)
Theorem belief_and_codeword s r it v :
  wf_state s → history s !! r = Some it → v < n_v s →
  get (l it) v = belief_rule s (get2 (message_v_to_c it)) v ∧
  get8 (codeword it) v = (if dlt (get (l it) v) (dconst 0) then 1%Z else 0%Z) ∧
  (get (l it) v = dconst 0 → get8 (codeword it) v = 0%Z).
Proof.
  intros Hs Hit Hv.
  destruct (history_fields s r it Hs Hit) as (HV & Hl & Hcw & _ & _).
  assert (Hlv : get (l it) v = belief (solve_llr s) (message_v_to_c it) v).
  { rewrite Hl, <- HV. unfold get at 1.
    by rewrite list_lookup_fmap, lookup_seq_lt. }
  assert (Hb : get8 (codeword it) v
               = if dlt (get (l it) v) (dconst 0) then 1%Z else 0%Z).
  { rewrite Hlv, Hcw, <- HV. unfold get8.
    by rewrite list_lookup_fmap, lookup_seq_lt. }
  split; [|split].
  - rewrite Hlv. by apply belief_rule_eq.
  - exact Hb.
  - intros H0. rewrite Hb, H0, dlt_irrefl. reflexivity.
Qed.

Lemma display_valid_spec s it :
  display_valid s it = 1%Z ↔ ∀ c, c < n_c s → get8 (parity it) c = 0%Z.
Proof.
  unfold display_valid.
  apply (for_range_ind
           (λ k valid, (valid = 1%Z ↔ ∀ c, c < k → get8 (parity it) c = 0%Z))).
  - split; [|done]. intros _ c Hc. lia.
  - intros i valid Hi [IH1 IH2].
    destruct (get8 (parity it) i =? 0)%Z eqn:Hp; simpl.
    + apply Z.eqb_eq in Hp. split.
      * intros Hval c Hc. destruct (decide (c = i)) as [->|]; [done|].
        apply IH1; [done|lia].
      * intros Hall. apply IH2. intros c Hc. apply Hall. lia.
    + apply Z.eqb_neq in Hp. split; [done|].
      intros Hall. exfalso. apply Hp, Hall. lia.
Qed.


(** *** What a round reads *)

(** Two arrays that agree wherever the matrix entry is not 0. *)
Definition edge_agree s (A B : list (list D)) : Prop :=
  ∀ c v, c < n_c s → v < n_v s → mat (matrix s) c v ≠ 0%Z →
         get2 A c v = get2 B c v.

Lemma edge_agree_refl s A : edge_agree s A A.
Proof. by intros c v _ _ _. Qed.

Lemma calc_message_v_to_c_edges s cur cur' v c :
  c < n_c s →
  edge_agree s (message_c_to_v cur) (message_c_to_v cur') →
  calc_message_v_to_c s cur v c = calc_message_v_to_c s cur' v c.
Proof.
  intros Hc Hag. unfold calc_message_v_to_c. do 2 f_equal.
  - f_equal. apply for_range_ext. intros i t Hi.
    destruct (bool_decide (i ≠ v)); simpl; [|done].
    destruct (mat (matrix s) c i =? 0)%Z eqn:Hm; simpl; [done|].
    apply Z.eqb_neq in Hm. by rewrite (Hag c i).
  - f_equal. apply for_range_ext. intros i t Hi.
    destruct (bool_decide (i ≠ v)); simpl; [|done].
    destruct (mat (matrix s) c i =? 0)%Z eqn:Hm; simpl; [done|].
    apply Z.eqb_neq in Hm. by rewrite (Hag c i).
Qed.

Lemma calc_message_c_to_v_edges s cur cur' v c :
  v < n_v s →
  edge_agree s (message_v_to_c cur) (message_v_to_c cur') →
  calc_message_c_to_v s cur v c = calc_message_c_to_v s cur' v c.
Proof.
  intros Hv Hag. unfold calc_message_c_to_v.
  apply for_range_ext. intros i p Hi.
  destruct (bool_decide (i ≠ c)); simpl; [|done].
  destruct (mat (matrix s) i v =? 1)%Z eqn:Hm; simpl; [|done].
  apply Z.eqb_eq in Hm. rewrite (Hag i v); [done..|lia].
Qed.

Lemma belief_edges s V V' v :
  v < n_v s → edge_agree s V V' → belief s V v = belief s V' v.
Proof.
  intros Hv Hag. unfold belief. apply for_range_ext. intros i p Hi.
  destruct (mat (matrix s) i v =? 0)%Z eqn:Hm; simpl; [done|].
  apply Z.eqb_neq in Hm. by rewrite (Hag i v).
Qed.

Lemma hard_bit_edges s V V' v :
  v < n_v s → edge_agree s V V' → hard_bit s V v = hard_bit s V' v.
Proof. intros Hv Hag. unfold hard_bit. by rewrite (belief_edges s V V'). Qed.

Lemma parity_upto_edges s V V' k c :
  k ≤ n_v s → edge_agree s V V' → parity_upto s V k c = parity_upto s V' k c.
Proof.
  intros Hk Hag. unfold parity_upto. apply for_range_ext. intros v x Hv.
  rewrite (hard_bit_edges s V V') by (done || lia). done.
Qed.

Lemma fmap_seq_ext {A : Type} (f g : nat → A) (n : nat) :
  (∀ i, i < n → f i = g i) → f <$> seq 0 n = g <$> seq 0 n.
Proof.
  intros Hfg. apply list_fmap_ext. intros j i Hi.
  apply lookup_seq in Hi as [-> Hi]. by apply Hfg.
Qed.

(** The belief, codeword and parity loops read [message_v_to_c] on the
    edges only. *)
Lemma solve_variables_edges s x y :
  wf_iteration (n_c s) (n_v s) x → wf_iteration (n_c s) (n_v s) y →
  edge_agree s (message_v_to_c x) (message_v_to_c y) →
  let x' := for_range (n_v s) (solve_variable s) (clear_parity s x) in
  let y' := for_range (n_v s) (solve_variable s) (clear_parity s y) in
  l x' = l y' ∧ codeword x' = codeword y' ∧ parity x' = parity y'.
Proof.
  intros Hx Hy Hag x' y'. unfold x', y'.
  rewrite !solve_variables_spec by done. simpl. repeat split.
  - apply fmap_seq_ext. intros v Hv. by apply belief_edges.
  - apply fmap_seq_ext. intros v Hv. by apply hard_bit_edges.
  - apply fmap_seq_ext. intros c Hc. by apply parity_upto_edges.
Qed.

(** The check messages are computed from the edges of [message_c_to_v]
    only. *)
Lemma solve_v_to_c_edges s cur cur' :
  wf_iteration (n_c s) (n_v s) cur → wf_iteration (n_c s) (n_v s) cur' →
  edge_agree s (message_c_to_v cur) (message_c_to_v cur') →
  message_v_to_c (solve_v_to_c s cur) = message_v_to_c (solve_v_to_c s cur').
Proof.
  intros Hcur Hcur' Hag. unfold solve_v_to_c. simpl.
  rewrite !fill2_spec by (apply Hcur || apply Hcur').
  apply fmap_seq_ext. intros c Hc. apply fmap_seq_ext. intros v Hv.
  by apply calc_message_v_to_c_edges.
Qed.

Lemma solve_current_edges s cur cur' :
  wf_iteration (n_c s) (n_v s) cur → wf_iteration (n_c s) (n_v s) cur' →
  edge_agree s (message_c_to_v cur) (message_c_to_v cur') →
  message_v_to_c (solve_current s cur) = message_v_to_c (solve_current s cur') ∧
  l (solve_current s cur) = l (solve_current s cur') ∧
  codeword (solve_current s cur) = codeword (solve_current s cur') ∧
  parity (solve_current s cur) = parity (solve_current s cur') ∧
  message_c_to_v (solve_current s cur) = message_c_to_v cur ∧
  message_c_to_v (solve_current s cur') = message_c_to_v cur'.
Proof.
  intros Hcur Hcur' Hag.
  pose proof (solve_v_to_c_edges s cur cur' Hcur Hcur' Hag) as HV.
  pose proof (wf_solve_v_to_c s cur Hcur) as Hx.
  pose proof (wf_solve_v_to_c s cur' Hcur') as Hy.
  unfold solve_current. rewrite !solve_variables_spec by done.
  rewrite HV. repeat split; reflexivity.
Qed.

Lemma solve_next_edges s cur cur' nxt nxt' :
  wf_iteration (n_c s) (n_v s) nxt → wf_iteration (n_c s) (n_v s) nxt' →
  edge_agree s (message_v_to_c cur) (message_v_to_c cur') →
  message_c_to_v (solve_next s cur nxt) = message_c_to_v (solve_next s cur' nxt').
Proof.
  intros Hnxt Hnxt' Hag. unfold solve_next. simpl.
  rewrite !fill2_spec by (apply Hnxt || apply Hnxt').
  apply fmap_seq_ext. intros c Hc. apply fmap_seq_ext. intros v Hv.
  by apply calc_message_c_to_v_edges.
Qed.

(** *** Non-edge slots *)

(** Two snapshots that show the same result: the same beliefs, codeword
    and syndrome, and the same messages on every edge. *)
Definition same_result s it it' : Prop :=
  edge_agree s (message_v_to_c it) (message_v_to_c it') ∧
  edge_agree s (message_c_to_v it) (message_c_to_v it') ∧
  l it = l it' ∧ codeword it = codeword it' ∧ parity it = parity it'.

(** The [while] loop entered after the first inner loop of its body, with
    the check messages of [x] already written. *)
Definition after_v_to_c s x (rest : list (iteration D)) : list (iteration D) :=
  let x' := for_range (n_v s) (solve_variable s) (clear_parity s x) in
  match rest with
  | [] => [x']
  | nxt :: rest' => x' :: solve_loop s (solve_next s x' nxt) rest'
  end.

Lemma solve_loop_after s cur rest :
  solve_loop s cur rest = after_v_to_c s (solve_v_to_c s cur) rest.
Proof. destruct rest; reflexivity. Qed.

Lemma solve_loop_edges s cur cur' rest rest' :
  wf_iteration (n_c s) (n_v s) cur → wf_iteration (n_c s) (n_v s) cur' →
  Forall (wf_iteration (n_c s) (n_v s)) rest →
  Forall (wf_iteration (n_c s) (n_v s)) rest' →
  length rest = length rest' →
  edge_agree s (message_c_to_v cur) (message_c_to_v cur') →
  Forall2 (same_result s) (solve_loop s cur rest) (solve_loop s cur' rest').
Proof.
  intros Hcur Hcur' Hrest. revert cur cur' rest' Hcur Hcur'.
  induction Hrest as [|nxt rest Hnxt Hrest IH];
    intros cur cur' rest' Hcur Hcur' Hrest' Hlen Hag;
    destruct Hrest' as [|nxt' rest' Hnxt' Hrest']; try done; simpl.
  - destruct (solve_current_edges s cur cur' Hcur Hcur' Hag)
      as (HV & Hl & Hcw & Hpar & HC & HC').
    constructor; [|constructor].
    unfold same_result. rewrite HV, HC, HC'. repeat split; try done.
  - destruct (solve_current_edges s cur cur' Hcur Hcur' Hag)
      as (HV & Hl & Hcw & Hpar & HC & HC').
    constructor.
    + unfold same_result. rewrite HV, HC, HC'. repeat split; try done.
    + apply IH; try done.
      * by apply wf_solve_next.
      * by apply wf_solve_next.
      * simpl in Hlen. lia.
      * rewrite (solve_next_edges s _ (solve_current s cur') nxt nxt') by
          (try done; rewrite HV; apply edge_agree_refl).
        apply edge_agree_refl.
Qed.

Lemma after_v_to_c_edges s x y rest rest' :
  wf_iteration (n_c s) (n_v s) x → wf_iteration (n_c s) (n_v s) y →
  Forall (wf_iteration (n_c s) (n_v s)) rest →
  Forall (wf_iteration (n_c s) (n_v s)) rest' →
  length rest = length rest' →
  edge_agree s (message_v_to_c x) (message_v_to_c y) →
  edge_agree s (message_c_to_v x) (message_c_to_v y) →
  Forall2 (same_result s) (after_v_to_c s x rest) (after_v_to_c s y rest').
Proof.
  intros Hx Hy Hrest Hrest' Hlen HagV HagC. unfold after_v_to_c.
  destruct (solve_variables_edges s x y Hx Hy HagV) as (Hl & Hcw & Hpar).
  revert Hl Hcw Hpar. rewrite !solve_variables_spec by done. simpl.
  intros Hl Hcw Hpar.
  assert (Hhead : same_result s
    {| message_v_to_c := message_v_to_c x;
       l := belief s (message_v_to_c x) <$> seq 0 (n_v s);
       message_c_to_v := message_c_to_v x;
       codeword := hard_bit s (message_v_to_c x) <$> seq 0 (n_v s);
       parity := parity_upto s (message_v_to_c x) (n_v s) <$> seq 0 (n_c s) |}
    {| message_v_to_c := message_v_to_c y;
       l := belief s (message_v_to_c y) <$> seq 0 (n_v s);
       message_c_to_v := message_c_to_v y;
       codeword := hard_bit s (message_v_to_c y) <$> seq 0 (n_v s);
       parity := parity_upto s (message_v_to_c y) (n_v s) <$> seq 0 (n_c s) |}).
  { unfold same_result. simpl. done. }
  destruct Hrest as [|nxt rest Hnxt Hrest];
    destruct Hrest' as [|nxt' rest' Hnxt' Hrest']; try done.
  - constructor; [done|constructor].
  - constructor; [done|].
    apply solve_loop_edges; try done.
    + by apply wf_solve_next.
    + by apply wf_solve_next.
    + simpl in Hlen. lia.
    + rewrite (solve_next_edges s _
                 {| message_v_to_c := message_v_to_c y;
                    l := belief s (message_v_to_c y) <$> seq 0 (n_v s);
                    message_c_to_v := message_c_to_v y;
                    codeword := hard_bit s (message_v_to_c y) <$> seq 0 (n_v s);
                    parity := parity_upto s (message_v_to_c y) (n_v s)
                                <$> seq 0 (n_c s) |} nxt nxt') by done.
      apply edge_agree_refl.
Qed.

(** C10. The slots of the two message arrays where the matrix entry is 0
    are written by the engine but never read: entering the loop at any
    round with two [message_c_to_v] arrays that differ only in such slots,
    or resuming a round after its check messages were written with two
    [message_v_to_c] arrays that differ only in such slots, gives in that
    round and in every later one the same edge messages, beliefs,
    codeword bits and syndrome entries.  The slots are written all the
    same: the seeding of round 0 stores [llr_of(v)] in every slot
    [(c, v)], edge or not. *)
Theorem non_edge_slots_never_read s cur cur' rest rest' :
  wf_iteration (n_c s) (n_v s) cur → wf_iteration (n_c s) (n_v s) cur' →
  Forall (wf_iteration (n_c s) (n_v s)) rest →
  Forall (wf_iteration (n_c s) (n_v s)) rest' →
  length rest = length rest' →
  edge_agree s (message_c_to_v cur) (message_c_to_v cur') →
  Forall2 (same_result s) (solve_loop s cur rest) (solve_loop s cur' rest') ∧
  (edge_agree s (message_v_to_c cur) (message_v_to_c cur') →
   Forall2 (same_result s) (after_v_to_c s cur rest) (after_v_to_c s cur' rest')) ∧
  (wf_state s → ∀ it c v,
     history s !! 0 = Some it → c < n_c s → v < n_v s →
     get2 (message_c_to_v it) c v = llr_of s v).
Proof.
  intros Hcur Hcur' Hrest Hrest' Hlen Hag. split; [|split].
  - by apply solve_loop_edges.
  - intros HagV. by apply after_v_to_c_edges.
  - intros Hs it c v Hit Hc Hv.
    destruct (history_fields s 0 it Hs Hit) as (_ & _ & _ & _ & ->).
    by rewrite (get2_tabulate (n_c s) (n_v s) (λ _ v, llr_of s v)).
Qed.

(** *** What [state_solve] leaves alone *)


Lemma state_solve_fields s :
  cursor (state_solve s) = cursor s ∧ page (state_solve s) = page s ∧
  iterations (state_solve s) = iterations s ∧
  n_v (state_solve s) = n_v s ∧ n_c (state_solve s) = n_c s ∧
  channel (state_solve s) = channel s ∧ matrix (state_solve s) = matrix s.
Proof.
  unfold state_solve.
  destruct (first_iteration (solve_llr s)); simpl; repeat split.
Qed.

Lemma state_solve_channel_llr s :
  channel_llr (state_solve s) = channel_llr (solve_llr s).
Proof. unfold state_solve. by destruct (first_iteration (solve_llr s)). Qed.

(** C9. [state_solve] returns with the priors [channel] and the matrix as
    it found them, as well as the dimensions, the cursor and the page: it
    writes [channel_llr] and the iteration records only.  Of the keys of
    [process_keys] none touches the matrix, and only the up and down keys
    touch a prior, the one under the cursor. *)
Theorem state_solve_frame s :
  (channel (state_solve s) = channel s ∧ matrix (state_solve s) = matrix s ∧
   n_v (state_solve s) = n_v s ∧ n_c (state_solve s) = n_c s ∧
   cursor (state_solve s) = cursor s ∧ page (state_solve s) = page s ∧
   iterations (state_solve s) = iterations s) ∧
  (∀ key, matrix (process_keys key s).2 = matrix s) ∧
  (∀ key, key ≠ KEY_UP → key ≠ KEY_DOWN →
     channel (process_keys key s).2 = channel s) ∧
  (∀ key i, i ≠ Z.to_nat (cursor s) →
     channel (process_keys key s).2 !! i = channel s !! i).
Proof.
  pose proof (state_solve_fields s) as (H1 & H2 & H3 & H4 & H5 & H6 & H7).
  split; [by repeat split|].
  assert (Hup : matrix (key_up_channel s) = matrix s ∧
                ∀ i, i ≠ Z.to_nat (cursor s) →
                     channel (key_up_channel s) !! i = channel s !! i).
  { unfold key_up_channel. destruct (dlt _ _); simpl; (split; [done|]);
      intros i Hi; by rewrite !list_lookup_insert_ne. }
  assert (Hdown : matrix (key_down_channel s) = matrix s ∧
                  ∀ i, i ≠ Z.to_nat (cursor s) →
                       channel (key_down_channel s) !! i = channel s !! i).
  { unfold key_down_channel. destruct (dlt _ _); simpl; (split; [done|]);
      intros i Hi; by rewrite !list_lookup_insert_ne. }
  pose proof (state_solve_fields (key_up_channel s)) as (_ & _ & _ & _ & _ & U6 & U7).
  pose proof (state_solve_fields (key_down_channel s)) as (_ & _ & _ & _ & _ & D6 & D7).
  repeat split.
  - intros key. key_cases done.
    + rewrite U7. apply Hup.
    + rewrite D7. apply Hdown.
  - intros key Hu Hd. unfold process_keys.
    destruct (key =? KEY_UP)%Z eqn:Eu; [apply Z.eqb_eq in Eu; done|].
    destruct (key =? KEY_DOWN)%Z eqn:Ed; [apply Z.eqb_eq in Ed; done|].
    key_cases done.
  - intros key i Hi. key_cases done.
    + rewrite U6. by apply Hup.
    + rewrite D6. by apply Hdown.
Qed.

(** *** Determinism *)

(** What the loop reads of the state. *)
Definition same_env s s' : Prop :=
  n_v s = n_v s' ∧ n_c s = n_c s' ∧ matrix s = matrix s' ∧
  channel_llr s = channel_llr s'.

Lemma solve_current_env s s' cur :
  same_env s s' → solve_current s cur = solve_current s' cur.
Proof.
  intros (Hnv & Hnc & Hm & Hllr).
  destruct s, s'. simpl in *. subst. reflexivity.
Qed.

Lemma solve_next_env s s' cur nxt :
  same_env s s' → solve_next s cur nxt = solve_next s' cur nxt.
Proof.
  intros (Hnv & Hnc & Hm & Hllr).
  destruct s, s'. simpl in *. subst. reflexivity.
Qed.

Lemma solve_seed_env s s' first :
  same_env s s' → solve_seed s first = solve_seed s' first.
Proof.
  intros (Hnv & Hnc & Hm & Hllr).
  destruct s, s'. simpl in *. subst. reflexivity.
Qed.

Lemma solve_loop_env s s' cur rest :
  same_env s s' → solve_loop s cur rest = solve_loop s' cur rest.
Proof.
  intros Henv. revert cur. induction rest as [|nxt rest IH]; intros cur; simpl.
  - by rewrite (solve_current_env s s').
  - by rewrite (solve_current_env s s'), (solve_next_env s s'), IH.
Qed.

(** The loop is a function of the incoming messages of its first record
    and of the number of records: what else the records hold is
    overwritten before it is read. *)
Lemma solve_loop_deterministic s cur cur' rest rest' :
  wf_state s →
  wf_iteration (n_c s) (n_v s) cur → wf_iteration (n_c s) (n_v s) cur' →
  Forall (wf_iteration (n_c s) (n_v s)) rest →
  Forall (wf_iteration (n_c s) (n_v s)) rest' →
  length rest = length rest' →
  message_c_to_v cur = message_c_to_v cur' →
  solve_loop s cur rest = solve_loop s cur' rest'.
Proof.
  intros Hs Hcur Hcur' Hrest. revert cur cur' rest' Hcur Hcur'.
  induction Hrest as [|nxt rest Hnxt Hrest IH];
    intros cur cur' rest' Hcur Hcur' Hrest' Hlen HC;
    destruct Hrest' as [|nxt' rest' Hnxt' Hrest']; try done; simpl.
  - by rewrite !solve_current_spec, HC by done.
  - assert (Heq : solve_current s cur = solve_current s cur')
      by by rewrite !solve_current_spec, HC by done.
    rewrite Heq. f_equal. apply IH; try done.
    + by apply wf_solve_next.
    + by apply wf_solve_next.
    + simpl in Hlen. lia.
    + by rewrite !solve_next_spec by done.
Qed.

Lemma wf_solve_loop s cur rest :
  wf_state s → wf_iteration (n_c s) (n_v s) cur →
  Forall (wf_iteration (n_c s) (n_v s)) rest →
  Forall (wf_iteration (n_c s) (n_v s)) (solve_loop s cur rest).
Proof.
  intros Hs Hcur Hrest. apply Forall_lookup. intros r it Hit.
  destruct (solve_loop_input_wf s cur rest r it Hs Hcur Hrest Hit)
    as (cur_r & Hwf & -> & _).
  by apply wf_solve_current.
Qed.

Lemma wf_state_solve s : wf_state s → wf_state (state_solve s).
Proof.
  intros Hs. pose proof (wf_solve_llr s Hs) as Hs1.
  pose proof (wf_iterations _ Hs1) as Hits. revert Hits.
  unfold state_solve. destruct (first_iteration (solve_llr s)) as [|first rest];
    [done|]. intros Hits. apply Forall_cons in Hits as [Hfirst Hrest].
  destruct Hs1 as [H1 H2 H3 H4 _]. split; simpl; try done.
  apply (wf_solve_loop (solve_llr s)); try done.
  - by apply wf_solve_llr.
  - by apply wf_solve_seed.
Qed.

Lemma history_deterministic s s' :
  wf_state s → wf_state s' →
  n_v s = n_v s' → n_c s = n_c s' → matrix s = matrix s' →
  channel s = channel s' →
  length (first_iteration s) = length (first_iteration s') →
  history s = history s' ∧
  channel_llr (state_solve s) = channel_llr (state_solve s').
Proof.
  intros Hs Hs' Hnv Hnc Hm Hch Hlen.
  assert (Hllr : channel_llr (solve_llr s) = channel_llr (solve_llr s')).
  { rewrite !channel_llr_solve_llr by done. rewrite Hnv.
    apply fmap_seq_ext. intros v _. unfold llr_of. by rewrite Hch. }
  assert (Henv : same_env (solve_llr s) (solve_llr s')) by done.
  split; [|by rewrite !state_solve_channel_llr].
  pose proof (wf_solve_llr s' Hs') as Hs1'.
  pose proof (wf_iterations s Hs) as Hits.
  pose proof (wf_iterations s' Hs') as Hits'.
  unfold history, state_solve. simpl.
  destruct (first_iteration s) as [|first rest] eqn:Hfi;
    destruct (first_iteration s') as [|first' rest'] eqn:Hfi';
    try done; simpl.
  { by rewrite Hfi, Hfi'. }
  apply Forall_cons in Hits as [Hfirst Hrest].
  apply Forall_cons in Hits' as [Hfirst' Hrest'].
  rewrite (solve_loop_env _ _ _ _ Henv), (solve_seed_env _ _ _ Henv).
  rewrite Hnv, Hnc in Hfirst, Hrest.
  apply solve_loop_deterministic; try done.
  - by apply wf_solve_seed.
  - by apply wf_solve_seed.
  - simpl in Hlen. lia.
  - by rewrite !solve_seed_spec by done.
Qed.

(** C6. Decoding is deterministic: two calls of [state_solve] on states
    with the same matrix, the same priors and the same number of iteration
    records leave the same history, snapshot by snapshot and field by
    field, and the same channel LLRs, whatever the records, the
    [channel_llr] array, the cursor and the page held before; so does a
    second call on the state the first one left. *)
Theorem decode_deterministic s s' :
  wf_state s → wf_state s' →
  n_v s = n_v s' → n_c s = n_c s' → matrix s = matrix s' →
  channel s = channel s' →
  length (first_iteration s) = length (first_iteration s') →
  history s = history s' ∧
  channel_llr (state_solve s) = channel_llr (state_solve s') ∧
  history (state_solve s) = history s ∧
  channel_llr (state_solve (state_solve s)) = channel_llr (state_solve s).
Proof.
  intros Hs Hs' Hnv Hnc Hm Hch Hlen.
  destruct (history_deterministic s s' Hs Hs' Hnv Hnc Hm Hch Hlen) as [H1 H2].
  pose proof (state_solve_fields s) as (_ & _ & _ & F4 & F5 & F6 & F7).
  destruct (history_deterministic (state_solve s) s) as [H3 H4];
    try done.
  - by apply wf_state_solve.
  - apply history_length.
Qed.

(** *** [state_new] *)

Section StateNew.
Variables (indet : D) (indet8 : Z).

Lemma wf_add_iteration s :
  wf_state s → wf_state (add_iteration indet indet8 s).
Proof.
  intros [H1 H2 H3 H4 H5]. split; simpl; try done.
  apply Forall_cons. split; [|done].
  split; simpl; unfold malloc_double, malloc_uint8;
    rewrite ?length_replicate; try done; apply shaped_replicate.
Qed.

(** The state [state_new] returns: the global matrix, the priors of
    [initial_r], and [n_i] iteration records of the matrix's shape. *)
Lemma state_new_spec n_i :
  let s := state_new indet indet8 n_i in
  wf_state s ∧ n_v s = 6 ∧ n_c s = 4 ∧ matrix s = ldpc_matrix ∧
  channel s = (λ r, l_to_p (dconst r)) <$> initial_r ∧
  length (first_iteration s) = Z.to_nat n_i ∧
  cursor s = 0%Z ∧ page s = 0%Z ∧ iterations s = n_i.
Proof.
  unfold state_new.
  apply (for_range_ind (λ k s,
    wf_state s ∧ n_v s = 6 ∧ n_c s = 4 ∧ matrix s = ldpc_matrix ∧
    channel s = (λ r, l_to_p (dconst r)) <$> initial_r ∧
    length (first_iteration s) = k ∧
    cursor s = 0%Z ∧ page s = 0%Z ∧ iterations s = n_i)).
  - assert (Hm : for_range 6 (λ i m,
        for_range 4 (λ j m,
          alter (λ row, <[i := mat ldpc_matrix j i]> row) j m) m)
        (replicate 4 (malloc_uint8 indet8 6)) = ldpc_matrix) by reflexivity.
    rewrite Hm. repeat split; simpl; try done.
    + unfold ldpc_matrix. repeat constructor.
    + unfold ldpc_matrix. repeat (constructor; [repeat constructor; lia|]).
      constructor.
  - intros i s _ (Hwf & Hnv & Hnc & Hm & Hch & Hlen & Hcu & Hpa & Hit).
    split; [apply (wf_add_iteration s Hwf)|].
    repeat split; simpl; try done. by rewrite Hlen.
Qed.

End StateNew.

(** *** Every round is computed *)

(** What the rules of the specification prescribe for a snapshot, given
    what it holds in [message_c_to_v]: the check message at every slot,
    the belief and the bit of every variable, the syndrome of every
    check. *)
Definition round_filled s (it : iteration D) : Prop :=
  (∀ c v, c < n_c s → v < n_v s →
     get2 (message_v_to_c it) c v = check_rule s (get2 (message_c_to_v it)) c v) ∧
  (∀ v, v < n_v s →
     get (l it) v = belief_rule s (get2 (message_v_to_c it)) v ∧
     get8 (codeword it) v = (if dlt (get (l it) v) (dconst 0) then 1%Z else 0%Z)) ∧
  (∀ c, c < n_c s →
     get8 (parity it) c = syndrome_rule s (get8 (codeword it)) c).

(** What a round reads, at every slot: the channel LLR in round 0, and
    in a later round what the variable rule makes of the check messages
    of the snapshot before. *)
Definition round_input s (before : option (iteration D)) (it : iteration D) : Prop :=
  ∀ c v, c < n_c s → v < n_v s →
    get2 (message_c_to_v it) c v =
    match before with
    | None => llr_of s v
    | Some it' => variable_rule s (get2 (message_v_to_c it')) c v
    end.

Lemma history_round_filled s r it :
  wf_state s → history s !! r = Some it → round_filled s it.
Proof.
  intros Hs Hit.
  destruct (history_fields s r it Hs Hit) as (HV & Hl & Hcw & Hpar & _).
  assert (Hlv : ∀ v, v < n_v s →
            get (l it) v = belief (solve_llr s) (message_v_to_c it) v).
  { intros v Hv. rewrite Hl, <- HV. unfold get at 1.
    by rewrite list_lookup_fmap, lookup_seq_lt. }
  assert (Hb : ∀ v, v < n_v s →
            get8 (codeword it) v = hard_bit (solve_llr s) (message_v_to_c it) v).
  { intros v Hv. rewrite Hcw, <- HV. unfold get8.
    by rewrite list_lookup_fmap, lookup_seq_lt. }
  split; [|split].
  - intros c v Hc Hv. by apply (history_check_rule s r).
  - intros v Hv. split.
    + rewrite Hlv by done. by apply belief_rule_eq.
    + rewrite Hb, Hlv by done. reflexivity.
  - intros c Hc. rewrite Hpar at 1. unfold get8 at 1.
    rewrite list_lookup_fmap, lookup_seq_lt by done. simpl.
    rewrite parity_upto_rule by done. unfold syndrome_rule.
    apply (foldl_ext_Forall (λ v, v < n_v s ∧ connected s c v)).
    + apply (Forall_filter_seq (λ v, connected s c v)).
    + intros x v [Hv _]. f_equal. rewrite Hb, <- HV by done. reflexivity.
Qed.

Lemma history_round_input s r it :
  wf_state s → history s !! r = Some it →
  match r with
  | 0 => round_input s None it
  | S r' => ∃ it', history s !! r' = Some it' ∧ round_input s (Some it') it
  end.
Proof.
  intros Hs Hit.
  destruct (history_fields s r it Hs Hit) as (_ & _ & _ & _ & Hin).
  destruct r as [|r'].
  - intros c v Hc Hv. rewrite Hin.
    by rewrite (get2_tabulate (n_c s) (n_v s) (λ _ v, llr_of s v)).
  - destruct Hin as (it' & Hit' & Hin). exists it'. split; [done|].
    intros c v Hc Hv. rewrite Hin. by apply round_c_to_v_rule.
Qed.

(** C7. [state_solve] returns, and leaves one snapshot per iteration
    record: [n_i] of them after [state_new(n_i)], as many as before on a
    state the keys have changed.  Every one of them is computed: each
    slot of its five arrays holds what the rules of the specification
    prescribe (check messages, beliefs, bits, syndrome), from the channel
    LLRs in round 0 and from the check messages of the snapshot before in
    a later round, so that nothing [add_iteration] or an earlier call
    left in a record survives.  No test on the syndrome ends the loop:
    after a round whose syndrome is all zero the next round is computed
    like any other. *)
Theorem decode_fills_every_round :
  (∀ indet indet8 n_i,
     wf_state (state_new indet indet8 n_i) ∧
     length (history (state_new indet indet8 n_i)) = Z.to_nat n_i) ∧
  (∀ s, wf_state s →
     wf_state (state_solve s) ∧
     length (history s) = length (first_iteration s) ∧
     (∀ r, r < length (first_iteration s) →
        ∃ it, history s !! r = Some it ∧ round_filled s it ∧
          match r with
          | 0 => round_input s None it
          | S r' => ∃ it', history s !! r' = Some it' ∧
                           round_input s (Some it') it
          end) ∧
     (∀ r it, history s !! r = Some it →
        (∀ c, c < n_c s → get8 (parity it) c = 0%Z) →
        S r < length (first_iteration s) →
        ∃ it', history s !! S r = Some it' ∧ round_filled s it' ∧
               round_input s (Some it) it')).
Proof.
  split.
  - intros indet indet8 n_i. rewrite history_length.
    split; apply (state_new_spec indet indet8 n_i).
  - intros s Hs.
    assert (Hround : ∀ r, r < length (first_iteration s) →
              ∃ it, history s !! r = Some it ∧ round_filled s it ∧
                match r with
                | 0 => round_input s None it
                | S r' => ∃ it', history s !! r' = Some it' ∧
                                 round_input s (Some it') it
                end).
    { intros r Hr.
      destruct (lookup_lt_is_Some_2 (history s) r) as [it Hit];
        [by rewrite history_length|].
      exists it. split; [done|]. split.
      - by apply (history_round_filled s r).
      - by apply history_round_input. }
    split; [by apply wf_state_solve|]. split; [apply history_length|].
    split; [exact Hround|].
    intros r it Hit _ Hr.
    destruct (Hround (S r) Hr) as (it' & Hit' & Hfill & it0 & Hit0 & Hin).
    assert (it0 = it) as -> by congruence.
    exists it'. done.
Qed.

End EngineFacts.

(** ** The nudge of a prior *)

Section NudgeFacts.
Context {D : Type} `{!Double D} `{!Libm D}.
Implicit Types (s : state D) (x : D).

(** The prior snapped down to the 0.01 grid. *)
Definition snap x : D := ddiv (dfloor (dmul x (dconst 100))) (dconst 100).

(** The value the down key leaves in the slot: the prior raised. *)
Definition nudge_up x : D :=
  if dlt (snap x) (dconst (99#100))
  then dadd (snap x) (dconst (1#100)) else dconst (99#100).

(** The value the up key leaves in the slot: the prior lowered. *)
Definition nudge_down x : D :=
  if dlt (dconst (1#100)) (snap x)
  then dsub (snap x) (dconst (1#100)) else dconst (1#100).

Lemma key_down_slot s x :
  channel s !! Z.to_nat (cursor s) = Some x →
  channel (process_keys KEY_DOWN s).2 = <[Z.to_nat (cursor s) := nudge_up x]> (channel s) ∧
  cursor (process_keys KEY_DOWN s).2 = cursor s.
Proof.
  intros Hx. pose proof (lookup_lt_Some _ _ _ Hx) as Hlt.
  assert (process_keys KEY_DOWN s = (1%Z, state_solve (key_down_channel s)))
    as -> by reflexivity.
  pose proof (state_solve_fields (key_down_channel s))
    as (F1 & _ & _ & _ & _ & F6 & _).
  simpl. rewrite F1, F6. unfold key_down_channel, snap_channel, nudge_up, snap.
  simpl. rewrite (get_lookup _ _ _ Hx), get_insert_eq by done.
  destruct (dlt _ _); simpl; by rewrite list_insert_insert_eq.
Qed.

Lemma key_up_slot s x :
  channel s !! Z.to_nat (cursor s) = Some x →
  channel (process_keys KEY_UP s).2 = <[Z.to_nat (cursor s) := nudge_down x]> (channel s) ∧
  cursor (process_keys KEY_UP s).2 = cursor s.
Proof.
  intros Hx. pose proof (lookup_lt_Some _ _ _ Hx) as Hlt.
  assert (process_keys KEY_UP s = (1%Z, state_solve (key_up_channel s)))
    as -> by reflexivity.
  pose proof (state_solve_fields (key_up_channel s))
    as (F1 & _ & _ & _ & _ & F6 & _).
  simpl. rewrite F1, F6. unfold key_up_channel, snap_channel, nudge_down, snap.
  simpl. rewrite (get_lookup _ _ _ Hx), get_insert_eq by done.
  destruct (dlt _ _); simpl; by rewrite list_insert_insert_eq.
Qed.

(** The slot under the cursor after [n] presses of a key. *)
Definition press (key : Z) (n : nat) s : state D :=
  Nat.iter n (λ s, (process_keys key s).2) s.

Lemma press_slot (key : Z) (f : D → D) n s x :
  (∀ s x, channel s !! Z.to_nat (cursor s) = Some x →
     channel (process_keys key s).2 = <[Z.to_nat (cursor s) := f x]> (channel s) ∧
     cursor (process_keys key s).2 = cursor s) →
  channel s !! Z.to_nat (cursor s) = Some x →
  channel (press key n s) !! Z.to_nat (cursor (press key n s))
  = Some (Nat.iter n f x).
Proof.
  intros Hkey Hx. induction n as [|n IH]; [done|]. simpl.
  destruct (Hkey _ _ IH) as [-> ->].
  apply list_lookup_insert_eq. by eapply lookup_lt_Some.
Qed.

End NudgeFacts.

Lemma iter_fixed {A : Type} (f : A → A) (x : A) (n : nat) :
  f x = x → Nat.iter n f x = x.
Proof. intros Hf. induction n as [|n IH]; simpl; [done|]. by rewrite IH. Qed.

(** * The binary64 model

    [double] read as the kernel's IEEE-754 binary64 floats, for the
    arithmetic of the language and [floor].  The transcendental functions
    of [math.h] have no counterpart there: what is proved in this section
    is about the nudge of a prior, which calls none of them, and holds
    for every [Libm] on these floats. *)

Section FloatModel.

(** The conversion of an [int] constant. *)
Definition float_of_Z (z : Z) : float :=
  if (z <? 0)%Z then PrimFloat.opp (PrimFloat.of_uint63 (Uint63.of_Z (- z)))
  else PrimFloat.of_uint63 (Uint63.of_Z z).

(** A decimal literal [n / d] with [n] and [d] below 2^53: the quotient of
    two exact conversions is the correctly rounded literal. *)
Definition float_const (q : Q) : float :=
  PrimFloat.div (float_of_Z (Qnum q)) (float_of_Z (Z.pos (Qden q))).

Definition two52 : float := float_of_Z (2 ^ 52).

(** [floor]: below 2^52 in magnitude, adding and subtracting 2^52 rounds
    to the nearest integer, which is the floor or one above it; from 2^52
    on every double is an integer. *)
Definition float_floor (x : float) : float :=
  if PrimFloat.ltb (PrimFloat.abs x) two52 then
    let r := if PrimFloat.ltb x PrimFloat.zero
             then PrimFloat.add (PrimFloat.sub x two52) two52
             else PrimFloat.sub (PrimFloat.add x two52) two52 in
    if PrimFloat.ltb x r then PrimFloat.sub r PrimFloat.one
    else if PrimFloat.eqb r x then x else r
  else x.

Lemma SFltb_irrefl (f : spec_float) : SFltb f f = false.
Proof.
  unfold SFltb, SFcompare. destruct f as [b|b| |b m e].
  - reflexivity.
  - by destruct b.
  - reflexivity.
  - destruct b; rewrite Z.compare_refl, Pos.compare_cont_refl; reflexivity.
Qed.

Lemma float_ltb_irrefl (x : float) : PrimFloat.ltb x x = false.
Proof. rewrite FloatAxioms.ltb_spec. apply SFltb_irrefl. Qed.

#[export] Instance float_double : Double float := {|
  dadd := PrimFloat.add; dsub := PrimFloat.sub;
  dmul := PrimFloat.mul; ddiv := PrimFloat.div;
  dlt := PrimFloat.ltb;
  dfloor := float_floor;
  dconst := float_const;
  dlt_irrefl := float_ltb_irrefl
|}.

(** Equality of two doubles, decided on their sign, mantissa and
    exponent. *)
Definition SFsame (x y : spec_float) : bool :=
  match x, y with
  | S754_zero a, S754_zero b => Bool.eqb a b
  | S754_infinity a, S754_infinity b => Bool.eqb a b
  | S754_nan, S754_nan => true
  | S754_finite a m e, S754_finite b m' e' =>
      Bool.eqb a b && (m =? m')%positive && (e =? e')%Z
  | _, _ => false
  end.

Definition float_same (x y : float) : bool := SFsame (Prim2SF x) (Prim2SF y).

Lemma float_same_eq (x y : float) : float_same x y = true → x = y.
Proof.
  unfold float_same. intros H. apply Prim2SF_inj.
  destruct (Prim2SF x) as [a|a| |a m e], (Prim2SF y) as [b|b| |b m' e'];
    simpl in H; try done.
  - apply Bool.eqb_prop in H. by subst.
  - apply Bool.eqb_prop in H. by subst.
  - apply andb_true_iff in H as [H He]. apply andb_true_iff in H as [Hb Hm].
    apply Bool.eqb_prop in Hb. apply Pos.eqb_eq in Hm. apply Z.eqb_eq in He.
    by subst.
Qed.



(** The prior the down key leaves when the snapped prior is [x], and the
    one the up key leaves. *)
Definition float_raise (x : float) : float :=
  if PrimFloat.ltb x (float_const (99#100))
  then PrimFloat.add x (float_const (1#100)) else float_const (99#100).

Definition float_lower (x : float) : float :=
  if PrimFloat.ltb (float_const (1#100)) x
  then PrimFloat.sub x (float_const (1#100)) else float_const (1#100).

Lemma float_nudge_up_eq (x : float) : nudge_up x = float_raise (snap x).
Proof. reflexivity. Qed.

Lemma float_nudge_down_eq (x : float) : nudge_down x = float_lower (snap x).
Proof. reflexivity. Qed.



(** The grid point [k / 100], as the literal of that value. *)
Definition grid_point (k : nat) : float := float_const (Z.of_nat k # 100).





Lemma float_nudge_up_567 :
  snap (float_const (567#1000)) = float_const (56#100) ∧
  nudge_up (float_const (567#1000)) = next_up (float_const (57#100)).
Proof. split; vm_compute; reflexivity. Qed.




End FloatModel.

(** * The worked example on binary64

    The decoder calls [exp], [log] and [tanh] of [math.h], which are no
    part of the program: what a run computes depends on the doubles these
    return.  The run of [main] on the matrix and the initial LLRs of the
    source is followed here for a libm that returns given doubles at the
    arguments the run presents, the arithmetic being that of the kernel's
    binary64 throughout. *)

Section FloatExample.
Local Open Scope float_scope.

(** What a libm returns at some arguments: for each of the three
    functions, pairs of an argument and the result. *)
Record libm_values := LibmValues {
  exp_values : list (float * float);
  log_values : list (float * float);
  tanh_values : list (float * float)
}.

Definition returns (f : float → float) (t : list (float * float)) : Prop :=
  Forall (λ p, f p.1 = p.2) t.

Definition libm_returns (libm : Libm float) (T : libm_values) : Prop :=
  returns dexp (exp_values T) ∧ returns dlog (log_values T) ∧
  returns dtanh (tanh_values T).

Fixpoint table_lookup (t : list (float * float)) (x : float) : option float :=
  match t with
  | [] => None
  | (a, b) :: t' => if float_same a x then Some b else table_lookup t' x
  end.

(** [f], read from the table where the table has the argument. *)
Definition tabled (t : list (float * float)) (f : float → float) (x : float) : float :=
  default (f x) (table_lookup t x).

Definition libm_tabled (T : libm_values) (libm : Libm float) : Libm float := {|
  dexp := tabled (exp_values T) dexp;
  dlog := tabled (log_values T) dlog;
  dtanh := tabled (tanh_values T) dtanh
|}.

(** The libm that returns the values of the table, and NaN at every
    other argument. *)
Definition libm_of (T : libm_values) : Libm float := {|
  dexp := λ x, default PrimFloat.nan (table_lookup (exp_values T) x);
  dlog := λ x, default PrimFloat.nan (table_lookup (log_values T) x);
  dtanh := λ x, default PrimFloat.nan (table_lookup (tanh_values T) x)
|}.

(** The doubles the GNU C library (2.36, x86-64) returns at the
    arguments the run of the example presents to it: [exp] in [l_to_p],
    [log] in [p_to_l] and at the edges of the graph in
    [calc_message_v_to_c], [tanh] in [calc_message_v_to_c]. *)
Definition glibc_values : libm_values := {|
  exp_values :=
    [ ((-0x1.0000000000000p-1), 0x1.368b2fc6f960ap-1);
      (0x1.4000000000000p+1, 0x1.85d6fd931e0bbp+3);
      ((-0x1.0000000000000p+2), 0x1.2c155b8213cf4p-6);
      (0x1.4000000000000p+2, 0x1.28d389970338fp+7);
      ((-0x1.c000000000000p+1), 0x1.eec1018e4ff66p-6) ];
  log_values :=
    [ (0x1.368b2fc6f960bp-1, (-0x1.ffffffffffffdp-2));
      (0x1.85d6fd931e0bap+3, 0x1.4000000000000p+1);
      (0x1.2c155b8213cf4p-6, (-0x1.0000000000000p+2));
      (0x1.28d3899703399p+7, 0x1.4000000000002p+2);
      (0x1.eec1018e4ff65p-6, (-0x1.c000000000000p+1));
      (0x1.68776e4b30aa2p+3, 0x1.35f90f44e9da4p+1);
      (0x1.38b72cf5054c1p-1, (-0x1.f8dd0a1695f19p-2));
      (0x1.4fd9a7f7dcf13p-1, (-0x1.afc7775687c37p-2));
      (0x1.49fda2c826df7p+4, 0x1.83639057e1c23p+1);
      (0x1.cac57e25e3f20p-4, (-0x1.18382a0ddc509p+1));
      (0x1.9a9fa869f65d0p-4, (-0x1.266951418b546p+1));
      (0x1.996b5cc96ea17p+0, 0x1.e0d503134b083p-2);
      (0x1.9a6d638faa95ep-6, (-0x1.d7eb15acb1bcep+1));
      (0x1.c19cb85971c33p+3, 0x1.524256c4e38dbp+1);
      (0x1.13854649687acp-3, (-0x1.00c32f5c804efp+1));
      (0x1.267b3b34263eap-4, (-0x1.50f7697f8d660p+1));
      (0x1.1c2f3ccbcf556p+2, 0x1.7da12e2c3b910p+0);
      (0x1.3af86d3a37576p-3, (-0x1.df4495a4837e7p+0));
      (0x1.537a345af0919p-2, (-0x1.1aa3f95128cd0p+0));
      (0x1.9fb12526aeeacp+1, 0x1.2d8bca2f76f5ap+0);
      (0x1.ba9ba12a89b2fp-2, (-0x1.ad758cfcd47dep-1));
      (0x1.31d1047b5e0bep-3, (-0x1.e6d1795acbd50p+0));
      (0x1.03e310a1d588bp+4, 0x1.64d1fafb7511ap+1);
      (0x1.b5384e697d9b0p-5, (-0x1.7719de8b537dap+1));
      (0x1.93cdb3e9c3839p-7, (-0x1.195ca3b963060p+2));
      (0x1.bb3a85cf183dap+2, 0x1.ef696fdc735ffp+0);
      (0x1.adb7f55a5e688p+0, 0x1.093126272ea9dp-1);
      (0x1.eb1c04fd21212p+0, 0x1.4d900a95047aep-1);
      (0x1.9dc5085c3c56cp+1, 0x1.2c5c06276e60ap+0);
      (0x1.3c8f8b8ae19ecp-1, (-0x1.ec59564d017a1p-2));
      (0x1.895298d9adc8fp-1, (-0x1.0e05e5ab5f701p-2));
      (0x1.9042051c7dceap+2, 0x1.d54e4c47dd3aap+0);
      (0x1.0d25c708b8ff9p-2, (-0x1.5611fd4524848p+0));
      (0x1.048423702851dp-3, (-0x1.07ee1c68e40d1p+1));
      (0x1.a25dbe63e922fp+0, 0x1.f6f7cc3b1c101p-2);
      (0x1.1a74b460dc84ap-1, (-0x1.3089ec6c46b00p-1));
      (0x1.8b4eea13588f6p-4, (-0x1.2b46dee850f3fp+1));
      (0x1.a9966116f9e5dp+4, 0x1.a3f3ee186a660p+1);
      (0x1.d188604aeff10p+1, 0x1.4a88f1fca678ap+0);
      (0x1.bdd7cc5aa4cf4p+1, 0x1.3f78c49911885p+0);
      (0x1.a69b493905668p+4, 0x1.a30d9d316ee4cp+1);
      (0x1.d170411fe5f26p-5, (-0x1.6f1870f7f63dfp+1));
      (0x1.426e02232c580p-4, (-0x1.455c5b17e49fbp+1));
      (0x1.b6b0fad692020p-1, (-0x1.3c797baffba8ep-3));
      (0x1.1ac861da11551p+0, 0x1.978ed96db40e8p-4);
      (0x1.0a10e4091c435p-2, (-0x1.5904ab1c69bbdp+0));
      (0x1.8b76b874c668bp+0, 0x1.bd51a00855533p-2);
      (0x1.4dc031a265ce1p-1, (-0x1.b63351f999871p-2));
      (0x1.e624d37150710p-7, (-0x1.0d7c29038d837p+2));
      (0x1.298889eb03f7bp+6, 0x1.13ca74e72df18p+2);
      (0x1.0dec0e3057455p-1, (-0x1.47c72605b2f92p-1));
      (0x1.0b3d431d6b006p-1, (-0x1.4ce467bb02caep-1));
      (0x1.03c5fca366fd7p+4, 0x1.64c3a7d9fe9ffp+1);
      (0x1.c9cd8da9ecf83p-5, (-0x1.713675f684732p+1));
      (0x1.a067d5d717714p-5, (-0x1.7d582e212c447p+1));
      (0x1.5da7e74481ecbp+2, 0x1.b2b47a35df3aep+0);
      (0x1.eb96a627c4859p-3, (-0x1.6d4e5e50054f8p+0));
      (0x1.07955f49989dap-4, (-0x1.5f2799c667cbbp+1));
      (0x1.92f2db1fc42f3p+1, 0x1.25934d1173c3ep+0);
      (0x1.4475806957b2dp-2, (-0x1.26395aa7d5193p+0));
      (0x1.85f27c6df3dbbp-9, (-0x1.7451c47e9877ap+2));
      (0x1.2ff93cad72fd4p+5, 0x1.d1999359c1d90p+1);
      (0x1.8ec694ceac8acp+1, 0x1.22e911d15a56ap+0);
      (0x1.a1cd3330a55c5p+1, 0x1.2ed789525a752p+0);
      (0x1.ed38b8601da10p+3, 0x1.5e1bc6172ac11p+1);
      (0x1.4d58d5277a2bcp-3, (-0x1.d0c058f2e3b76p+0));
      (0x1.b11324a78c835p-3, (-0x1.8dbfd85f39456p+0));
      (0x1.a78b24bf4188bp+4, 0x1.a3562ea3c8ee2p+1);
      (0x1.de19eec3f7a9bp-5, (-0x1.6ba8dc49d7421p+1));
      (0x1.844a4290b747cp-6, (-0x1.df03f183481b1p+1));
      (0x1.93e8eace0dae4p-1, (-0x1.e5a5f6dc65f85p-3));
      (0x1.4661fc79e27c8p+0, 0x1.f1721236ae9a5p-3);
      (0x1.c88a56f9ab39dp-7, (-0x1.1181863822a8fp+2));
      (0x1.78fe24851a7eap+6, 0x1.22f08b040b0b0p+2);
      (0x1.d9c0ec779b20dp+3, 0x1.58f42b759c093p+1);
      (0x1.d9783a81149dep+3, 0x1.58e085dced4cdp+1);
      (0x1.ed7e8f4d7812fp+5, 0x1.07cffe5786bbcp+2);
      (0x1.cc8957b0f0a5fp-6, (-0x1.c92c6e54d6c95p+1));
      (0x1.4e1488e24902bp-5, (-0x1.998a4598df69cp+1));
      (0x1.6bc936761e231p+2, 0x1.bcd8c565f8367p+0);
      (0x1.b1495ae3305f0p-3, (-0x1.8d9fcea62e41dp+0));
      (0x1.97a88f0d10f7bp-5, (-0x1.800fd98da5301p+1));
      (0x1.299532cb86d3cp-2, (-0x1.3c5c07e364291p+0));
      (0x1.b72fed5bf413ep+1, 0x1.3b9f0a66942fcp+0);
      (0x1.4aa837cdba81bp-8, (-0x1.528372e42c20ep+2));
      (0x1.2f8b172bb51dfp+8, 0x1.6dcb269cd258ep+2);
      (0x1.b693a80eaed9bp+1, 0x1.3b43e34ae42dfp+0);
      (0x1.b772f1802d3d7p+1, 0x1.3bc617a63c928p+0);
      (0x1.558f1b271e15dp+6, 0x1.1c9f5a31b1499p+2);
      (0x1.87038610e3250p-7, (-0x1.1b6bf83c8173cp+2));
      (0x1.6415a893143fbp-7, (-0x1.216917c1cbae7p+2));
      (0x1.fe6d4686f3dc7p+3, 0x1.627f59e3e0699p+1);
      (0x1.4311e1864b8d1p-4, (-0x1.451b5d8042f2ap+1));
      (0x1.32c82ea97c407p-6, (-0x1.fd2c96d515b5cp+1));
      (0x1.368a7bdf404a2p-1, (-0x1.0001289d62c17p-1));
      (0x1.a60cdbf6c06b2p+0, 0x1.fff214210941fp-2);
      (0x1.fcad56ad57c3ap-11, (-0x1.bc07e9cd7a13dp+2)) ];
  tanh_values :=
    [ (0x1.4000000000000p+0, 0x1.b2523bb6b2deep-1);
      (0x1.4000000000002p+1, 0x1.f9258260a71c2p-1);
      ((-0x1.ffffffffffffdp-3), (-0x1.f597ea69a1c82p-3));
      ((-0x1.0000000000000p+1), (-0x1.ed9505e1bc3d4p-1));
      ((-0x1.c000000000000p+0), (-0x1.e1fbf97e33527p-1));
      (0x1.61b1c82bf0e12p+1, 0x1.fbf0ce3296150p-1);
      (0x1.5996aebe74abep+0, 0x1.bf82890972585p-1);
      ((-0x1.58382a0ddc509p+0), (-0x1.bedc47d095258p-1));
      ((-0x1.940de1762c4b8p-1), (-0x1.50dd351fdc915p-1));
      ((-0x1.f5f8eeead0f87p+0), (-0x1.ec1c41fbc20b0p-1));
      (0x1.00e45ebd2d41dp+0, 0x1.86aefad8279e9p-1);
      ((-0x1.7334a8a0c5aa3p+1), (-0x1.fce8cf7d1c9d2p-1));
      ((-0x1.2fd62b596379cp-1), (-0x1.10914f6c7688dp-1));
      (0x1.ebf21e89d3b49p-1, 0x1.7d427262c0ff1p-1);
      (0x1.2503888a9783fp+1, 0x1.f596a77d9f155p-1);
      (0x1.7c1aa06269610p+0, 0x1.ce021f25b9c4ep-1);
      ((-0x1.8c1c1506ee284p+1), (-0x1.fde75421bab5bp-1));
      (0x1.fed097161dc88p+0, 0x1.ed69f5723e925p-1);
      (0x1.08e62174ac82ap+0, 0x1.8d37194cb4ed3p-1);
      (0x1.5b17945eedeb6p-2, 0x1.4e621692e8760p-2);
      ((-0x1.365c0a0915dccp-1), (-0x1.1535cdef89ed4p-1));
      ((-0x1.15aeb19f9a8fcp+1), (-0x1.f2ce7d906f720p-1));
      (0x1.f9e6851bfd888p-3, 0x1.efdb08bd02e88p-3);
      ((-0x1.26a8fe544a334p+1), (-0x1.f5d9ac0b172c3p-1));
      ((-0x1.e5728ee58c180p-1), (-0x1.7a564cbda244dp-1));
      (0x1.124256c4e38dbp+0, 0x1.94759c6b4b3acp-1);
      (0x1.2f089680729a4p+0, 0x1.a84135bc9211bp-1);
      (0x1.325d0d4a68560p-2, 0x1.2989d5010cc32p-2);
      ((-0x1.77d1256920dfap+1), (-0x1.fd1fa82e28d85p-1));
      (0x1.d62e0313b7305p+0, 0x1.e6a434f7a15b8p-1);
      (0x1.19eec272772a2p+1, 0x1.f3a4e32d99162p-1);
      (0x1.554e4c47dd3abp-1, 0x1.2a5de152a68efp-1);
      ((-0x1.c12106789c7e0p+0), (-0x1.e23d7dc5e618bp-1));
      ((-0x1.35847f5149212p+1), (-0x1.f7efbb1865adbp-1));
      (0x1.824c4989cbaa7p+0, 0x1.d0427ccdb41b0p-1);
      ((-0x1.e1c0bcb56bee0p+0), (-0x1.e8c8afe78eb39p-1));
      (0x1.4b92117af0c10p-4, 0x1.4ad9254c854c0p-4);
      (0x1.6f696fdc73600p-1, 0x1.3b187fdca6ee7p-1);
      (0x1.69b20152a08f8p+1, 0x1.fc6a7fc5b3b3ep-1);
      (0x1.c08f1cb8df978p-3, 0x1.b9857c1433242p-3);
      ((-0x1.1ec59564d017ap+1), (-0x1.f488a88ef1110p-1));
      (0x1.7186ce98b7726p+1, 0x1.fcd3d7e066338p-1);
      (0x1.249ccae06667bp+1, 0x1.f5860f35cc365p-1);
      ((-0x1.4f1e5eebfeea2p-2), (-0x1.43a55c12d1938p-2));
      ((-0x1.c855cbfef555ap+0), (-0x1.e3d31293e0a85p-1));
      ((-0x1.b3438934925f9p+0), (-0x1.def2056451c2dp-1));
      (0x1.e54478fe533c5p+0, 0x1.e9661aae9a27ap-1);
      ((-0x1.82ae2d8bf24fep+1), (-0x1.fd9256ee10b87p-1));
      ((-0x1.b5f0a40e360dcp-1), (-0x1.6340f3e0fa372p-1));
      (0x1.63f3ee186a660p+0, 0x1.c43bae94fa6abp-1);
      (0x1.8fde312644623p+1, 0x1.fe05e074c3211p-1);
      (0x1.26fb54e396443p-1, 0x1.0a29fa3cd94bcp-1);
      ((-0x1.b78c387bfb1f0p+1), (-0x1.feef7d6850037p-1));
      (0x1.5261d3ecff500p+1, 0x1.fad952580dfb7p-1);
      (0x1.ece352ac1573ap+0, 0x1.eaad8d5ef82b0p-1);
      (0x1.32b47a35df3afp-1, 0x1.129df0e79708bp-1);
      ((-0x1.6d365977461e1p+0), (-0x1.c82d34c3ef129p-1));
      ((-0x1.3b5397940153ep+1), (-0x1.f8a18dcdfb9b8p-1));
      (0x1.dc1c6cfd26837p-1, 0x1.760a8f116ccc6p-1);
      ((-0x1.9eac171096224p+1), (-0x1.fe6e3cb78db1fp-1));
      ((-0x1.a8a388fd30ef4p+0), (-0x1.dc2f400060ed6p-1));
      (0x1.e794e9ce5be30p+0, 0x1.e9cb863f7861ap-1);
      (0x1.166373089fa6cp+1, 0x1.f2f3135979df3p-1);
      ((-0x1.f2799c667cbb0p-4), (-0x1.f007566488c78p-4));
      ((-0x1.b89b3afb42399p+1), (-0x1.fef3f4b28b01fp-1));
      (0x1.4f0de30b95608p+1, 0x1.fa934fb58f4adp-1);
      (0x1.4f8b9091b574fp+1, 0x1.fa9dddfc53f82p-1);
      (0x1.63562ea3c8ee2p+0, 0x1.c3f62d27ef49dp-1);
      ((-0x1.0f2d2fb6e32fcp+1), (-0x1.f16a3dbf93063p-1));
      ((-0x1.95d46e24eba10p+1), (-0x1.fe32d0d2d8b29p-1));
      (0x1.d17488e8ad2b5p+0, 0x1.e5b661c55dbcap-1);
      ((-0x1.436ff617ce516p+1), (-0x1.f980ac2baa5b5p-1));
      ((-0x1.c60618e08aa3cp-1), (-0x1.6b69e75ec300cp-1));
      (0x1.91999359c1d90p+0, 0x1.d56a4d4a48344p-1);
      (0x1.8bb5e254969d6p+1, 0x1.fde3fa3e65434p-1);
      ((-0x1.3e07e30690362p-1), (-0x1.1a96b1599c6c4p-1));
      ((-0x1.7430163cb8edep+1), (-0x1.fcf4d2d4fea45p-1));
      (0x1.a7cffe5786bbcp+1, 0x1.fea3a2ab998b3p-1);
      (0x1.8ee7c299a50c1p+1, 0x1.fdfe38bf9a5f8p-1);
      (0x1.3cd8c565f8368p-1, 0x1.19c3a5400758bp-1);
      ((-0x1.4f1701f8d90a4p+1), (-0x1.fa94148324fb1p-1));
      ((-0x1.4367f3a98b907p+1), (-0x1.f97fdd475c636p-1));
      (0x1.4c7a15bace04ap+1, 0x1.fa5a8f862c811p-1);
      ((-0x1.acc522cc6fb4ep+1), (-0x1.febd91e677c9fp-1));
      ((-0x1.6506e5c85841cp+0), (-0x1.c4b421a79119ap-1));
      (0x1.02f08b040b0b0p+1, 0x1.ee650d46a3633p-1);
      (0x1.ec7042ee76a68p+1, 0x1.ff88ad119699cp-1);
      ((-0x1.003f663694c04p-2), (-0x1.f60f19e3373dcp-3));
      ((-0x1.e496372a6b64ap+1), (-0x1.ff791bef91087p-1)) ]
|}.

(** The same for a libm that rounds correctly: each result is the double
    nearest to the value of the function.  The two differ in the last
    place of some values of [tanh], and from there on in some
    arguments. *)
Definition rounded_values : libm_values := {|
  exp_values :=
    [ ((-0x1.0000000000000p-1), 0x1.368b2fc6f960ap-1);
      (0x1.4000000000000p+1, 0x1.85d6fd931e0bbp+3);
      ((-0x1.0000000000000p+2), 0x1.2c155b8213cf4p-6);
      (0x1.4000000000000p+2, 0x1.28d389970338fp+7);
      ((-0x1.c000000000000p+1), 0x1.eec1018e4ff66p-6) ];
  log_values :=
    [ (0x1.368b2fc6f960bp-1, (-0x1.ffffffffffffdp-2));
      (0x1.85d6fd931e0bap+3, 0x1.4000000000000p+1);
      (0x1.2c155b8213cf4p-6, (-0x1.0000000000000p+2));
      (0x1.28d3899703399p+7, 0x1.4000000000002p+2);
      (0x1.eec1018e4ff65p-6, (-0x1.c000000000000p+1));
      (0x1.68776e4b30aa2p+3, 0x1.35f90f44e9da4p+1);
      (0x1.38b72cf5054c1p-1, (-0x1.f8dd0a1695f19p-2));
      (0x1.4fd9a7f7dcf13p-1, (-0x1.afc7775687c37p-2));
      (0x1.49fda2c826df7p+4, 0x1.83639057e1c23p+1);
      (0x1.cac57e25e3f20p-4, (-0x1.18382a0ddc509p+1));
      (0x1.9a9fa869f65d0p-4, (-0x1.266951418b546p+1));
      (0x1.996b5cc96ea17p+0, 0x1.e0d503134b083p-2);
      (0x1.9a6d638faa95ep-6, (-0x1.d7eb15acb1bcep+1));
      (0x1.c19cb85971c33p+3, 0x1.524256c4e38dbp+1);
      (0x1.13854649687acp-3, (-0x1.00c32f5c804efp+1));
      (0x1.267b3b34263eap-4, (-0x1.50f7697f8d660p+1));
      (0x1.1c2f3ccbcf558p+2, 0x1.7da12e2c3b911p+0);
      (0x1.3af86d3a37576p-3, (-0x1.df4495a4837e7p+0));
      (0x1.537a345af0919p-2, (-0x1.1aa3f95128cd0p+0));
      (0x1.9fb12526aeeacp+1, 0x1.2d8bca2f76f5ap+0);
      (0x1.ba9ba12a89b31p-2, (-0x1.ad758cfcd47dcp-1));
      (0x1.31d1047b5e0c1p-3, (-0x1.e6d1795acbd4dp+0));
      (0x1.03e310a1d588bp+4, 0x1.64d1fafb7511ap+1);
      (0x1.b5384e697d9b0p-5, (-0x1.7719de8b537dap+1));
      (0x1.93cdb3e9c3839p-7, (-0x1.195ca3b963060p+2));
      (0x1.bb3a85cf183dap+2, 0x1.ef696fdc735ffp+0);
      (0x1.adb7f55a5e688p+0, 0x1.093126272ea9dp-1);
      (0x1.eb1c04fd21212p+0, 0x1.4d900a95047aep-1);
      (0x1.9dc5085c3c56cp+1, 0x1.2c5c06276e60ap+0);
      (0x1.3c8f8b8ae19edp-1, (-0x1.ec59564d0179ep-2));
      (0x1.895298d9adc92p-1, (-0x1.0e05e5ab5f6f9p-2));
      (0x1.9042051c7dceap+2, 0x1.d54e4c47dd3aap+0);
      (0x1.0d25c708b8ff9p-2, (-0x1.5611fd4524848p+0));
      (0x1.048423702851dp-3, (-0x1.07ee1c68e40d1p+1));
      (0x1.a25dbe63e9234p+0, 0x1.f6f7cc3b1c10ep-2);
      (0x1.1a74b460dc848p-1, (-0x1.3089ec6c46b03p-1));
      (0x1.8b4eea13588f6p-4, (-0x1.2b46dee850f3fp+1));
      (0x1.a9966116f9e5dp+4, 0x1.a3f3ee186a660p+1);
      (0x1.d188604aeff13p+1, 0x1.4a88f1fca678cp+0);
      (0x1.bdd7cc5aa4cf6p+1, 0x1.3f78c49911886p+0);
      (0x1.a69b49390565cp+4, 0x1.a30d9d316ee49p+1);
      (0x1.d170411fe5f1dp-5, (-0x1.6f1870f7f63e1p+1));
      (0x1.426e02232c580p-4, (-0x1.455c5b17e49fbp+1));
      (0x1.b6b0fad692020p-1, (-0x1.3c797baffba8ep-3));
      (0x1.1ac861da11551p+0, 0x1.978ed96db40e8p-4);
      (0x1.0a10e4091c437p-2, (-0x1.5904ab1c69bbbp+0));
      (0x1.8b76b874c668bp+0, 0x1.bd51a00855533p-2);
      (0x1.4dc031a265ce1p-1, (-0x1.b63351f999871p-2));
      (0x1.e624d37150710p-7, (-0x1.0d7c29038d837p+2));
      (0x1.298889eb03f7bp+6, 0x1.13ca74e72df18p+2);
      (0x1.0dec0e3057455p-1, (-0x1.47c72605b2f92p-1));
      (0x1.0b3d431d6b006p-1, (-0x1.4ce467bb02caep-1));
      (0x1.03c5fca366fd7p+4, 0x1.64c3a7d9fe9ffp+1);
      (0x1.c9cd8da9ecf83p-5, (-0x1.713675f684732p+1));
      (0x1.a067d5d717714p-5, (-0x1.7d582e212c447p+1));
      (0x1.5da7e74481ecbp+2, 0x1.b2b47a35df3aep+0);
      (0x1.eb96a627c4859p-3, (-0x1.6d4e5e50054f8p+0));
      (0x1.07955f49989dap-4, (-0x1.5f2799c667cbbp+1));
      (0x1.92f2db1fc42f5p+1, 0x1.25934d1173c3fp+0);
      (0x1.4475806957b2cp-2, (-0x1.26395aa7d5194p+0));
      (0x1.85f27c6df3dbbp-9, (-0x1.7451c47e9877ap+2));
      (0x1.2ff93cad72fd4p+5, 0x1.d1999359c1d90p+1);
      (0x1.8ec694ceac8aep+1, 0x1.22e911d15a56bp+0);
      (0x1.a1cd3330a55c7p+1, 0x1.2ed789525a753p+0);
      (0x1.ed38b8601da10p+3, 0x1.5e1bc6172ac11p+1);
      (0x1.4d58d5277a2bep-3, (-0x1.d0c058f2e3b74p+0));
      (0x1.b11324a78c838p-3, (-0x1.8dbfd85f39454p+0));
      (0x1.a78b24bf4187fp+4, 0x1.a3562ea3c8edep+1);
      (0x1.de19eec3f7aa4p-5, (-0x1.6ba8dc49d741ep+1));
      (0x1.844a4290b747cp-6, (-0x1.df03f183481b1p+1));
      (0x1.93e8eace0dae4p-1, (-0x1.e5a5f6dc65f85p-3));
      (0x1.4661fc79e27c8p+0, 0x1.f1721236ae9a5p-3);
      (0x1.c88a56f9ab39dp-7, (-0x1.1181863822a8fp+2));
      (0x1.78fe24851a7eap+6, 0x1.22f08b040b0b0p+2);
      (0x1.d9c0ec779b1fep+3, 0x1.58f42b759c08fp+1);
      (0x1.d9783a81149cfp+3, 0x1.58e085dced4c9p+1);
      (0x1.ed7e8f4d7812fp+5, 0x1.07cffe5786bbcp+2);
      (0x1.cc8957b0f0a5fp-6, (-0x1.c92c6e54d6c95p+1));
      (0x1.4e1488e24902bp-5, (-0x1.998a4598df69cp+1));
      (0x1.6bc936761e231p+2, 0x1.bcd8c565f8367p+0);
      (0x1.b1495ae3305eep-3, (-0x1.8d9fcea62e41fp+0));
      (0x1.97a88f0d10f83p-5, (-0x1.800fd98da52fep+1));
      (0x1.299532cb86d3ap-2, (-0x1.3c5c07e364292p+0));
      (0x1.b72fed5bf4141p+1, 0x1.3b9f0a66942fep+0);
      (0x1.4aa837cdba81bp-8, (-0x1.528372e42c20ep+2));
      (0x1.2f8b172bb51dfp+8, 0x1.6dcb269cd258ep+2);
      (0x1.b693a80eaed9bp+1, 0x1.3b43e34ae42dfp+0);
      (0x1.b772f1802d3d7p+1, 0x1.3bc617a63c928p+0);
      (0x1.558f1b271e15dp+6, 0x1.1c9f5a31b1499p+2);
      (0x1.87038610e3250p-7, (-0x1.1b6bf83c8173cp+2));
      (0x1.6415a893143fbp-7, (-0x1.216917c1cbae7p+2));
      (0x1.fe6d4686f3dc7p+3, 0x1.627f59e3e0699p+1);
      (0x1.4311e1864b8d1p-4, (-0x1.451b5d8042f2ap+1));
      (0x1.32c82ea97c407p-6, (-0x1.fd2c96d515b5cp+1));
      (0x1.368a7bdf404a9p-1, (-0x1.0001289d62c0cp-1));
      (0x1.a60cdbf6c06a9p+0, 0x1.fff2142109409p-2);
      (0x1.fcad56ad57c3ap-11, (-0x1.bc07e9cd7a13dp+2)) ];
  tanh_values :=
    [ (0x1.4000000000000p+0, 0x1.b2523bb6b2deep-1);
      (0x1.4000000000002p+1, 0x1.f9258260a71c2p-1);
      ((-0x1.ffffffffffffdp-3), (-0x1.f597ea69a1c83p-3));
      ((-0x1.0000000000000p+1), (-0x1.ed9505e1bc3d4p-1));
      ((-0x1.c000000000000p+0), (-0x1.e1fbf97e33527p-1));
      (0x1.61b1c82bf0e12p+1, 0x1.fbf0ce3296150p-1);
      (0x1.5996aebe74abep+0, 0x1.bf82890972585p-1);
      ((-0x1.58382a0ddc509p+0), (-0x1.bedc47d095258p-1));
      ((-0x1.940de1762c4b8p-1), (-0x1.50dd351fdc916p-1));
      ((-0x1.f5f8eeead0f87p+0), (-0x1.ec1c41fbc20b0p-1));
      (0x1.00e45ebd2d41dp+0, 0x1.86aefad8279e9p-1);
      ((-0x1.7334a8a0c5aa3p+1), (-0x1.fce8cf7d1c9d2p-1));
      ((-0x1.2fd62b596379cp-1), (-0x1.10914f6c7688dp-1));
      (0x1.ebf21e89d3b49p-1, 0x1.7d427262c0ff0p-1);
      (0x1.2503888a9783fp+1, 0x1.f596a77d9f155p-1);
      (0x1.7c1aa06269610p+0, 0x1.ce021f25b9c4ep-1);
      ((-0x1.8c1c1506ee284p+1), (-0x1.fde75421bab5bp-1));
      (0x1.fed097161dc88p+0, 0x1.ed69f5723e925p-1);
      (0x1.08e62174ac82ap+0, 0x1.8d37194cb4ed3p-1);
      (0x1.5b17945eedeb6p-2, 0x1.4e621692e8760p-2);
      ((-0x1.365c0a0915dccp-1), (-0x1.1535cdef89ed4p-1));
      ((-0x1.15aeb19f9a8fcp+1), (-0x1.f2ce7d906f720p-1));
      (0x1.f9e6851bfd888p-3, 0x1.efdb08bd02e86p-3);
      ((-0x1.26a8fe544a334p+1), (-0x1.f5d9ac0b172c3p-1));
      ((-0x1.e5728ee58c180p-1), (-0x1.7a564cbda244dp-1));
      (0x1.124256c4e38dbp+0, 0x1.94759c6b4b3acp-1);
      (0x1.2f089680729a4p+0, 0x1.a84135bc9211bp-1);
      (0x1.325d0d4a68566p-2, 0x1.2989d5010cc38p-2);
      ((-0x1.77d1256920dfap+1), (-0x1.fd1fa82e28d85p-1));
      (0x1.d62e0313b7305p+0, 0x1.e6a434f7a15b8p-1);
      (0x1.19eec272772a2p+1, 0x1.f3a4e32d99162p-1);
      (0x1.554e4c47dd3abp-1, 0x1.2a5de152a68f0p-1);
      ((-0x1.c12106789c7dep+0), (-0x1.e23d7dc5e618ap-1));
      ((-0x1.35847f5149212p+1), (-0x1.f7efbb1865adbp-1));
      (0x1.824c4989cbaa7p+0, 0x1.d0427ccdb41b1p-1);
      ((-0x1.e1c0bcb56bedfp+0), (-0x1.e8c8afe78eb39p-1));
      (0x1.4b92117af0c10p-4, 0x1.4ad9254c854c1p-4);
      (0x1.6f696fdc73600p-1, 0x1.3b187fdca6ee6p-1);
      (0x1.69b20152a08f8p+1, 0x1.fc6a7fc5b3b3ep-1);
      (0x1.c08f1cb8df978p-3, 0x1.b9857c1433242p-3);
      ((-0x1.1ec59564d017ap+1), (-0x1.f488a88ef1110p-1));
      (0x1.7186ce98b7724p+1, 0x1.fcd3d7e066338p-1);
      (0x1.249ccae06667bp+1, 0x1.f5860f35cc365p-1);
      ((-0x1.4f1e5eebfeea2p-2), (-0x1.43a55c12d1938p-2));
      ((-0x1.c855cbfef555ap+0), (-0x1.e3d31293e0a85p-1));
      ((-0x1.b3438934925f9p+0), (-0x1.def2056451c2dp-1));
      (0x1.e54478fe533c6p+0, 0x1.e9661aae9a27ap-1);
      ((-0x1.82ae2d8bf24fep+1), (-0x1.fd9256ee10b87p-1));
      ((-0x1.b5f0a40e360dcp-1), (-0x1.6340f3e0fa372p-1));
      (0x1.63f3ee186a660p+0, 0x1.c43bae94fa6abp-1);
      (0x1.8fde312644624p+1, 0x1.fe05e074c3211p-1);
      (0x1.26fb54e396445p-1, 0x1.0a29fa3cd94bdp-1);
      ((-0x1.b78c387bfb1f0p+1), (-0x1.feef7d6850037p-1));
      (0x1.5261d3ecff500p+1, 0x1.fad952580dfb7p-1);
      (0x1.ece352ac1573ap+0, 0x1.eaad8d5ef82b0p-1);
      (0x1.32b47a35df3afp-1, 0x1.129df0e79708cp-1);
      ((-0x1.6d365977461e0p+0), (-0x1.c82d34c3ef129p-1));
      ((-0x1.3b5397940153ep+1), (-0x1.f8a18dcdfb9b8p-1));
      (0x1.dc1c6cfd26837p-1, 0x1.760a8f116ccc5p-1);
      ((-0x1.9eac171096224p+1), (-0x1.fe6e3cb78db1fp-1));
      ((-0x1.a8a388fd30ef4p+0), (-0x1.dc2f400060ed5p-1));
      (0x1.e794e9ce5be30p+0, 0x1.e9cb863f7861ap-1);
      (0x1.166373089fa6cp+1, 0x1.f2f3135979df3p-1);
      ((-0x1.f2799c667cbb0p-4), (-0x1.f007566488c78p-4));
      ((-0x1.b89b3afb42399p+1), (-0x1.fef3f4b28b01fp-1));
      (0x1.4f0de30b95608p+1, 0x1.fa934fb58f4adp-1);
      (0x1.4f8b9091b574fp+1, 0x1.fa9dddfc53f82p-1);
      (0x1.63562ea3c8edep+0, 0x1.c3f62d27ef49bp-1);
      ((-0x1.0f2d2fb6e32fcp+1), (-0x1.f16a3dbf93063p-1));
      ((-0x1.95d46e24eba0fp+1), (-0x1.fe32d0d2d8b29p-1));
      (0x1.d17488e8ad2b6p+0, 0x1.e5b661c55dbcap-1);
      ((-0x1.436ff617ce515p+1), (-0x1.f980ac2baa5b4p-1));
      ((-0x1.c60618e08aa3cp-1), (-0x1.6b69e75ec300dp-1));
      (0x1.91999359c1d90p+0, 0x1.d56a4d4a48344p-1);
      (0x1.8bb5e254969d7p+1, 0x1.fde3fa3e65434p-1);
      ((-0x1.3e07e30690362p-1), (-0x1.1a96b1599c6c5p-1));
      ((-0x1.7430163cb8eddp+1), (-0x1.fcf4d2d4fea45p-1));
      (0x1.a7cffe5786bbcp+1, 0x1.fea3a2ab998b3p-1);
      (0x1.8ee7c299a50c2p+1, 0x1.fdfe38bf9a5f8p-1);
      (0x1.3cd8c565f8368p-1, 0x1.19c3a5400758bp-1);
      ((-0x1.4f1701f8d90a4p+1), (-0x1.fa94148324fb1p-1));
      ((-0x1.4367f3a98b908p+1), (-0x1.f97fdd475c636p-1));
      (0x1.4c7a15bace048p+1, 0x1.fa5a8f862c811p-1);
      ((-0x1.acc522cc6fb4ep+1), (-0x1.febd91e677c9fp-1));
      ((-0x1.6506e5c85841cp+0), (-0x1.c4b421a79119ap-1));
      (0x1.02f08b040b0b0p+1, 0x1.ee650d46a3633p-1);
      (0x1.ec7042ee76a66p+1, 0x1.ff88ad119699cp-1);
      ((-0x1.003f663694bf8p-2), (-0x1.f60f19e3373c6p-3));
      ((-0x1.e496372a6b64ap+1), (-0x1.ff791bef91087p-1)) ]
|}.

(** The priors [state_new] stores, and the channel LLRs [state_solve]
    makes of them, with either libm: [p_to_l] does not return the initial
    LLRs -0.5 and 5.0 that [l_to_p] was given. *)
Definition example_priors : list float :=
  [ 0x1.829a0565978dfp-2;
    0x1.d9291ddb596f7p-1;
    0x1.26afa1e43c2c2p-6;
    0x1.fc92c130538e1p-1;
    0x1.e040681ccad93p-6;
    0x1.d9291ddb596f7p-1 ].

Definition example_llrs : list float :=
  [ (-0x1.ffffffffffffdp-2);
    0x1.4000000000000p+1;
    (-0x1.0000000000000p+2);
    0x1.4000000000002p+2;
    (-0x1.c000000000000p+1);
    0x1.4000000000000p+1 ].

(** Codeword and syndrome of each of the eight rounds. *)
Definition expected_rounds : list (list Z * list Z) :=
  [ ([1; 0; 1; 0; 1; 1], [1; 0; 1; 0]);
    ([0; 0; 1; 1; 1; 1], [1; 0; 0; 1]);
    ([0; 0; 1; 0; 1; 1], [0; 0; 0; 0]);
    ([0; 0; 1; 0; 1; 1], [0; 0; 0; 0]);
    ([0; 0; 1; 0; 1; 1], [0; 0; 0; 0]);
    ([0; 0; 1; 0; 1; 1], [0; 0; 0; 0]);
    ([0; 0; 1; 0; 1; 1], [0; 0; 0; 0]);
    ([0; 0; 1; 0; 1; 1], [0; 0; 0; 0]) ]%Z.

(** The libm the instances of the theorems are run with. *)
Definition glibc_libm : Libm float := libm_of glibc_values.

Lemma tabled_eq t f x : returns f t → tabled t f x = f x.
Proof.
  unfold tabled. induction 1 as [|[a b] t Hab _ IH]; simpl; [done|].
  destruct (float_same a x) eqn:Hax; [|exact IH].
  apply float_same_eq in Hax. subst a. simpl in Hab. by rewrite Hab.
Qed.

(** A libm that returns the values of a table is the libm read from the
    table. *)
Lemma libm_tabled_eq T (libm : Libm float) :
  libm_returns libm T → libm_tabled T libm = libm.
Proof.
  intros (He & Hl & Ht). destruct libm as [e l t]. unfold libm_tabled.
  simpl in *. f_equal; apply functional_extensionality; intros x;
    by apply tabled_eq.
Qed.

Lemma returns_check (f : float → float) (t : list (float * float)) :
  forallb (λ p, float_same (f p.1) p.2) t = true → returns f t.
Proof.
  intros H. apply Forall_forall. intros p Hp.
  rewrite forallb_forall in H. apply float_same_eq, H.
  by apply list_elem_of_In.
Qed.

Lemma libm_of_glibc : libm_returns (libm_of glibc_values) glibc_values.
Proof. repeat split; apply returns_check; vm_compute; reflexivity. Qed.

Lemma libm_of_rounded : libm_returns (libm_of rounded_values) rounded_values.
Proof. repeat split; apply returns_check; vm_compute; reflexivity. Qed.

(** The run, evaluated: at every call the argument is one of the
    table. *)
Lemma example_run_glibc (libm : Libm float) (indet : float) (indet8 : Z) :
  let s := state_new (Libm0 := libm_tabled glibc_values libm)
             indet indet8 N_ITERATIONS in
  channel s = example_priors ∧
  channel_llr (state_solve (Libm0 := libm_tabled glibc_values libm) s)
  = example_llrs ∧
  (λ it, (codeword it, parity it))
    <$> history (Libm0 := libm_tabled glibc_values libm) s = expected_rounds.
Proof. vm_compute. repeat split. Qed.

Lemma example_run_rounded (libm : Libm float) (indet : float) (indet8 : Z) :
  let s := state_new (Libm0 := libm_tabled rounded_values libm)
             indet indet8 N_ITERATIONS in
  channel s = example_priors ∧
  channel_llr (state_solve (Libm0 := libm_tabled rounded_values libm) s)
  = example_llrs ∧
  (λ it, (codeword it, parity it))
    <$> history (Libm0 := libm_tabled rounded_values libm) s = expected_rounds.
Proof. vm_compute. repeat split. Qed.

(** C5. On binary64, with the matrix of the source and the priors
    [l_to_p] makes of the initial LLRs -0.5, 2.5, -4.0, 5.0, -3.5, 2.5,
    for every libm that returns, at the arguments the run presents, the
    doubles the GNU C library returns there, or the correctly rounded
    ones: [state_new] stores the six priors listed, [state_solve] makes
    the six channel LLRs listed of them (not quite the initial ones), and
    its eight rounds end on a snapshot whose syndrome is all zero: the
    codeword is 0 0 1 0 1 1, reached in the third round and kept since,
    and the display finds it valid.  What [malloc] left in the arrays
    plays no part. *)
Theorem example_converges (libm : Libm float) (indet : float) (indet8 : Z) :
  libm_returns libm glibc_values ∨ libm_returns libm rounded_values →
  let s := state_new indet indet8 N_ITERATIONS in
  channel s = example_priors ∧
  channel_llr (state_solve s) = example_llrs ∧
  (λ it, (codeword it, parity it)) <$> history s = expected_rounds ∧
  ∃ it, last (history s) = Some it ∧
        first_iteration (main_state indet indet8) !! 7%nat = Some it ∧
        parity it = [0; 0; 0; 0]%Z ∧ codeword it = [0; 0; 1; 0; 1; 1]%Z ∧
        display_valid s it = 1%Z.
Proof.
  intros Hlibm s.
  assert (Hrun : channel s = example_priors ∧
                 channel_llr (state_solve s) = example_llrs ∧
                 (λ it, (codeword it, parity it)) <$> history s = expected_rounds).
  { subst s. destruct Hlibm as [H|H]; rewrite <- (libm_tabled_eq _ libm H).
    - apply example_run_glibc.
    - apply example_run_rounded. }
  destruct Hrun as (Hch & Hllr & Hrounds).
  split; [exact Hch|]. split; [exact Hllr|]. split; [exact Hrounds|].
  change (first_iteration (main_state indet indet8)) with (history s).
  destruct (state_new_spec indet indet8 N_ITERATIONS)
    as (_ & _ & Hnc & _ & _ & Hlen & _).
  fold s in Hnc, Hlen. clearbody s.
  assert (Hlen8 : length (history s) = 8%nat)
    by (rewrite history_length, Hlen; reflexivity).
  destruct (lookup_lt_is_Some_2 (history s) 7%nat) as [it Hit];
    [rewrite Hlen8; lia|].
  assert (Hexp : expected_rounds !! 7%nat = Some (codeword it, parity it)).
  { rewrite <- Hrounds, list_lookup_fmap, Hit. reflexivity. }
  unfold expected_rounds in Hexp. simpl in Hexp.
  assert (Hcw : codeword it = [0; 0; 1; 0; 1; 1]%Z) by congruence.
  assert (Hpar : parity it = [0; 0; 0; 0]%Z) by congruence.
  exists it. split; [|split; [|split; [|split]]]; try done.
  - rewrite last_lookup, Hlen8. exact Hit.
  - apply display_valid_spec. intros c Hc. rewrite Hpar.
    rewrite Hnc in Hc.
    do 4 (destruct c as [|c]; [reflexivity|]). lia.
Qed.

End FloatExample.

(** * Instances of the theorems

    Each theorem above that has hypotheses is applied here to the state
    [main] builds, on binary64. *)

Section Witnesses.
#[local] Existing Instance glibc_libm.

(** [state_new(N_ITERATIONS)] with fresh memory reading as zero. *)
Definition s_main : state float := state_new PrimFloat.zero 0%Z N_ITERATIONS.

Lemma s_main_wf : wf_state s_main.
Proof. apply (state_new_spec PrimFloat.zero 0%Z N_ITERATIONS). Qed.

Lemma s_main_round (r : nat) : (r < 8)%nat → is_Some (history s_main !! r).
Proof.
  intros Hr. apply lookup_lt_is_Some_2. rewrite history_length. unfold s_main.
  destruct (state_new_spec PrimFloat.zero 0%Z N_ITERATIONS) as (_ & _ & _ & _ & _ & -> & _).
  exact Hr.
Qed.

Lemma check_message_rule_witness :
  ∃ it it', history s_main !! 1%nat = Some it ∧ history s_main !! 0%nat = Some it' ∧
    get2 (message_v_to_c it) 0 1 = check_rule s_main (get2 (message_c_to_v it)) 0 1 ∧
    ∀ v', (v' < n_v s_main)%nat →
      get2 (message_c_to_v it) 0 v'
      = variable_rule s_main (get2 (message_v_to_c it')) 0 v'.
Proof.
  destruct (s_main_round 1) as [it Hit]; [lia|].
  destruct (check_message_rule s_main 1 it 0 1 s_main_wf Hit)
    as (H1 & it' & Hit' & H2).
  - simpl. lia.
  - simpl. lia.
  - reflexivity.
  - exists it, it'. repeat split; assumption.
Defined.

Lemma variable_message_rule_witness :
  ∃ it it', history s_main !! 0%nat = Some it ∧ history s_main !! 1%nat = Some it' ∧
    get2 (message_c_to_v it') 0 1
    = variable_rule s_main (get2 (message_v_to_c it)) 0 1.
Proof.
  destruct (s_main_round 0) as [it Hit]; [lia|].
  destruct (s_main_round 1) as [it' Hit']; [lia|].
  destruct (variable_message_rule s_main 0 it it' 0 1 s_main_wf Hit Hit')
    as (H & _).
  - simpl. lia.
  - simpl. lia.
  - reflexivity.
  - exists it, it'. repeat split; assumption.
Defined.

Lemma belief_and_codeword_witness :
  ∃ it, history s_main !! 7%nat = Some it ∧
    get (l it) 2 = belief_rule s_main (get2 (message_v_to_c it)) 2 ∧
    get8 (codeword it) 2 = (if dlt (get (l it) 2) (dconst 0) then 1%Z else 0%Z).
Proof.
  destruct (s_main_round 7) as [it Hit]; [lia|].
  destruct (belief_and_codeword s_main 7 it 2 s_main_wf Hit) as (H1 & H2 & _).
  - simpl. lia.
  - exists it. repeat split; assumption.
Defined.


(** The same state on memory that reads as one instead of zero. *)
Definition s_other : state float := state_new PrimFloat.one 1%Z N_ITERATIONS.

Lemma decode_deterministic_witness :
  history s_main = history s_other ∧
  channel_llr (state_solve s_main) = channel_llr (state_solve s_other).
Proof.
  destruct (state_new_spec PrimFloat.zero 0%Z N_ITERATIONS)
    as (Hs & Hnv & Hnc & Hm & Hch & Hlen & _).
  destruct (state_new_spec PrimFloat.one 1%Z N_ITERATIONS)
    as (Hs' & Hnv' & Hnc' & Hm' & Hch' & Hlen' & _).
  destruct (decode_deterministic s_main s_other Hs Hs') as (H1 & H2 & _).
  - unfold s_main, s_other. by rewrite Hnv, Hnv'.
  - unfold s_main, s_other. by rewrite Hnc, Hnc'.
  - unfold s_main, s_other. by rewrite Hm, Hm'.
  - unfold s_main, s_other. by rewrite Hch, Hch'.
  - unfold s_main, s_other. by rewrite Hlen, Hlen'.
  - split; assumption.
Defined.

Lemma example_converges_witness :
  libm_returns glibc_libm glibc_values ∧
  ∃ it, last (history s_main) = Some it ∧ parity it = [0; 0; 0; 0]%Z ∧
        display_valid s_main it = 1%Z.
Proof.
  split; [exact libm_of_glibc|].
  destruct (example_converges glibc_libm PrimFloat.zero 0%Z (or_introl libm_of_glibc))
    as (_ & _ & _ & it & H1 & _ & H2 & _ & H3).
  exists it. split; [exact H1|]. split; [exact H2|exact H3].
Defined.

Lemma decode_fills_every_round_witness :
  length (history s_main) = 8%nat ∧
  ∃ it, history s_main !! 7%nat = Some it ∧ round_filled s_main it.
Proof.
  destruct decode_fills_every_round as [Hnew Hall].
  destruct (Hnew PrimFloat.zero 0%Z N_ITERATIONS) as [Hwf Hlen].
  destruct (Hall s_main Hwf) as (_ & Hlen' & Hround & _).
  destruct (Hround 7%nat) as (it & Hit & Hfill & _).
  - rewrite <- Hlen'. unfold s_main. rewrite Hlen.
    change (Z.to_nat N_ITERATIONS) with 8%nat. lia.
  - split; [exact Hlen|]. exists it. split; [exact Hit|exact Hfill].
Defined.


(** An iteration record of zeros, and the same with the slot (0, 2) of
    both message arrays changed: the matrix has a 0 there. *)
Definition blank : iteration float :=
  {| message_v_to_c := replicate 4 (replicate 6 PrimFloat.zero);
     l := replicate 6 PrimFloat.zero;
     message_c_to_v := replicate 4 (replicate 6 PrimFloat.zero);
     codeword := replicate 6 0%Z;
     parity := replicate 4 0%Z |}.

Definition blank' : iteration float :=
  {| message_v_to_c := set2 (message_v_to_c blank) 0 2 PrimFloat.one;
     l := l blank;
     message_c_to_v := set2 (message_c_to_v blank) 0 2 PrimFloat.one;
     codeword := codeword blank;
     parity := parity blank |}.

Lemma blank_wf : wf_iteration 4 6 blank.
Proof. split; try reflexivity; apply shaped_replicate. Qed.

Lemma blank'_wf : wf_iteration 4 6 blank'.
Proof.
  split; try reflexivity; (split; [reflexivity|]); simpl;
    repeat constructor.
Qed.

Lemma blank_edges :
  edge_agree s_main (replicate 4 (replicate 6 PrimFloat.zero)) (set2 (replicate 4 (replicate 6 PrimFloat.zero)) 0 2 PrimFloat.one).
Proof.
  intros c v Hc Hv Hm.
  destruct (state_new_spec PrimFloat.zero 0%Z N_ITERATIONS)
    as (_ & Hnv & Hnc & Hmat & _).
  unfold s_main in *. rewrite Hmat in Hm. rewrite Hnc in Hc. rewrite Hnv in Hv.
  do 4 (destruct c as [|c];
        [do 6 (destruct v as [|v]; [try reflexivity; by destruct Hm|]); lia|]).
  lia.
Qed.

Lemma non_edge_slots_never_read_witness :
  Forall2 (same_result s_main)
    (solve_loop s_main blank [blank]) (solve_loop s_main blank' [blank]) ∧
  Forall2 (same_result s_main)
    (after_v_to_c s_main blank [blank]) (after_v_to_c s_main blank' [blank]).
Proof.
  destruct (non_edge_slots_never_read s_main blank blank' [blank] [blank])
    as (H1 & H2 & _).
  - exact blank_wf.
  - exact blank'_wf.
  - repeat constructor; exact blank_wf.
  - repeat constructor; exact blank_wf.
  - reflexivity.
  - exact blank_edges.
  - split; [exact H1|]. apply H2. exact blank_edges.
Defined.

End Witnesses.

(** * The screen and the key loop

    [state_display], [welcome_screen] and [main] talk to the terminal
    through ncurses.  What they send is modelled as the list of the calls
    made, in order, and what [getch()] returns as a list of keys given in
    advance. *)

Section Screen.
Context {D : Type} `{!Double D} `{!Libm D}.

(** An argument of [printw] after the format. *)
Inductive arg :=
  | ArgD (x : D)
  | ArgI (n : Z)
  | ArgC (c : ascii)
  | ArgS (str : string).

(** The calls: [move(y, x)], [attron(COLOR_PAIR(pair))], [printw],
    [clear()], [refresh()], and those of [main]: [initscr()], [endwin()],
    [start_color()], [init_pair(pair, fg, bg)], [keypad(stdscr, TRUE)] and
    [fprintf(stderr, ...)]. *)
Inductive op :=
  | Move (y x : Z)
  | Attron (pair : Z)
  | Printw (fmt : string) (args : list arg)
  | Clear
  | Refresh
  | Initscr
  | Endwin
  | StartColor
  | InitPair (pair fg bg : Z)
  | Keypad
  | Stderr (msg : string).

(** ** [state_display] *)

(** [for (i < n) { move(line, i*8); printw(fmt, a[i]); }], the loop that
    prints [channel], [channel_llr] and [l]. *)
Definition print_row (line : Z) (fmt : string) (n : nat) (a : list D)
    (o : list op) : list op :=
  for_range n (λ i o,
    o ++ [Move line (Z.of_nat i * 8); Printw fmt [ArgD (get a i)]]) o.

(** The double loop that prints a message array: only the slots whose
    matrix entry is not 0. *)
Definition print_edges (s : state D) (line : Z) (A : list (list D))
    (o : list op) : list op :=
  for_range (n_c s) (λ i o,
    for_range (n_v s) (λ j o,
      if negb (mat (matrix s) i j =? 0)%Z
      then o ++ [Move (line + Z.of_nat i) (Z.of_nat j * 8);
                 Printw "%7.4f " [ArgD (get2 A i j)]]
      else o) o) o.

(** [(x) ? '1' : '0'] *)
Definition bit_char (x : Z) : ascii :=
  if negb (x =? 0)%Z then "1"%char else "0"%char.

(** The loop that prints the codeword. *)
Definition print_codeword (s : state D) (line : Z) (current : iteration D)
    (o : list op) : list op :=
  for_range (n_v s) (λ i o,
    o ++ [Move line (Z.of_nat i * 2);
          Printw "%c" [ArgC (bit_char (get8 (codeword current) i))]]) o.

(** The loop that prints the parity and clears [valid] on an entry that
    is not 0; the loop state is the output and [valid]. *)
Definition print_parity (s : state D) (line : Z) (current : iteration D)
    (o : list op) : list op * Z :=
  for_range (n_c s) (λ i ov,
    (ov.1 ++ [Move line (Z.of_nat i * 2);
              Printw "%c" [ArgC (bit_char (get8 (parity current) i))]],
     if negb (get8 (parity current) i =? 0)%Z then 0%Z else ov.2)) (o, 1%Z).

(** [current] after the walk
    [for (i < s->page) if (current != NULL) current = current->next]: the
    list from the record [current] points to, [[]] for [NULL]. *)
Definition display_current (s : state D) : list (iteration D) :=
  for_range (Z.to_nat (page s)) (λ _ current,
    match current with
    | [] => []
    | _ :: next => next
    end) (first_iteration s).

(** The block [if (current != NULL) { ... }], from line 4 on. *)
Definition display_iteration (s : state D) (line : Z) (current : iteration D)
    (o : list op) : list op :=
  let line := (line + 1)%Z in
  let o := o ++ [Move line 0; Attron 3;
                 Printw "Iteraton %d of %d:" [ArgI (page s + 1); ArgI (iterations s)]] in
  let line := (line + 1)%Z in
  let o := o ++ [Move line 0; Attron 1; Printw "Check-to-value messages:" [];
                 Attron 2] in
  let line := (line + 1)%Z in
  let o := print_edges s line (message_c_to_v current) o in
  let line := (line + Z.of_nat (n_c s))%Z in
  let line := (line + 1)%Z in
  let o := o ++ [Move line 0; Attron 1; Printw "Value-to-check messages:" [];
                 Attron 2] in
  let line := (line + 1)%Z in
  let o := print_edges s line (message_v_to_c current) o in
  let line := (line + Z.of_nat (n_c s))%Z in
  let o := o ++ [Move line 0; Attron 1; Printw "L:" []; Attron 2] in
  let line := (line + 1)%Z in
  let o := print_row line "%7.4f " (n_v s) (l current) o in
  let line := (line + 1)%Z in
  let o := o ++ [Move line 0; Attron 1; Printw "Codeword:" []; Attron 2] in
  let line := (line + 1)%Z in
  let o := print_codeword s line current o in
  let line := (line + 1)%Z in
  let o := o ++ [Move line 0; Attron 1; Printw "Parity:" []; Attron 2] in
  let line := (line + 1)%Z in
  let ov := print_parity s line current o in
  let valid := ov.2 in
  let line := (line + 1)%Z in
  let line := (line + 1)%Z in
  ov.1 ++ [Move line 1;
           Attron (if negb (valid =? 0)%Z then 5 else 4);
           Printw "=== %s ===   "
             [ArgS (if negb (valid =? 0)%Z then " Valid codeword "
                    else "Invalid codeword")]].

Definition state_display (s : state D) : list op :=
  let line := 0%Z in
  let o := [Move line 0; Attron 1; Printw "Channel" []; Attron 2] in
  let line := (line + 1)%Z in
  let o := print_row line "%7.4f" (n_v s) (channel s) o in
  let line := (line + 1)%Z in
  let o := o ++ [Move line 0; Attron 1; Printw "Channel LLR" []; Attron 2] in
  let line := (line + 1)%Z in
  let o := print_row line "%7.4f " (n_v s) (channel_llr s) o in
  let line := (line + 1)%Z in
  let o :=
    match display_current s with
    | [] => o
    | current :: _ => display_iteration s line current o
    end in
  o ++ [Move 1 (cursor s * 8 + 6); Refresh].

(** ** [welcome_screen] *)

Definition welcome_msg : list string :=
  [ "ldpc_demo : A simple LDPC decoder";
    EmptyString;
    "by Mike Field <hamster@snap.net.nz>";
    EmptyString;
    "LDPC codes are hard to get started with, well it was for me.";
    EmptyString;
    "This is an implementation of the example found in 'Introducing";
    "Low-Density Parity-Check Codes' by Sarah J. Johnson";
    EmptyString;
    "Keys are:";
    "  Up/Down     - change the input probablilty for the current bit";
    "  Left/Right  - Select the prior or next bit for changin";
    "  PgUp/PgDown - View the different iterations of the LDPC decoder.";
    "  ESC or Q    - Quit";
    EmptyString;
    "Hope this comes in useful for somebody. If so, send me an email!";
    EmptyString;
    "Press enter to continue:" ]%string.

(** [welcome_screen] on the keys [getch()] has to offer: the calls made,
    and the keys left once the screen was dismissed, or [None] when there
    is no key and [getch()] is left waiting.  Whatever the key is, it is
    only waited for. *)
Definition welcome_screen (keys : list Z) : list op * option (list Z) :=
  let o :=
    for_range (length welcome_msg) (λ i o,
      o ++ [Move (Z.of_nat i) 0;
            Printw (default EmptyString (welcome_msg !! i)) []; Attron 1])
      [Clear; Attron 2] in
  match keys with
  | [] => (o, None)
  | _ :: keys' => (o ++ [Clear], Some keys')
  end.

(** ** [main] *)

Variable indet : D.
Variable indet8 : Z.

(** The keys that make [process_keys] return 0: ESC, [q] and [Q]. *)
Definition quit_key (key : Z) : bool :=
  (key =? 27)%Z || (key =? 113)%Z || (key =? 81)%Z.

(** [do { state_display(s); } while (process_keys(s));] on the keys
    [getch()] returns: the states handed to [state_display], in order,
    and the state the loop ended on, or [None] when the keys ran out
    first and [getch()] is left waiting. *)
Fixpoint main_loop (keys : list Z) (s : state D) : list (state D) * option (state D) :=
  match keys with
  | [] => ([s], None)
  | key :: keys' =>
      let r := process_keys key s in
      if (r.1 =? 0)%Z then ([s], Some r.2)
      else let t := main_loop keys' r.2 in (s :: t.1, t.2)
  end.

(** How a run of [main] on the given keys ends. *)
Inductive status :=
  | Returned (code : Z)
  | Waiting.

Definition newline : string := String "010"%char EmptyString.

(** The colours of [ncurses.h] that [main] names. *)
Definition COLOR_BLACK : Z := 0.
Definition COLOR_RED : Z := 1.
Definition COLOR_GREEN : Z := 2.
Definition COLOR_WHITE : Z := 7.

(** [main]: the calls made on the terminal and the way the run ends.
    [state_delete] and [endwin()] follow the loop; running off the end of
    [main] returns 0. *)
Definition main (has_colors : bool) (keys : list Z) : list op * status :=
  if negb has_colors then
    ([Initscr; Endwin; Stderr ("Console does not support color" ++ newline)],
     Returned 0)
  else
    let o := [Initscr; StartColor;
              InitPair 1 COLOR_GREEN COLOR_BLACK;
              InitPair 2 COLOR_WHITE COLOR_BLACK;
              InitPair 3 COLOR_RED COLOR_BLACK;
              InitPair 4 COLOR_WHITE COLOR_RED;
              InitPair 5 COLOR_WHITE COLOR_GREEN;
              Keypad] in
    let w := welcome_screen keys in
    let o := o ++ w.1 in
    match w.2 with
    | None => (o, Waiting)
    | Some keys' =>
        let s := state_solve (state_new indet indet8 N_ITERATIONS) in
        let t := main_loop keys' s in
        let o := o ++ concat (state_display <$> t.1) in
        match t.2 with
        | None => (o, Waiting)
        | Some _ => (o ++ [Endwin], Returned 0)
        end
    end.

End Screen.

Arguments arg D : clear implicits.
Arguments op D : clear implicits.

(** ** Facts about the keys *)

Section KeyFacts.
Context {D : Type} `{!Double D} `{!Libm D}.
Implicit Types (s : state D) (it cur : iteration D).

(** Two states with the same nine fields. *)
Lemma state_eq s s' :
  cursor s = cursor s' → page s = page s' → iterations s = iterations s' →
  n_v s = n_v s' → n_c s = n_c s' → channel s = channel s' →
  channel_llr s = channel_llr s' → matrix s = matrix s' →
  first_iteration s = first_iteration s' → s = s'.
Proof. destruct s, s'. simpl. intros. subst. reflexivity. Qed.

(** The cursor stands on a variable and the page on an iteration (on
    page 0 when there is none). *)
Definition position_ok s : Prop :=
  (0 ≤ cursor s < Z.of_nat (n_v s))%Z ∧
  (0 ≤ page s ≤ Z.max 0 (iterations s - 1))%Z.

Lemma process_keys_fields key s :
  let s' := (process_keys key s).2 in
  n_v s' = n_v s ∧ n_c s' = n_c s ∧ iterations s' = iterations s ∧
  matrix s' = matrix s ∧ length (channel s') = length (channel s) ∧
  length (first_iteration s') = length (first_iteration s).
Proof.
  pose proof (state_solve_fields (key_up_channel s)) as (_ & _ & U3 & U4 & U5 & U6 & U7).
  pose proof (state_solve_fields (key_down_channel s)) as (_ & _ & D3 & D4 & D5 & D6 & D7).
  pose proof (history_length (key_up_channel s)) as HU.
  pose proof (history_length (key_down_channel s)) as HD.
  unfold history in HU, HD.
  assert (KU : n_v (key_up_channel s) = n_v s ∧ n_c (key_up_channel s) = n_c s ∧
               iterations (key_up_channel s) = iterations s ∧
               matrix (key_up_channel s) = matrix s ∧
               length (channel (key_up_channel s)) = length (channel s) ∧
               first_iteration (key_up_channel s) = first_iteration s).
  { unfold key_up_channel. destruct (dlt _ _); simpl;
      rewrite !length_insert; done. }
  assert (KD : n_v (key_down_channel s) = n_v s ∧ n_c (key_down_channel s) = n_c s ∧
               iterations (key_down_channel s) = iterations s ∧
               matrix (key_down_channel s) = matrix s ∧
               length (channel (key_down_channel s)) = length (channel s) ∧
               first_iteration (key_down_channel s) = first_iteration s).
  { unfold key_down_channel. destruct (dlt _ _); simpl;
      rewrite !length_insert; done. }
  destruct KU as (K1 & K2 & K3 & K4 & K5 & K6).
  destruct KD as (L1 & L2 & L3 & L4 & L5 & L6).
  key_cases ltac:(done).
  - rewrite U3, U4, U5, U6, U7, HU, K6. done.
  - rewrite D3, D4, D5, D6, D7, HD, L6. done.
Qed.

(** What a key leaves behind, case by case. *)
Lemma process_keys_cases key s :
  let s' := (process_keys key s).2 in
  s' = s ∨
  s' = set_page s (if (page s >? 0)%Z then page s - 1 else page s)%Z ∨
  s' = set_page s (if (page s <? iterations s - 1)%Z then page s + 1 else page s)%Z ∨
  s' = set_cursor s (if (cursor s =? 0)%Z then Z.of_nat (n_v s) - 1 else cursor s - 1)%Z ∨
  s' = set_cursor s (if (cursor s =? Z.of_nat (n_v s) - 1)%Z then 0 else cursor s + 1)%Z ∨
  s' = state_solve (key_up_channel s) ∨
  s' = state_solve (key_down_channel s).
Proof.
  unfold process_keys.
  destruct (key =? 27)%Z; [by left|].
  destruct (_ || _); [by left|].
  destruct (key =? KEY_PPAGE)%Z.
  { right. left. simpl. destruct (_ >? _)%Z; [done|]. by destruct s. }
  destruct (key =? KEY_NPAGE)%Z.
  { right. right. left. simpl. destruct (_ <? _)%Z; [done|]. by destruct s. }
  destruct (key =? KEY_LEFT)%Z.
  { right. right. right. left. simpl. by destruct (_ =? _)%Z. }
  destruct (key =? KEY_RIGHT)%Z.
  { right. right. right. right. left. simpl. by destruct (_ =? _)%Z. }
  destruct (key =? KEY_UP)%Z; [by right; right; right; right; right; left|].
  destruct (key =? KEY_DOWN)%Z; [by right; right; right; right; right; right|].
  by left.
Qed.

Lemma process_keys_position key s :
  position_ok s → position_ok (process_keys key s).2.
Proof.
  intros [Hc Hp].
  pose proof (state_solve_fields (key_up_channel s)) as (U1 & U2 & U3 & U4 & _).
  pose proof (state_solve_fields (key_down_channel s)) as (D1 & D2 & D3 & D4 & _).
  assert (KU : cursor (key_up_channel s) = cursor s ∧ page (key_up_channel s) = page s ∧
               iterations (key_up_channel s) = iterations s ∧
               n_v (key_up_channel s) = n_v s)
    by (unfold key_up_channel; destruct (dlt _ _); done).
  assert (KD : cursor (key_down_channel s) = cursor s ∧ page (key_down_channel s) = page s ∧
               iterations (key_down_channel s) = iterations s ∧
               n_v (key_down_channel s) = n_v s)
    by (unfold key_down_channel; destruct (dlt _ _); done).
  destruct KU as (K1 & K2 & K3 & K4). destruct KD as (L1 & L2 & L3 & L4).
  destruct (process_keys_cases key s) as [E|[E|[E|[E|[E|[E|E]]]]]];
    rewrite E; unfold position_ok; clear E.
  - done.
  - cbn [set_page cursor page iterations n_v].
    destruct (_ >? _)%Z eqn:E; [|done]. rewrite Z.gtb_ltb in E. apply Z.ltb_lt in E. lia.
  - cbn [set_page cursor page iterations n_v].
    destruct (_ <? _)%Z eqn:E; [|done]. apply Z.ltb_lt in E. lia.
  - cbn [set_cursor cursor page iterations n_v].
    destruct (_ =? _)%Z eqn:E; [apply Z.eqb_eq in E|apply Z.eqb_neq in E]; lia.
  - cbn [set_cursor cursor page iterations n_v].
    destruct (_ =? _)%Z eqn:E; [apply Z.eqb_eq in E|apply Z.eqb_neq in E]; lia.
  - rewrite U1, U2, U3, U4, K1, K2, K3, K4. done.
  - rewrite D1, D2, D3, D4, L1, L2, L3, L4. done.
Qed.

Lemma wf_key_up_channel s : wf_state s → wf_state (key_up_channel s).
Proof.
  intros [H1 H2 H3 H4 H5]. unfold key_up_channel.
  destruct (dlt _ _); split; simpl; rewrite ?length_insert; done.
Qed.

Lemma wf_key_down_channel s : wf_state s → wf_state (key_down_channel s).
Proof.
  intros [H1 H2 H3 H4 H5]. unfold key_down_channel.
  destruct (dlt _ _); split; simpl; rewrite ?length_insert; done.
Qed.

Lemma wf_process_keys key s : wf_state s → wf_state (process_keys key s).2.
Proof.
  intros Hs.
  pose proof (wf_state_solve _ (wf_key_up_channel s Hs)) as HU.
  pose proof (wf_state_solve _ (wf_key_down_channel s Hs)) as HD.
  destruct (process_keys_cases key s) as [E|[E|[E|[E|[E|[E|E]]]]]];
    rewrite E; try done; by destruct Hs.
Qed.

(** A second call of [state_solve] changes nothing at all. *)
Lemma state_solve_idem s : wf_state s → state_solve (state_solve s) = state_solve s.
Proof.
  intros Hs. pose proof (wf_state_solve s Hs) as Hs'.
  pose proof (state_solve_fields s) as (_ & _ & _ & F4 & F5 & F6 & F7).
  pose proof (state_solve_fields (state_solve s)) as (G1 & G2 & G3 & G4 & G5 & G6 & G7).
  destruct (history_deterministic (state_solve s) s) as [H1 H2]; try done.
  { apply history_length. }
  by apply state_eq.
Qed.

(** A state that holds the decode of its own priors. *)
Definition solved s : Prop := state_solve s = s.

Lemma state_solve_set_cursor s x :
  state_solve (set_cursor s x) = set_cursor (state_solve s) x.
Proof.
  unfold state_solve. simpl.
  destruct (first_iteration s) as [|first rest]; [reflexivity|].
  unfold set_cursor. simpl. f_equal.
  rewrite (solve_seed_env (solve_llr _) (solve_llr s)) by done.
  by apply solve_loop_env.
Qed.

Lemma state_solve_set_page s x :
  state_solve (set_page s x) = set_page (state_solve s) x.
Proof.
  unfold state_solve. simpl.
  destruct (first_iteration s) as [|first rest]; [reflexivity|].
  unfold set_page. simpl. f_equal.
  rewrite (solve_seed_env (solve_llr _) (solve_llr s)) by done.
  by apply solve_loop_env.
Qed.

Lemma solved_process_keys key s :
  wf_state s → solved s → solved (process_keys key s).2.
Proof.
  intros Hs Hsol. unfold solved in *.
  pose proof (state_solve_idem _ (wf_key_up_channel s Hs)) as HU.
  pose proof (state_solve_idem _ (wf_key_down_channel s Hs)) as HD.
  destruct (process_keys_cases key s) as [E|[E|[E|[E|[E|[E|E]]]]]];
    rewrite E; try done;
    by rewrite ?state_solve_set_cursor, ?state_solve_set_page, Hsol.
Qed.

(** *** The quit keys *)

Lemma process_keys_quit key s :
  ((process_keys key s).1 = 0%Z ↔ quit_key key = true) ∧
  (quit_key key = true → (process_keys key s).2 = s).
Proof.
  unfold process_keys, quit_key.
  destruct (key =? 27)%Z; simpl; [done|].
  destruct (key =? 113)%Z; simpl; [done|].
  destruct (key =? 81)%Z; simpl; [done|].
  repeat (destruct (_ =? _)%Z; simpl; [done|]). done.
Qed.

(** *** The cursor keys *)

Lemma set_cursor_id s : set_cursor s (cursor s) = s.
Proof. by destruct s. Qed.

Lemma set_page_id s : set_page s (page s) = s.
Proof. by destruct s. Qed.

Lemma key_right_eq s :
  (process_keys KEY_RIGHT s).2 =
  set_cursor s (if (cursor s =? Z.of_nat (n_v s) - 1)%Z then 0 else cursor s + 1)%Z.
Proof. unfold process_keys. simpl. by destruct (_ =? _)%Z. Qed.

Lemma key_left_eq s :
  (process_keys KEY_LEFT s).2 =
  set_cursor s (if (cursor s =? 0)%Z then Z.of_nat (n_v s) - 1 else cursor s - 1)%Z.
Proof. unfold process_keys. simpl. by destruct (_ =? _)%Z. Qed.

Lemma key_npage_eq s :
  (process_keys KEY_NPAGE s).2 =
  set_page s (if (page s <? iterations s - 1)%Z then page s + 1 else page s)%Z.
Proof.
  unfold process_keys. simpl. destruct (_ <? _)%Z; [done|].
  by rewrite set_page_id.
Qed.

Lemma key_ppage_eq s :
  (process_keys KEY_PPAGE s).2 =
  set_page s (if (page s >? 0)%Z then page s - 1 else page s)%Z.
Proof.
  unfold process_keys. simpl. destruct (_ >? _)%Z; [done|].
  by rewrite set_page_id.
Qed.

Lemma mod_succ (a n : Z) :
  (0 ≤ a < n)%Z → ((a + 1) mod n = if (a =? n - 1)%Z then 0 else a + 1)%Z.
Proof.
  intros Ha. destruct (a =? n - 1)%Z eqn:E.
  - apply Z.eqb_eq in E. subst a.
    replace (n - 1 + 1)%Z with n by lia. apply Z_mod_same_full.
  - apply Z.eqb_neq in E. apply Z.mod_small. lia.
Qed.

Lemma mod_pred (a n : Z) :
  (0 ≤ a < n)%Z → ((a - 1) mod n = if (a =? 0)%Z then n - 1 else a - 1)%Z.
Proof.
  intros Ha. destruct (a =? 0)%Z eqn:E.
  - apply Z.eqb_eq in E. subst a.
    replace (0 - 1)%Z with (n - 1 + (-1) * n)%Z by lia.
    rewrite Z.mod_add by lia. apply Z.mod_small. lia.
  - apply Z.eqb_neq in E. apply Z.mod_small. lia.
Qed.

Lemma press_S key k s : press key (S k) s = (process_keys key (press key k s)).2.
Proof. reflexivity. Qed.

Lemma press_right k s :
  (0 ≤ cursor s < Z.of_nat (n_v s))%Z →
  press KEY_RIGHT k s = set_cursor s ((cursor s + Z.of_nat k) mod Z.of_nat (n_v s)).
Proof.
  intros Hc. induction k as [|k IH].
  - unfold press. cbn [Nat.iter nat_rect]. rewrite Z.add_0_r, Z.mod_small by done. by rewrite set_cursor_id.
  - rewrite press_S, IH, key_right_eq.
    cbn [set_cursor set_page cursor page iterations n_v].
    unfold set_cursor. cbn [cursor page iterations n_v n_c channel channel_llr matrix first_iteration]. f_equal.
    rewrite <- mod_succ by (apply Z.mod_pos_bound; lia).
    rewrite Zplus_mod_idemp_l. f_equal. lia.
Qed.

Lemma press_left k s :
  (0 ≤ cursor s < Z.of_nat (n_v s))%Z →
  press KEY_LEFT k s = set_cursor s ((cursor s - Z.of_nat k) mod Z.of_nat (n_v s)).
Proof.
  intros Hc. induction k as [|k IH].
  - unfold press. cbn [Nat.iter nat_rect]. rewrite Z.sub_0_r, Z.mod_small by done. by rewrite set_cursor_id.
  - rewrite press_S, IH, key_left_eq.
    cbn [set_cursor set_page cursor page iterations n_v].
    unfold set_cursor. cbn [cursor page iterations n_v n_c channel channel_llr matrix first_iteration]. f_equal.
    rewrite <- mod_pred by (apply Z.mod_pos_bound; lia).
    rewrite Zminus_mod_idemp_l. f_equal. lia.
Qed.

Lemma press_npage k s :
  (page s ≤ Z.max (page s) (iterations s - 1))%Z →
  press KEY_NPAGE k s
  = set_page s (Z.min (page s + Z.of_nat k) (Z.max (page s) (iterations s - 1))).
Proof.
  intros _. induction k as [|k IH].
  - unfold press. cbn [Nat.iter nat_rect]. rewrite Z.add_0_r, Z.min_l by lia. by rewrite set_page_id.
  - rewrite press_S, IH, key_npage_eq.
    cbn [set_cursor set_page cursor page iterations n_v].
    unfold set_page. cbn [cursor page iterations n_v n_c channel channel_llr matrix first_iteration]. f_equal.
    destruct (_ <? _)%Z eqn:E; [apply Z.ltb_lt in E|apply Z.ltb_ge in E]; lia.
Qed.

Lemma press_ppage k s :
  press KEY_PPAGE k s
  = set_page s (Z.max (page s - Z.of_nat k) (Z.min (page s) 0)).
Proof.
  induction k as [|k IH].
  - unfold press. cbn [Nat.iter nat_rect]. rewrite Z.sub_0_r, Z.max_l by lia. by rewrite set_page_id.
  - rewrite press_S, IH, key_ppage_eq.
    cbn [set_cursor set_page cursor page iterations n_v].
    unfold set_page. cbn [cursor page iterations n_v n_c channel channel_llr matrix first_iteration]. f_equal.
    destruct (_ >? _)%Z eqn:E; [apply Z.gtb_lt in E|rewrite Z.gtb_ltb in E; apply Z.ltb_ge in E]; lia.
Qed.

End KeyFacts.

(** ** Facts about the key loop and the screen *)

Section ScreenFacts.
Context {D : Type} `{!Double D} `{!Libm D}.
Implicit Types (s : state D) (it cur : iteration D).

Lemma main_loop_keep key keys s :
  quit_key key = false →
  main_loop (key :: keys) s
  = (s :: (main_loop keys (process_keys key s).2).1,
     (main_loop keys (process_keys key s).2).2).
Proof.
  intros Hk. simpl.
  destruct (process_keys_quit key s) as [Hq _].
  destruct ((process_keys key s).1 =? 0)%Z eqn:E; [|done].
  apply Z.eqb_eq, Hq in E. congruence.
Qed.

Lemma main_loop_quit key keys s :
  quit_key key = true → main_loop (key :: keys) s = ([s], Some s).
Proof.
  intros Hk. simpl.
  destruct (process_keys_quit key s) as [Hq Hs].
  destruct ((process_keys key s).1 =? 0)%Z eqn:E.
  - by rewrite Hs.
  - apply Z.eqb_neq in E. exfalso. by apply E, Hq.
Qed.

(** An invariant of the keys holds on every state the loop displays. *)
Lemma main_loop_invariant (P : state D → Prop) keys s :
  (∀ key s, P s → P (process_keys key s).2) →
  P s → Forall P (main_loop keys s).1.
Proof.
  intros Hstep. revert s. induction keys as [|key keys IH]; intros s Hs.
  - by constructor.
  - simpl. destruct (_ =? _)%Z; simpl.
    + by constructor.
    + constructor; [done|]. apply IH. by apply Hstep.
Qed.

(** *** The display *)

Lemma print_parity_valid s line current o :
  (print_parity s line current o).2 = display_valid s current.
Proof.
  unfold print_parity, display_valid. generalize (n_c s). intros n.
  induction n as [|n IH]; [reflexivity|].
  rewrite !for_range_S. simpl. by rewrite IH.
Qed.

Lemma display_current_drop s :
  display_current s = drop (Z.to_nat (page s)) (first_iteration s).
Proof.
  unfold display_current. generalize (Z.to_nat (page s)). intros n.
  induction n as [|n IH]; [reflexivity|].
  rewrite for_range_S, IH.
  generalize (first_iteration s). clear. intros its. revert n.
  induction its as [|x its IH]; intros n.
  - by rewrite !drop_nil.
  - destruct n as [|n]; [by destruct its|]. simpl. apply IH.
Qed.

Lemma print_edges_agree s line A B o :
  edge_agree s A B → print_edges s line A o = print_edges s line B o.
Proof.
  intros Hag. unfold print_edges.
  apply for_range_ext. intros i o1 Hi.
  apply for_range_ext. intros j o2 Hj.
  destruct (mat (matrix s) i j =? 0)%Z eqn:E; simpl; [done|].
  apply Z.eqb_neq in E. by rewrite (Hag i j).
Qed.

Lemma display_iteration_same_result s line x y o :
  same_result s x y → display_iteration s line x o = display_iteration s line y o.
Proof.
  intros (HV & HC & Hl & Hcw & Hpar). unfold display_iteration.
  rewrite (print_edges_agree s _ (message_c_to_v x) (message_c_to_v y)) by done.
  rewrite (print_edges_agree s _ (message_v_to_c x) (message_v_to_c y)) by done.
  unfold print_codeword, print_parity. by rewrite Hl, Hcw, Hpar.
Qed.

(** What [main] keeps true of the state from the first display on: the
    shapes, the position of cursor and page, and that the snapshots are
    the decode of the priors the state holds. *)
Definition main_inv s : Prop :=
  wf_state s ∧ position_ok s ∧ solved s ∧
  n_v s = 6 ∧ n_c s = 4 ∧ matrix s = ldpc_matrix ∧
  iterations s = N_ITERATIONS ∧ length (first_iteration s) = 8.

Lemma main_inv_start (indet : D) (indet8 : Z) :
  main_inv (main_state indet indet8).
Proof.
  destruct (state_new_spec indet indet8 N_ITERATIONS)
    as (Hwf & Hnv & Hnc & Hm & Hch & Hlen & Hcu & Hpa & Hit).
  unfold main_state. revert Hwf Hnv Hnc Hm Hch Hlen Hcu Hpa Hit.
  generalize (state_new indet indet8 N_ITERATIONS). intros s0 **.
  pose proof (state_solve_fields s0) as (F1 & F2 & F3 & F4 & F5 & F6 & F7).
  pose proof (history_length s0) as Hh. unfold history in Hh.
  split; [by apply wf_state_solve|].
  split; [unfold position_ok; rewrite F1, F2, F3, F4, Hcu, Hpa, Hnv, Hit;
          unfold N_ITERATIONS; lia|].
  split; [by apply state_solve_idem|].
  rewrite F3, F4, F5, F7, Hh. done.
Qed.

Lemma main_inv_step key s : main_inv s → main_inv (process_keys key s).2.
Proof.
  intros (Hwf & Hpos & Hsol & Hnv & Hnc & Hm & Hit & Hlen).
  destruct (process_keys_fields key s) as (F1 & F2 & F3 & F4 & _ & F6).
  split; [by apply wf_process_keys|].
  split; [by apply process_keys_position|].
  split; [by apply solved_process_keys|].
  rewrite F1, F2, F3, F4, F6. done.
Qed.

Lemma main_loop_end keys s :
  (main_loop keys s).2 = None ↔ existsb quit_key keys = false.
Proof.
  revert s. induction keys as [|key keys IH]; intros s; [done|].
  destruct (quit_key key) eqn:Hk.
  - rewrite main_loop_quit by done. simpl. rewrite Hk. done.
  - rewrite main_loop_keep by done. simpl. rewrite Hk. apply IH.
Qed.

(** X1. Every key leaves a well-shaped state well-shaped, the cursor on
    one of the [n_v] variables and the page on one of the iterations (on 0
    when there is none): the slot [channel[cursor]] that the up and down
    keys read and write lies inside the array. *)
Theorem keys_keep_cursor_and_page key s :
  wf_state s → position_ok s →
  let s' := (process_keys key s).2 in
  wf_state s' ∧
  (0 ≤ cursor s' < Z.of_nat (n_v s'))%Z ∧
  (0 ≤ page s' ≤ Z.max 0 (iterations s' - 1))%Z ∧
  Z.to_nat (cursor s') < length (channel s').
Proof.
  intros Hs Hpos s'.
  pose proof (wf_process_keys key s Hs) as Hs'.
  pose proof (process_keys_position key s Hpos) as [Hc Hp].
  fold s' in Hs', Hc, Hp.
  split; [done|]. split; [done|]. split; [done|].
  rewrite (wf_channel _ Hs'). lia.
Qed.

(** X2. On a cursor inside [0, n_v), [k] presses of the right key move it
    to [(cursor + k) mod n_v] and [k] presses of the left key to [(cursor
    - k) mod n_v], and change nothing else: the two keys undo each other
    and [n_v] presses of either come back to the start. *)
Theorem cursor_keys_walk_a_cycle s k :
  (0 ≤ cursor s < Z.of_nat (n_v s))%Z →
  press KEY_RIGHT k s = set_cursor s ((cursor s + Z.of_nat k) mod Z.of_nat (n_v s)) ∧
  press KEY_LEFT k s = set_cursor s ((cursor s - Z.of_nat k) mod Z.of_nat (n_v s)) ∧
  press KEY_LEFT k (press KEY_RIGHT k s) = s ∧
  press KEY_RIGHT k (press KEY_LEFT k s) = s ∧
  press KEY_RIGHT (n_v s) s = s ∧
  press KEY_LEFT (n_v s) s = s.
Proof.
  intros Hc.
  assert (Hn : (0 < Z.of_nat (n_v s))%Z) by lia.
  pose proof (press_right k s Hc) as HR.
  pose proof (press_left k s Hc) as HL.
  assert (Hback : ∀ x, set_cursor (set_cursor s x) (cursor s) = s)
    by (intros x; by destruct s).
  split; [done|]. split; [done|]. repeat split.
  - rewrite HR, press_left by (simpl; by apply Z.mod_pos_bound).
    cbn [set_cursor cursor n_v]. unfold set_cursor at 1.
    cbn [cursor page iterations n_v n_c channel channel_llr matrix first_iteration].
    rewrite Zminus_mod_idemp_l.
    replace (cursor s + Z.of_nat k - Z.of_nat k)%Z with (cursor s) by lia.
    rewrite Z.mod_small by done. by destruct s.
  - rewrite HL, press_right by (simpl; by apply Z.mod_pos_bound).
    cbn [set_cursor cursor n_v]. unfold set_cursor at 1.
    cbn [cursor page iterations n_v n_c channel channel_llr matrix first_iteration].
    rewrite Zplus_mod_idemp_l.
    replace (cursor s - Z.of_nat k + Z.of_nat k)%Z with (cursor s) by lia.
    rewrite Z.mod_small by done. by destruct s.
  - rewrite press_right by done.
    replace (cursor s + Z.of_nat (n_v s))%Z
      with (cursor s + 1 * Z.of_nat (n_v s))%Z by lia.
    rewrite Z.mod_add, Z.mod_small by lia. apply set_cursor_id.
  - rewrite press_left by done.
    replace (cursor s - Z.of_nat (n_v s))%Z
      with (cursor s + (-1) * Z.of_nat (n_v s))%Z by lia.
    rewrite Z.mod_add, Z.mod_small by lia. apply set_cursor_id.
Qed.

(** X3. On a page inside [0, iterations), [k] presses of the page-down key
    move it to [min (page + k) (iterations - 1)] and [k] presses of the
    page-up key to [max (page - k) 0], and change nothing else: the page
    stops at the last iteration and at the first. *)
Theorem page_keys_saturate s k :
  (0 ≤ page s ≤ iterations s - 1)%Z →
  press KEY_NPAGE k s = set_page s (Z.min (page s + Z.of_nat k) (iterations s - 1)) ∧
  press KEY_PPAGE k s = set_page s (Z.max (page s - Z.of_nat k) 0) ∧
  ((iterations s - 1 - page s ≤ Z.of_nat k)%Z →
     page (press KEY_NPAGE k s) = (iterations s - 1)%Z) ∧
  ((page s ≤ Z.of_nat k)%Z → page (press KEY_PPAGE k s) = 0%Z).
Proof.
  intros Hp.
  assert (HN : press KEY_NPAGE k s
               = set_page s (Z.min (page s + Z.of_nat k) (iterations s - 1))).
  { rewrite press_npage by lia. f_equal. lia. }
  assert (HP : press KEY_PPAGE k s = set_page s (Z.max (page s - Z.of_nat k) 0)).
  { rewrite press_ppage. f_equal. lia. }
  split; [done|]. split; [done|]. split.
  - intros Hk. rewrite HN. simpl. lia.
  - intros Hk. rewrite HP. simpl. lia.
Qed.

(** X4. The loop of [main] ends on the first ESC, [q] or [Q] and on no
    other key: with [pre] free of these three, the run on [pre] followed
    by one of them displays one frame per key of [pre] and one more, the
    same frames as the run on [pre] alone, leaves the state as the last
    frame showed it, and reads nothing of what follows the quit key. *)
Theorem main_loop_stops_at_first_quit pre q post s :
  Forall (λ key, quit_key key = false) pre → quit_key q = true →
  ∃ states final,
    main_loop pre s = (states, None) ∧
    main_loop (pre ++ q :: post) s = (states, Some final) ∧
    length states = S (length pre) ∧
    last states = Some final.
Proof.
  intros Hpre Hq. revert s.
  induction Hpre as [|key pre Hkey Hpre IH]; intros s.
  - exists [s], s. simpl app. rewrite main_loop_quit by done. done.
  - destruct (IH (process_keys key s).2) as (states & final & H1 & H2 & H3 & H4).
    exists (s :: states), final.
    change ((key :: pre) ++ q :: post) with (key :: (pre ++ q :: post)).
    rewrite !main_loop_keep, H1, H2 by done. simpl.
    repeat split; [by rewrite H3|].
    destruct states as [|s1 states]; [done|]. exact H4.
Qed.

(** X5. [main] returns, with code 0, in two cases: at once when the
    console has no colours, and when a quit key follows the key that
    dismissed the welcome screen. That first key is never read as a
    command; with no quit key after it the run is left waiting in
    [getch()]. *)
Theorem main_returns (indet : D) (indet8 : Z) (has_colors : bool) keys :
  (main indet indet8 has_colors keys).2 =
  if negb has_colors then Returned 0%Z
  else if existsb quit_key (tail keys) then Returned 0%Z else Waiting.
Proof.
  unfold main. destruct has_colors; simpl; [|done].
  destruct keys as [|key keys]; simpl; [done|].
  destruct (main_loop_end keys (state_solve (state_new indet indet8 N_ITERATIONS)))
    as [H1 H2].
  destruct (main_loop keys _).2 eqn:E; simpl.
  - destruct (existsb quit_key keys); [done|]. by specialize (H2 eq_refl).
  - by rewrite H1.
Qed.

(** X6. Whatever keys are pressed, every state [main] hands to
    [state_display] is well shaped, has its cursor on one of the 6
    variables and its page on one of the 8 iterations, and holds the
    decode of the priors it holds: its snapshots are the history of a run
    of [state_solve] on it and its channel LLRs are those of its priors.
    The display finds a snapshot to show, the one whose index is the page. *)
Theorem every_frame_shows_the_decode (indet : D) (indet8 : Z) keys :
  Forall (λ s,
    wf_state s ∧ (0 ≤ cursor s < 6)%Z ∧ (0 ≤ page s < 8)%Z ∧
    first_iteration s = history s ∧
    channel_llr s = llr_of s <$> seq 0 6 ∧
    ∃ it, history s !! Z.to_nat (page s) = Some it ∧
          display_current s = it :: drop (S (Z.to_nat (page s))) (history s))
    (main_loop keys (main_state indet indet8)).1.
Proof.
  eapply Forall_impl.
  - apply (main_loop_invariant main_inv); [apply main_inv_step|apply main_inv_start].
  - intros s (Hwf & [Hc Hp] & Hsol & Hnv & Hnc & Hm & Hit & Hlen).
    rewrite Hnv in Hc. rewrite Hit in Hp. unfold N_ITERATIONS in Hp.
    assert (Hh : first_iteration s = history s)
      by (unfold history; by rewrite Hsol).
    split; [done|]. split; [done|]. split; [lia|]. split; [done|]. split.
    + rewrite <- Hnv, <- (channel_llr_solve_llr s Hwf), <- state_solve_channel_llr.
      by rewrite Hsol.
    + destruct (lookup_lt_is_Some_2 (history s) (Z.to_nat (page s))) as [it Hit'].
      { rewrite <- Hh, Hlen. lia. }
      exists it. split; [done|].
      rewrite display_current_drop, Hh. by apply drop_S.
Qed.

(** X7. Nothing [malloc] left in the arrays is still there after
    [state_solve]: the state after [state_new] and [state_solve] is the
    same whatever the fresh memory held, and so is everything [main] sends
    to the terminal. *)
Theorem no_uninitialised_memory_shown (i i' : D) (i8 i8' : Z) :
  (∀ n_i, state_solve (state_new i i8 n_i) = state_solve (state_new i' i8' n_i)) ∧
  (∀ has_colors keys, main i i8 has_colors keys = main i' i8' has_colors keys).
Proof.
  assert (H : ∀ n_i, state_solve (state_new i i8 n_i)
                     = state_solve (state_new i' i8' n_i)).
  { intros n_i.
    destruct (state_new_spec i i8 n_i)
      as (Hwf & Hnv & Hnc & Hm & Hch & Hlen & Hcu & Hpa & Hit).
    destruct (state_new_spec i' i8' n_i)
      as (Hwf' & Hnv' & Hnc' & Hm' & Hch' & Hlen' & Hcu' & Hpa' & Hit').
    revert Hwf Hnv Hnc Hm Hch Hlen Hcu Hpa Hit Hwf' Hnv' Hnc' Hm' Hch' Hlen' Hcu' Hpa' Hit'.
    generalize (state_new i i8 n_i) (state_new i' i8' n_i). intros s s' **.
    pose proof (state_solve_fields s) as (F1 & F2 & F3 & F4 & F5 & F6 & F7).
    pose proof (state_solve_fields s') as (G1 & G2 & G3 & G4 & G5 & G6 & G7).
    destruct (history_deterministic s s') as [H1 H2]; try congruence.
    apply state_eq; try congruence. exact H1. }
  split; [exact H|].
  intros has_colors keys. unfold main. by rewrite (H N_ITERATIONS).
Qed.

(** X8. The walk of [state_display] to the page stops at the end of the
    list: it ends on the snapshot whose index is the page, on the first
    one when the page is 0 or below, and on [NULL] when the page is past
    the last record, in which case no iteration block is drawn. *)
Theorem display_walks_to_page s :
  display_current s = drop (Z.to_nat (page s)) (first_iteration s) ∧
  ((page s ≤ 0)%Z → display_current s = first_iteration s) ∧
  (length (first_iteration s) ≤ Z.to_nat (page s) →
   display_current s = [] ∧
   state_display s =
     print_row 3 "%7.4f " (n_v s) (channel_llr s)
       (print_row 1 "%7.4f" (n_v s) (channel s)
          [Move 0 0; Attron 1; Printw "Channel" []; Attron 2]
        ++ [Move 2 0; Attron 1; Printw "Channel LLR" []; Attron 2])
     ++ [Move 1 (cursor s * 8 + 6); Refresh]).
Proof.
  pose proof (display_current_drop s) as Hd.
  split; [done|]. split.
  - intros Hp. rewrite Hd. replace (Z.to_nat (page s)) with 0 by lia. done.
  - intros Hlen. assert (He : display_current s = [])
      by (rewrite Hd; by apply drop_ge).
    split; [done|]. unfold state_display. by rewrite He.
Qed.

(** X9. The display prints a slot of the two message arrays only where the
    matrix entry is not 0: two states that differ only in their snapshots,
    and whose snapshots agree on the edge messages, the beliefs, the
    codeword and the parity, draw the same screen. *)
Theorem display_prints_edges_only s s' :
  cursor s = cursor s' → page s = page s' → iterations s = iterations s' →
  n_v s = n_v s' → n_c s = n_c s' → channel s = channel s' →
  channel_llr s = channel_llr s' → matrix s = matrix s' →
  Forall2 (same_result s) (first_iteration s) (first_iteration s') →
  state_display s = state_display s'.
Proof.
  intros Hcu Hpa Hit Hnv Hnc Hch Hllr Hm Hres.
  pose proof (Forall2_drop _ _ _ (Z.to_nat (page s)) Hres) as Hd.
  unfold state_display.
  rewrite (display_current_drop s), (display_current_drop s').
  rewrite <- Hpa, <- Hcu, <- Hnv, <- Hch, <- Hllr. f_equal.
  destruct Hd as [|x y xs ys Hxy _]; [done|].
  rewrite (display_iteration_same_result s _ x y) by done.
  unfold display_iteration, print_edges, print_codeword, print_parity.
  by rewrite <- Hpa, <- Hit, <- Hnv, <- Hnc, <- Hm.
Qed.

(** *** The lines the display writes on *)

(** A call that, when it is a [move], goes to a line of [[0, B]]. *)
Definition on_lines (B : Z) (o : op D) : Prop :=
  match o with
  | Move y _ => (0 ≤ y ≤ B)%Z
  | _ => True
  end.

Lemma print_row_lines B line fmt n a o :
  (0 ≤ line ≤ B)%Z → Forall (on_lines B) o →
  Forall (on_lines B) (print_row line fmt n a o).
Proof.
  intros Hl Ho. unfold print_row.
  apply (for_range_ind (λ _ o, Forall (on_lines B) o)); [done|].
  intros i o' _ Ho'. apply Forall_app. split; [done|].
  repeat constructor; simpl; lia.
Qed.

Lemma print_edges_lines B s line A o :
  (0 ≤ line)%Z → (line + Z.of_nat (n_c s) - 1 ≤ B)%Z → Forall (on_lines B) o →
  Forall (on_lines B) (print_edges s line A o).
Proof.
  intros Hl HB Ho. unfold print_edges.
  apply (for_range_ind (λ _ o, Forall (on_lines B) o)); [done|].
  intros i o' Hi Ho'.
  apply (for_range_ind (λ _ o, Forall (on_lines B) o)); [done|].
  intros j o'' _ Ho''. destruct (negb _); [|done].
  apply Forall_app. split; [done|]. repeat constructor; simpl; lia.
Qed.

Lemma print_codeword_lines B s line current o :
  (0 ≤ line ≤ B)%Z → Forall (on_lines B) o →
  Forall (on_lines B) (print_codeword s line current o).
Proof.
  intros Hl Ho. unfold print_codeword.
  apply (for_range_ind (λ _ o, Forall (on_lines B) o)); [done|].
  intros i o' _ Ho'. apply Forall_app. split; [done|].
  repeat constructor; simpl; lia.
Qed.

Lemma print_parity_lines B s line current o :
  (0 ≤ line ≤ B)%Z → Forall (on_lines B) o →
  Forall (on_lines B) (print_parity s line current o).1.
Proof.
  intros Hl Ho. unfold print_parity.
  apply (for_range_ind (λ _ ov, Forall (on_lines B) ov.1)); [done|].
  intros i o' _ Ho'. simpl. apply Forall_app. split; [done|].
  repeat constructor; simpl; lia.
Qed.

Lemma display_valid_bit s current :
  display_valid s current = 0%Z ∨ display_valid s current = 1%Z.
Proof.
  unfold display_valid.
  apply (for_range_ind (λ _ x, x = 0 ∨ x = 1)%Z); [by right|].
  intros i x _ Hx. destruct (negb _); [by left|done].
Qed.

(** X10. The display of a state whose page has a snapshot goes to the
    lines 0 to [16 + 2 n_c] and to no other, and ends on its verdict,
    written on the last of these lines at column 1 (line 24, the
    twenty-fifth, for the 4 checks of the program's matrix) in colour pair
    5 when the snapshot is valid and 4 when it is not, before the cursor
    is put back on the selected prior. Without a snapshot it stays on
    lines 0 to 3. *)
Theorem display_lines s :
  match display_current s with
  | [] => Forall (on_lines 3) (state_display s)
  | current :: _ =>
      Forall (on_lines (16 + 2 * Z.of_nat (n_c s))) (state_display s) ∧
      ∃ before,
        state_display s = before ++
          [Move (16 + 2 * Z.of_nat (n_c s)) 1;
           Attron (if decide (display_valid s current = 1%Z) then 5 else 4);
           Printw "=== %s ===   "
             [ArgS (if decide (display_valid s current = 1%Z)
                    then " Valid codeword " else "Invalid codeword")];
           Move 1 (cursor s * 8 + 6); Refresh]
  end.
Proof.
  unfold state_display.
  destruct (display_current s) as [|current rest].
  - apply Forall_app. split; [|repeat constructor; simpl; lia].
    apply print_row_lines; [lia|]. apply Forall_app.
    split; [|repeat constructor; simpl; lia].
    apply print_row_lines; [lia|]. repeat constructor; simpl; lia.
  - set (B := (16 + 2 * Z.of_nat (n_c s))%Z).
    set (o0 := print_row (0 + 1 + 1 + 1) "%7.4f " (n_v s) (channel_llr s) _).
    assert (H0 : Forall (on_lines B) o0).
    { unfold o0. apply print_row_lines; [lia|]. apply Forall_app.
      split; [|repeat constructor; simpl; lia].
      apply print_row_lines; [lia|]. repeat constructor; simpl; lia. }
    clearbody o0. unfold display_iteration.
    set (ov := print_parity _ _ _ _).
    assert (Hov : Forall (on_lines B) ov.1).
    { unfold ov. apply print_parity_lines; [lia|].
      apply Forall_app. split; [|repeat constructor; simpl; lia].
      apply print_codeword_lines; [lia|].
      apply Forall_app. split; [|repeat constructor; simpl; lia].
      apply print_row_lines; [lia|].
      apply Forall_app. split; [|repeat constructor; simpl; lia].
      apply print_edges_lines; [lia|lia|].
      apply Forall_app. split; [|repeat constructor; simpl; lia].
      apply print_edges_lines; [lia|lia|].
      apply Forall_app. split; [|repeat constructor; simpl; lia].
      apply Forall_app. split; [done|]. repeat constructor; simpl; lia. }
    assert (Hv : ov.2 = display_valid s current) by apply print_parity_valid.
    clearbody ov. split.
    + apply Forall_app. split; [|repeat constructor; simpl; lia].
      apply Forall_app. split; [done|]. repeat constructor; simpl; lia.
    + exists ov.1. rewrite <- app_assoc. f_equal. simpl. rewrite Hv.
      replace (0 + 1 + 1 + 1 + 1 + 1 + 1 + 1 + Z.of_nat (n_c s) + 1 + 1 +
               Z.of_nat (n_c s) + 1 + 1 + 1 + 1 + 1 + 1 + 1)%Z with B
        by (unfold B; lia).
      destruct (display_valid_bit s current) as [-> | ->]; reflexivity.
Qed.

End ScreenFacts.

(** ** More facts about a run *)

Section RunFacts.
Context {D : Type} `{!Double D} `{!Libm D}.
Implicit Types (s : state D) (it cur : iteration D).

Lemma hard_bit_bit s V v : hard_bit s V v = 0%Z ∨ hard_bit s V v = 1%Z.
Proof. unfold hard_bit. destruct (dlt _ _); [by right|by left]. Qed.

Lemma parity_upto_bit s V k c :
  parity_upto s V k c = 0%Z ∨ parity_upto s V k c = 1%Z.
Proof.
  induction k as [|k IH]; [by left|].
  rewrite parity_upto_S. destruct (negb _); [|done].
  destruct IH as [-> | ->], (hard_bit_bit s V k) as [-> | ->]; simpl; auto.
Qed.

(** X11. The codeword and the parity of a snapshot hold bits: every entry
    the loop over the variables stores in the two [uint8_t] arrays is 0 or
    1, the XOR of the parity updates included. *)
Theorem codeword_and_parity_are_bits s r it :
  wf_state s → history s !! r = Some it →
  length (codeword it) = n_v s ∧ length (parity it) = n_c s ∧
  Forall (λ b, b = 0 ∨ b = 1)%Z (codeword it) ∧
  Forall (λ b, b = 0 ∨ b = 1)%Z (parity it).
Proof.
  intros Hs Hit.
  destruct (history_fields s r it Hs Hit) as (_ & _ & Hcw & Hpar & _).
  rewrite Hcw, Hpar, !length_fmap, !length_seq.
  split; [done|]. split; [done|]. split.
  - apply Forall_fmap, Forall_forall. intros v _. apply hard_bit_bit.
  - apply Forall_fmap, Forall_forall. intros c _. apply parity_upto_bit.
Qed.

(** The loop on fewer records computes the first rounds of the loop on
    more. *)
Lemma solve_loop_take s cur cur' rest rest' :
  wf_state s →
  wf_iteration (n_c s) (n_v s) cur → wf_iteration (n_c s) (n_v s) cur' →
  Forall (wf_iteration (n_c s) (n_v s)) rest →
  Forall (wf_iteration (n_c s) (n_v s)) rest' →
  length rest ≤ length rest' →
  message_c_to_v cur = message_c_to_v cur' →
  solve_loop s cur rest = take (S (length rest)) (solve_loop s cur' rest').
Proof.
  intros Hs Hcur Hcur' Hrest. revert cur cur' rest' Hcur Hcur'.
  induction Hrest as [|nxt rest Hnxt Hrest IH];
    intros cur cur' rest' Hcur Hcur' Hrest' Hlen HC.
  - assert (Heq : solve_current s cur = solve_current s cur')
      by by rewrite !solve_current_spec, HC by done.
    destruct rest'; simpl; by rewrite Heq.
  - destruct Hrest' as [|nxt' rest' Hnxt' Hrest']; [simpl in Hlen; lia|].
    assert (Heq : solve_current s cur = solve_current s cur')
      by by rewrite !solve_current_spec, HC by done.
    cbn [solve_loop length take]. rewrite Heq. f_equal.
    apply IH; try done.
    + by apply wf_solve_next.
    + by apply wf_solve_next.
    + simpl in Hlen. lia.
    + by rewrite !solve_next_spec by done.
Qed.

(** X12. A round never looks ahead: on the same matrix and priors, the run
    with fewer iteration records leaves the first snapshots of the run
    with more. The number of iterations only says where the history stops. *)
Theorem earlier_rounds_ignore_later_records s s' :
  wf_state s → wf_state s' →
  n_v s = n_v s' → n_c s = n_c s' → matrix s = matrix s' →
  channel s = channel s' →
  length (first_iteration s) ≤ length (first_iteration s') →
  history s = take (length (first_iteration s)) (history s').
Proof.
  intros Hs Hs' Hnv Hnc Hm Hch Hlen.
  assert (Hllr : channel_llr (solve_llr s) = channel_llr (solve_llr s')).
  { rewrite !channel_llr_solve_llr by done. rewrite Hnv.
    apply fmap_seq_ext. intros v _. unfold llr_of. by rewrite Hch. }
  assert (Henv : same_env (solve_llr s) (solve_llr s')) by done.
  pose proof (wf_solve_llr s' Hs') as Hs1'.
  pose proof (wf_iterations s Hs) as Hits.
  pose proof (wf_iterations s' Hs') as Hits'.
  unfold history, state_solve. simpl.
  destruct (first_iteration s) as [|first rest] eqn:Hfi; simpl.
  { rewrite Hfi. by rewrite take_0. }
  destruct (first_iteration s') as [|first' rest'] eqn:Hfi';
    [simpl in Hlen; lia|]. simpl.
  apply Forall_cons in Hits as [Hfirst Hrest].
  apply Forall_cons in Hits' as [Hfirst' Hrest'].
  rewrite (solve_loop_env _ _ _ _ Henv), (solve_seed_env _ _ _ Henv).
  rewrite Hnv, Hnc in Hfirst, Hrest.
  apply (solve_loop_take (solve_llr s')); try done.
  - by apply wf_solve_seed.
  - by apply wf_solve_seed.
  - simpl in Hlen. lia.
  - by rewrite !solve_seed_spec by done.
Qed.

(** X13. With [n_i] zero or negative [state_new] links no iteration
    record: [state_solve] then fills the channel LLRs and returns before
    the message loops, and whatever keys follow, the page stays 0 and the
    walk of the display ends on [NULL], so that no iteration block is
    drawn.  [n_i] is above [INT_MIN], the one value at which
    [s->iterations-1] of the page-down key leaves the range of [int]. *)
Theorem no_rounds_when_n_i_not_positive (indet : D) (indet8 : Z) (n_i : Z) keys :
  (-2147483648 < n_i ≤ 0)%Z →
  let s0 := state_solve (state_new indet indet8 n_i) in
  first_iteration s0 = [] ∧
  channel_llr s0 = llr_of s0 <$> seq 0 6 ∧
  Forall (λ s, first_iteration s = [] ∧ page s = 0%Z ∧ display_current s = [])
    (main_loop keys s0).1.
Proof.
  intros Hn s0.
  destruct (state_new_spec indet indet8 n_i)
    as (Hwf & Hnv & Hnc & Hm & Hch & Hlen & Hcu & Hpa & Hit).
  subst s0. revert Hwf Hnv Hnc Hm Hch Hlen Hcu Hpa Hit.
  generalize (state_new indet indet8 n_i). intros s Hwf **.
  pose proof (state_solve_fields s) as (F1 & F2 & F3 & F4 & F5 & F6 & F7).
  pose proof (history_length s) as Hh. unfold history in Hh.
  assert (Hnil : first_iteration (state_solve s) = []).
  { apply length_zero_iff_nil. rewrite Hh, Hlen. lia. }
  split; [done|]. split.
  { rewrite state_solve_channel_llr, channel_llr_solve_llr, Hnv by done.
    apply fmap_seq_ext. intros v _. unfold llr_of. by rewrite F6. }
  eapply Forall_impl.
  - apply (main_loop_invariant
             (λ s', length (first_iteration s') = 0 ∧ position_ok s' ∧
                    iterations s' = n_i)).
    + intros key s' (H1 & H2 & H3).
      destruct (process_keys_fields key s') as (_ & _ & G3 & _ & _ & G6).
      split; [by rewrite G6|]. split; [by apply process_keys_position|].
      by rewrite G3.
    + split; [by rewrite Hnil|]. split; [|by rewrite F3].
      unfold position_ok. rewrite F1, F2, F3, F4, Hcu, Hpa, Hnv, Hit. lia.
  - intros s' (H1 & [_ H2] & H3). simpl.
    apply length_zero_iff_nil in H1.
    split; [done|]. rewrite H3 in H2. split; [lia|].
    by rewrite display_current_drop, H1, drop_nil.
Qed.

(** What the loop over the variables leaves in a snapshot, entry by
    entry. *)
Lemma history_bits s r it :
  wf_state s → history s !! r = Some it →
  (∀ v, v < n_v s →
     get (l it) v = belief_rule s (get2 (message_v_to_c it)) v ∧
     get8 (codeword it) v = if dlt (get (l it) v) (dconst 0) then 1%Z else 0%Z) ∧
  (∀ c, c < n_c s → get8 (parity it) c = syndrome_rule s (get8 (codeword it)) c).
Proof.
  intros Hs Hit.
  destruct (history_fields s r it Hs Hit) as (HV & Hl & Hcw & Hpar & _).
  split.
  - intros v Hv.
    assert (Hlv : get (l it) v = belief (solve_llr s) (message_v_to_c it) v).
    { rewrite Hl, <- HV. unfold get at 1.
      by rewrite list_lookup_fmap, lookup_seq_lt. }
    split; [rewrite Hlv; by apply belief_rule_eq|].
    rewrite Hlv, Hcw, <- HV. unfold get8.
    by rewrite list_lookup_fmap, lookup_seq_lt.
  - intros c Hc. rewrite Hpar at 1. unfold get8 at 1.
    rewrite list_lookup_fmap, lookup_seq_lt by done. simpl.
    rewrite parity_upto_rule by done. unfold syndrome_rule.
    apply (foldl_ext_Forall (λ v, v < n_v s ∧ connected s c v)).
    + apply (Forall_filter_seq (λ v, connected s c v)).
    + intros x v [Hv _]. f_equal. rewrite Hcw. unfold get8.
      by rewrite list_lookup_fmap, lookup_seq_lt.
Qed.

Lemma foldl_lxor_zero (L : list nat) (cw : nat → Z) :
  (∀ v, v ∈ L → cw v = 0%Z) → foldl (λ x v, Z.lxor x (cw v)) 0%Z L = 0%Z.
Proof.
  induction L as [|v L IH]; intros Hcw; [done|]. simpl.
  rewrite (Hcw v) by by left. simpl. apply IH. intros w Hw. apply Hcw. by right.
Qed.

End RunFacts.

(** * More of the binary64 model *)

Section FloatFacts.

(** [y] and what the next [m] applications of [f] make of it all pass
    the test [ok], and the last of them is left as it is by [f]. *)
Fixpoint stays (f : float → float) (ok : float → bool) (m : nat) (y : float) : bool :=
  ok y &&
  match m with
  | 0 => float_same (f y) y
  | S m' => stays f ok m' (f y)
  end.

Lemma stays_sound (f : float → float) (ok : float → bool) (m : nat) (y : float) :
  stays f ok m y = true → ∀ n, ok (Nat.iter n f y) = true.
Proof.
  revert y. induction m as [|m IH]; intros y H n; simpl in H;
    apply andb_true_iff in H as [Hy H].
  - apply float_same_eq in H. by rewrite iter_fixed.
  - destruct n as [|n]; [done|].
    rewrite Nat.iter_succ_r. by apply IH.
Qed.

(** [m] applications of [f] to [y] give [L], which [f] leaves as it
    is. *)
Definition settles (f : float → float) (L : float) (m : nat) (y : float) : bool :=
  float_same (Nat.iter m f y) L && float_same (f L) L.

Lemma settles_sound (f : float → float) (L : float) (m : nat) (y : float) :
  settles f L m y = true → ∀ n, m ≤ n → Nat.iter n f y = L.
Proof.
  intros H n Hn. apply andb_true_iff in H as [H1 H2].
  apply float_same_eq in H1. apply float_same_eq in H2.
  replace n with ((n - m) + m) by lia.
  rewrite Nat.iter_add, H1. by apply iter_fixed.
Qed.

Definition below_058 (y : float) : bool := PrimFloat.leb y (float_const (58#100)).
Definition below_007 (y : float) : bool := PrimFloat.ltb y (float_const (7#100)).

(** A double that is an integer: zero, or a mantissa times a power of
    two that is whole. *)
Definition float_integer (f : float) : bool :=
  match Prim2SF f with
  | S754_zero _ => true
  | S754_finite _ m e => (0 <=? e)%Z || (Z.pos m mod 2 ^ (- e) =? 0)%Z
  | _ => false
  end.

(** What [floor] has to return on [100 * y]: the integer [f] with
    [f <= 100 * y < f + 1].  The test says that [float_floor] returns it,
    for a prior [y] that is not negative. *)
Definition floor_ok (y : float) : bool :=
  let v := PrimFloat.mul y (float_const 100) in
  let f := float_floor v in
  float_integer f && PrimFloat.leb PrimFloat.zero f
  && PrimFloat.leb f v && PrimFloat.ltb v (PrimFloat.add f PrimFloat.one).

(** 0.06 + 0.01 in binary64: the double just below the literal 0.07. *)
Definition stuck_007 : float :=
  PrimFloat.add (float_const (6#100)) (float_const (1#100)).

Lemma raise_table :
  forallb (λ k, stays nudge_up below_058 60
                  (float_raise (float_const (Z.of_nat k # 100)))) (seq 0 58) = true ∧
  forallb (λ k, stays nudge_up below_007 60
                  (float_raise (float_const (Z.of_nat k # 100)))) (seq 0 7) = true ∧
  forallb (λ k, settles nudge_up stuck_007 60
                  (float_raise (float_const (Z.of_nat k # 100)))) (seq 0 7) = true ∧
  forallb (λ k, settles nudge_up (float_const (58#100)) 60
                  (float_raise (float_const (Z.of_nat k # 100)))) (seq 7 51) = true ∧
  forallb (λ k, settles nudge_up (float_const (99#100)) 60
                  (float_raise (float_const (Z.of_nat k # 100)))) (seq 58 42) = true ∧
  forallb (λ k, stays nudge_up floor_ok 60
                  (float_raise (float_const (Z.of_nat k # 100)))) (seq 0 100) = true.
Proof.
  do 5 (split; [vm_compute; reflexivity|]). vm_compute. reflexivity.
Qed.

Lemma lower_table :
  forallb (λ k, settles nudge_down (float_const (1#100)) 99
                  (float_lower (float_const (Z.of_nat k # 100)))) (seq 0 100) = true ∧
  forallb (λ k, stays nudge_down floor_ok 99
                  (float_lower (float_const (Z.of_nat k # 100)))) (seq 0 100) = true.
Proof. split; vm_compute; reflexivity. Qed.

(** X19. On binary64 the raising key gets stuck. From a prior that snaps
    to one of the grid values 0.00 .. 0.57, no number of presses of the
    down key takes the prior above 0.58, and from one that snaps to 0.00
    .. 0.06 none takes it to 0.07: 0.57 + 0.01 and 0.06 + 0.01 round to
    doubles whose hundredfold floors to 57 and to 6 again. After 100
    presses or more the prior is 0.06 + 0.01 (below the literal 0.07) from
    0.00 .. 0.06, the literal 0.58 from 0.07 .. 0.57, and the clamp 0.99
    only from 0.58 .. 0.99. On every prior [y] met after the first press
    the floor taken is the integer [i] with [i <= 100 * y < i + 1], and
    these priors are the values [process_keys] leaves under the cursor,
    whatever [exp], [log] and [tanh] compute. *)
Theorem float_raise_gets_stuck (x : float) (k n : nat) :
  snap x = float_const (Z.of_nat k # 100) →
  (k ≤ 57 →
   PrimFloat.leb (Nat.iter (S n) nudge_up x) (float_const (58#100)) = true) ∧
  (k ≤ 6 →
   PrimFloat.ltb (Nat.iter (S n) nudge_up x) (float_const (7#100)) = true) ∧
  (100 ≤ n →
   (k ≤ 6 → Nat.iter n nudge_up x = stuck_007) ∧
   (7 ≤ k ≤ 57 → Nat.iter n nudge_up x = float_const (58#100)) ∧
   (58 ≤ k ≤ 99 → Nat.iter n nudge_up x = float_const (99#100))) ∧
  (k ≤ 99 → floor_ok (Nat.iter (S n) nudge_up x) = true) ∧
  (∀ (libm : Libm float) (s : state float),
     channel s !! Z.to_nat (cursor s) = Some x →
     channel (press KEY_DOWN n s) !! Z.to_nat (cursor (press KEY_DOWN n s))
     = Some (Nat.iter n nudge_up x)).
Proof.
  intros Hx. destruct raise_table as (T58 & T7 & L7 & L58 & L99 & F).
  rewrite forallb_forall in T58. rewrite forallb_forall in T7.
  rewrite forallb_forall in L7. rewrite forallb_forall in L58.
  rewrite forallb_forall in L99. rewrite forallb_forall in F.
  split; [|split; [|split; [|split]]].
  5:{ intros libm s Hs. by apply (press_slot KEY_DOWN nudge_up n s x key_down_slot). }
  - intros Hk. rewrite Nat.iter_succ_r, float_nudge_up_eq, Hx.
    apply (stays_sound nudge_up below_058 60), T58, in_seq. lia.
  - intros Hk. rewrite Nat.iter_succ_r, float_nudge_up_eq, Hx.
    apply (stays_sound nudge_up below_007 60), T7, in_seq. lia.
  - intros Hn. destruct n as [|n]; [lia|].
    rewrite Nat.iter_succ_r, float_nudge_up_eq, Hx.
    split; [|split]; intros Hk.
    + apply (settles_sound nudge_up stuck_007 60); [|lia]. apply L7, in_seq. lia.
    + apply (settles_sound nudge_up _ 60); [|lia]. apply L58, in_seq. lia.
    + apply (settles_sound nudge_up _ 60); [|lia]. apply L99, in_seq. lia.
  - intros Hk. rewrite Nat.iter_succ_r, float_nudge_up_eq, Hx.
    apply (stays_sound nudge_up floor_ok 60), F, in_seq. lia.
Qed.

(** X21. On binary64 the lowering key does reach its clamp: from a prior
    that snaps to any of the grid values 0.00 .. 0.99, 100 presses of the
    up key or more leave the literal 0.01 under the cursor, whatever
    [exp], [log] and [tanh] compute. On every prior [y] met after the
    first press the floor taken is the integer [i] with [i <= 100 * y < i
    + 1]. *)
Theorem float_lower_reaches_clamp (x : float) (k n : nat) :
  snap x = float_const (Z.of_nat k # 100) → k ≤ 99 → 100 ≤ n →
  Nat.iter n nudge_down x = float_const (1#100) ∧
  floor_ok (Nat.iter n nudge_down x) = true ∧
  (∀ (libm : Libm float) (s : state float),
     channel s !! Z.to_nat (cursor s) = Some x →
     channel (press KEY_UP n s) !! Z.to_nat (cursor (press KEY_UP n s))
     = Some (Nat.iter n nudge_down x)).
Proof.
  intros Hx Hk Hn. destruct lower_table as [T F].
  rewrite forallb_forall in T. rewrite forallb_forall in F.
  split; [|split];
    [| |intros libm s Hs; by apply (press_slot KEY_UP nudge_down n s x key_up_slot)].
  - destruct n as [|n]; [lia|].
    rewrite Nat.iter_succ_r, float_nudge_down_eq, Hx.
    apply (settles_sound nudge_down _ 99); [|lia]. apply T, in_seq. lia.
  - destruct n as [|n]; [lia|].
    rewrite Nat.iter_succ_r, float_nudge_down_eq, Hx.
    apply (stays_sound nudge_down floor_ok 99), F, in_seq. lia.
Qed.

(** A prior the decoder can take the LLR of: strictly between 0 and 1,
    with the floor of its hundredfold one of 0 .. 99 and a quotient
    [p / (1 - p)] that is positive and finite. *)
Definition proper (p : float) : bool :=
  existsb (λ k, float_same (snap p) (grid_point k)) (seq 0 100)
  && PrimFloat.ltb PrimFloat.zero p && PrimFloat.ltb p PrimFloat.one
  && PrimFloat.ltb PrimFloat.zero (PrimFloat.div p (PrimFloat.sub PrimFloat.one p))
  && PrimFloat.ltb (PrimFloat.div p (PrimFloat.sub PrimFloat.one p)) PrimFloat.infinity.

Lemma proper_rows :
  forallb (λ k, proper (float_raise (grid_point k))
                && proper (float_lower (grid_point k))) (seq 0 100) = true.
Proof. vm_compute. reflexivity. Qed.

Lemma proper_nudge (p : float) :
  proper p = true → proper (nudge_up p) = true ∧ proper (nudge_down p) = true.
Proof.
  intros Hp. unfold proper in Hp.
  repeat (apply andb_true_iff in Hp as [Hp _]).
  apply existsb_exists in Hp as (k & Hk & Hsnap).
  apply float_same_eq in Hsnap.
  pose proof proper_rows as Hrows. rewrite forallb_forall in Hrows.
  specialize (Hrows k Hk). apply andb_true_iff in Hrows.
  by rewrite float_nudge_up_eq, float_nudge_down_eq, Hsnap.
Qed.

Lemma proper_all (ps : list float) :
  forallb proper ps = true → Forall (λ p, proper p = true) ps.
Proof.
  intros H. apply Forall_forall. intros p Hp.
  rewrite forallb_forall in H. by apply H, list_elem_of_In.
Qed.

Section Priors.
Context (libm : Libm float).

Definition priors_ok (s : state float) : Prop :=
  Forall (λ p, proper p = true) (channel s).

Lemma priors_key (key : Z) (f : float → float) (s : state float) :
  (∀ p, proper p = true → proper (f p) = true) →
  (∀ p, channel s !! Z.to_nat (cursor s) = Some p →
        channel (process_keys key s).2 = <[Z.to_nat (cursor s) := f p]> (channel s)) →
  (Z.to_nat (cursor s) ≥ length (channel s) →
   channel (process_keys key s).2 = channel s) →
  priors_ok s → priors_ok (process_keys key s).2.
Proof.
  intros Hf Hin Hout Hok. unfold priors_ok.
  destruct (channel s !! Z.to_nat (cursor s)) as [p|] eqn:Hp.
  - rewrite (Hin p eq_refl). apply Forall_insert; [exact Hok|].
    apply Hf. exact (Forall_lookup_1 _ _ _ _ Hok Hp).
  - apply lookup_ge_None_1 in Hp. by rewrite Hout.
Qed.

Lemma priors_process_keys (key : Z) (s : state float) :
  priors_ok s → priors_ok (process_keys key s).2.
Proof.
  intros Hok.
  destruct (process_keys_cases key s) as [E|[E|[E|[E|[E|[E|E]]]]]];
    try (unfold priors_ok; rewrite E; exact Hok).
  - apply (priors_key KEY_UP nudge_down) in Hok.
    + unfold priors_ok in *. by rewrite E.
    + intros p Hp. exact (proj2 (proper_nudge p Hp)).
    + intros p Hp. by apply key_up_slot.
    + intros Hge.
      destruct (state_solve_fields (key_up_channel s))
        as (_ & _ & _ & _ & _ & F & _).
      change (process_keys KEY_UP s).2 with (state_solve (key_up_channel s)).
      rewrite F. unfold key_up_channel, snap_channel.
      destruct (dlt _ _); simpl;
        by rewrite !list_insert_ge by (rewrite ?length_insert; lia).
  - apply (priors_key KEY_DOWN nudge_up) in Hok.
    + unfold priors_ok in *. by rewrite E.
    + intros p Hp. exact (proj1 (proper_nudge p Hp)).
    + intros p Hp. by apply key_down_slot.
    + intros Hge.
      destruct (state_solve_fields (key_down_channel s))
        as (_ & _ & _ & _ & _ & F & _).
      change (process_keys KEY_DOWN s).2 with (state_solve (key_down_channel s)).
      rewrite F. unfold key_down_channel, snap_channel.
      destruct (dlt _ _); simpl;
        by rewrite !list_insert_ge by (rewrite ?length_insert; lia).
Qed.

End Priors.

(** X18. On binary64, when the six priors [state_new] stores are proper
    (strictly between 0 and 1, the floor of the hundredfold one of 0 ..
    99, and [p / (1 - p)] positive and finite: a matter of what [exp]
    returns at the five initial LLRs), every state [main] displays holds
    six proper priors, whatever keys were pressed and whatever [log] and
    [tanh] compute: the logarithm in [p_to_l] is always taken of a
    positive finite double. *)
Theorem displayed_priors_are_probabilities
    (libm : Libm float) (indet : float) (indet8 : Z) keys :
  Forall (λ p, proper p = true) (channel (state_new indet indet8 N_ITERATIONS)) →
  Forall (λ s, length (channel s) = 6%nat ∧
               Forall (λ p, proper p = true) (channel s))
    (main_loop keys (main_state indet indet8)).1.
Proof.
  intros Hstart. eapply Forall_impl.
  - apply (main_loop_invariant
             (λ s, priors_ok s ∧ length (channel s) = 6%nat)).
    + intros key s [Hok Hlen].
      destruct (process_keys_fields key s) as (_ & _ & _ & _ & F5 & _).
      split; [by apply priors_process_keys|by rewrite F5].
    + destruct (state_new_spec indet indet8 N_ITERATIONS)
        as (Hwf & Hnv & _ & _ & _).
      unfold main_state, priors_ok.
      destruct (state_solve_fields (state_new indet indet8 N_ITERATIONS))
        as (_ & _ & _ & _ & _ & -> & _).
      split; [done|]. by rewrite (wf_channel _ Hwf).
  - intros s [Hok Hlen]. done.
Qed.

End FloatFacts.

(** * The allocations

    [add_iteration] and [state_new] take their memory from [malloc] and
    [state_delete] gives it back with [free].  This part follows the
    blocks only: which pointers the records hold, which blocks are live,
    and in which order they are obtained, reached and released; what the
    arrays hold is the matter of the sections above.  As there, the
    linked list of iterations is the list of its records. *)

Section Allocation.

(** An address, and the set of the blocks that [malloc] has returned and
    [free] has not taken back. *)
Definition loc := positive.
Definition heap := gset loc.

(** The address [malloc] answers with, on a given set of live blocks:
    any that is not live. *)
Variable pick : heap → loc.
Hypothesis pick_fresh : ∀ h, pick h ∉ h.

(** A computation on the heap that may go wrong: [None] is a fault (a
    block released twice or never obtained, or reached after its
    release). *)
Definition mem (A : Type) : Type := heap → option (A * heap).

Definition mret {A : Type} (x : A) : mem A := λ h, Some (x, h).

Definition mbnd {A B : Type} (m : mem A) (f : A → mem B) : mem B :=
  λ h, match m h with
       | Some (x, h') => f x h'
       | None => None
       end.

Notation "x ←' m ; f" := (mbnd m (λ x, f))
  (at level 100, m at next level, f at level 200, right associativity).
Notation "m ;;' f" := (mbnd m (λ _, f))
  (at level 100, f at level 200, right associativity).

(** [malloc(...)]: the code assumes it always succeeds. *)
Definition malloc : mem loc := λ h, Some (pick h, {[pick h]} ∪ h).

(** [free(p)] *)
Definition free (p : loc) : mem unit :=
  λ h, if decide (p ∈ h) then Some (tt, h ∖ {[p]}) else None.

(** A read or a write through [p]: [p->field] or [p[i]]. *)
Definition reach (p : loc) : mem unit :=
  λ h, if decide (p ∈ h) then Some (tt, h) else None.

(** [a[i]] on an array of pointers. *)
Definition row (rows : list loc) (i : nat) : mem loc :=
  λ h, match rows !! i with
       | Some p => Some (p, h)
       | None => None
       end.

(** [for (int i = 0; i < n; i++) body] *)
Definition for_mem {T : Type} (n : nat) (body : nat → T → mem T) (x : T) : mem T :=
  for_range n (λ i m, mbnd m (body i)) (mret x).

(** The pointers of a [struct iteration]: the record itself, its five
    arrays, and the rows the two arrays of pointers hold. *)
Record iteration_ptr := IterationPtr {
  p_iteration : loc;
  p_l : loc;
  p_message_v_to_c : loc;
  p_message_c_to_v : loc;
  p_codeword : loc;
  p_parity : loc;
  rows_v_to_c : list loc;
  rows_c_to_v : list loc
}.

(** The pointers of a [struct state], with the field [n_c] that the
    loops over the rows read. *)
Record state_ptr := StatePtr {
  p_state : loc;
  p_channel : loc;
  p_channel_llr : loc;
  p_matrix : loc;
  rows_matrix : list loc;
  ptr_n_c : nat;
  ptr_iterations : list iteration_ptr
}.

(** [add_iteration] *)
Definition add_iteration_ptr (s : state_ptr) : mem state_ptr :=
  new_i ←' malloc;
  reach new_i ;;' reach (p_state s) ;;'
  l ←' malloc;
  v_to_c ←' malloc;
  c_to_v ←' malloc;
  codeword ←' malloc;
  parity ←' malloc;
  rows ←' for_mem (ptr_n_c s) (λ _ rows,
            reach (p_state s) ;;'
            a ←' malloc;
            reach new_i ;;' reach v_to_c ;;'
            b ←' malloc;
            reach new_i ;;' reach c_to_v ;;'
            mret (rows.1 ++ [a], rows.2 ++ [b])) ([], []);
  reach new_i ;;' reach (p_state s) ;;'
  mret {| p_state := p_state s; p_channel := p_channel s;
          p_channel_llr := p_channel_llr s; p_matrix := p_matrix s;
          rows_matrix := rows_matrix s; ptr_n_c := ptr_n_c s;
          ptr_iterations :=
            {| p_iteration := new_i; p_l := l;
               p_message_v_to_c := v_to_c; p_message_c_to_v := c_to_v;
               p_codeword := codeword; p_parity := parity;
               rows_v_to_c := rows.1; rows_c_to_v := rows.2 |}
            :: ptr_iterations s |}.

(** [state_new]: the state, its three arrays, the rows of the matrix,
    then [n_i] iterations. *)
Definition state_new_ptr (n_i : Z) : mem state_ptr :=
  let n_v := 6 in
  let n_c := 4 in
  s ←' malloc;
  reach s ;;'
  channel ←' malloc;
  channel_llr ←' malloc;
  matrix ←' malloc;
  rows ←' for_mem n_c (λ _ rows,
            a ←' malloc;
            reach s ;;' reach matrix ;;'
            mret (rows ++ [a])) [];
  (* Setting all the elements *)
  reach s ;;'
  (* Set the initial channel probabilities *)
  for_mem n_v (λ _ _, reach s ;;' reach channel) tt ;;'
  (* Copy the LDPC matrix into the structure *)
  for_mem n_v (λ _ _,
    for_mem n_c (λ j _,
      reach s ;;' reach matrix ;;' a ←' row rows j; reach a) tt) tt ;;'
  (* Add the storage needed for each iteration *)
  for_mem (Z.to_nat n_i) (λ _ s, add_iteration_ptr s)
    {| p_state := s; p_channel := channel; p_channel_llr := channel_llr;
       p_matrix := matrix; rows_matrix := rows; ptr_n_c := n_c;
       ptr_iterations := [] |}.

(** The body of the [while] loop of [state_delete], on the records from
    [s->first_iteration] on. *)
Fixpoint delete_iterations (s : loc) (n_c : nat) (its : list iteration_ptr) : mem unit :=
  reach s ;;'
  match its with
  | [] => mret tt
  | x :: next =>
      reach s ;;' reach (p_iteration x) ;;'
      free (p_l x) ;;'
      free (p_codeword x) ;;'
      free (p_parity x) ;;'
      for_mem n_c (λ i _,
        reach s ;;'
        reach (p_iteration x) ;;' reach (p_message_v_to_c x) ;;'
        a ←' row (rows_v_to_c x) i;
        free a ;;'
        reach (p_iteration x) ;;' reach (p_message_c_to_v x) ;;'
        b ←' row (rows_c_to_v x) i;
        free b) tt ;;'
      reach (p_iteration x) ;;' free (p_message_v_to_c x) ;;'
      reach (p_iteration x) ;;' free (p_message_c_to_v x) ;;'
      free (p_iteration x) ;;'
      delete_iterations s n_c next
  end.

(** [state_delete] *)
Definition state_delete (s : state_ptr) : mem unit :=
  delete_iterations (p_state s) (ptr_n_c s) (ptr_iterations s) ;;'
  reach (p_state s) ;;' free (p_channel s) ;;'
  reach (p_state s) ;;' free (p_channel_llr s) ;;'
  for_mem (ptr_n_c s) (λ i _,
    reach (p_state s) ;;' reach (p_matrix s) ;;'
    a ←' row (rows_matrix s) i;
    free a) tt ;;'
  reach (p_state s) ;;' free (p_matrix s) ;;'
  free (p_state s).

(** ** Facts about the allocations *)

#[local] Set Warnings "-clear-no-such-hyp".

Lemma mbnd_malloc {B : Type} (f : loc → mem B) h :
  mbnd malloc f h = f (pick h) ({[pick h]} ∪ h).
Proof. reflexivity. Qed.

Lemma mbnd_reach {B : Type} p (f : unit → mem B) h :
  p ∈ h → mbnd (reach p) f h = f tt h.
Proof. intros Hp. unfold mbnd, reach. by rewrite decide_True. Qed.

Lemma mbnd_free {B : Type} p (f : unit → mem B) h :
  p ∈ h → mbnd (free p) f h = f tt (h ∖ {[p]}).
Proof. intros Hp. unfold mbnd, free. by rewrite decide_True. Qed.

Lemma mbnd_row {B : Type} rows i p (f : loc → mem B) h :
  rows !! i = Some p → mbnd (row rows i) f h = f p h.
Proof. intros Hp. unfold mbnd, row. by rewrite Hp. Qed.

Lemma mbnd_mret {A B : Type} (x : A) (f : A → mem B) h : mbnd (mret x) f h = f x h.
Proof. reflexivity. Qed.

Lemma mbnd_Some {A B : Type} (m : mem A) (f : A → mem B) h x h' :
  m h = Some (x, h') → mbnd m f h = f x h'.
Proof. intros Hm. unfold mbnd. by rewrite Hm. Qed.

Lemma for_mem_S {T : Type} n (body : nat → T → mem T) x :
  for_mem (S n) body x = mbnd (for_mem n body x) (body n).
Proof. unfold for_mem. by rewrite for_range_S. Qed.

(** A loop whose body keeps an invariant of the loop state and the heap
    runs to its end without a fault. *)
Lemma for_mem_ind {T : Type} (P : nat → T → heap → Prop) n
    (body : nat → T → mem T) x h :
  P 0 x h →
  (∀ i y hi, i < n → P i y hi → ∃ y' h', body i y hi = Some (y', h') ∧ P (S i) y' h') →
  ∃ y h', for_mem n body x h = Some (y, h') ∧ P n y h'.
Proof.
  intros H0 Hstep. induction n as [|n IH].
  - exists x, h. done.
  - destruct IH as (y & h' & Hn & HP); [intros; apply Hstep; [lia|done]|].
    destruct (Hstep n y h') as (y' & h'' & Hb & HP'); [lia|done|].
    exists y', h''. split; [|done].
    rewrite for_mem_S. by rewrite (mbnd_Some _ _ _ _ _ Hn).
Qed.

(** A loop whose body only reaches live blocks leaves the heap as it
    is. *)
Lemma reaches_only n (body : nat → unit → mem unit) h :
  (∀ i u, i < n → body i u h = Some (tt, h)) →
  for_mem n body tt h = Some (tt, h).
Proof.
  intros Hbody.
  destruct (for_mem_ind (λ _ (_ : unit) hk, hk = h) n body tt h)
    as ([] & h' & Hrun & ->); [done| |done].
  intros i [] hi Hi ->. exists tt, h. split; [by apply Hbody|done].
Qed.

(** The blocks [bs] are distinct, were not live in [h0], and are what
    [h] holds on top of [h0]. *)
Definition fresh_list (h0 : heap) (bs : list loc) (h : heap) : Prop :=
  NoDup bs ∧ (∀ p, p ∈ bs → p ∉ h0) ∧ h = list_to_set bs ∪ h0.

Lemma fresh_list_perm h0 bs bs' h :
  bs ≡ₚ bs' → fresh_list h0 bs h → fresh_list h0 bs' h.
Proof.
  intros Hp (H1 & H2 & H3). split; [by rewrite <- Hp|]. split.
  - intros p Hin. apply H2. by rewrite Hp.
  - rewrite H3. f_equal. by apply list_to_set_perm_L.
Qed.

Lemma fresh_list_elem h0 bs h p : fresh_list h0 bs h → p ∈ bs → p ∈ h.
Proof. clear pick pick_fresh. intros (_ & _ & ->) Hp. set_solver. Qed.

Lemma fresh_list_malloc h0 bs h :
  fresh_list h0 bs h → fresh_list h0 (pick h :: bs) ({[pick h]} ∪ h).
Proof.
  intros (H1 & H2 & H3). pose proof (pick_fresh h) as Hf.
  split; [|split].
  - constructor; [|done]. rewrite H3 in Hf. set_solver.
  - intros p Hp. apply elem_of_cons in Hp as [->|Hp]; [|by apply H2].
    rewrite H3 in Hf. set_solver.
  - rewrite H3. set_solver.
Qed.

Lemma fresh_list_free h0 p bs h :
  fresh_list h0 (p :: bs) h → p ∈ h ∧ fresh_list h0 bs (h ∖ {[p]}).
Proof.
  clear pick pick_fresh.
  intros (H1 & H2 & H3). apply NoDup_cons in H1 as [Hp H1].
  split; [rewrite H3; set_solver|].
  split; [done|]. split.
  - intros q Hq. apply H2. by right.
  - rewrite H3. assert (Hp0 : p ∉ h0) by (apply H2; by left).
    apply set_eq. intros q. set_solver.
Qed.

Lemma fresh_list_nil h0 h : fresh_list h0 [] h → h = h0.
Proof. clear pick pick_fresh. intros (_ & _ & ->). set_solver. Qed.

Lemma fresh_list_size h0 bs h : fresh_list h0 bs h → size h = length bs + size h0.
Proof.
  intros (H1 & H2 & ->). rewrite size_union.
  - by rewrite size_list_to_set.
  - intros p Hp Hp0. apply elem_of_list_to_set in Hp. by apply (H2 p).
Qed.

(** Membership in a list written out. *)
Ltac in_list :=
  simpl;
  repeat first [apply list_elem_of_here | apply list_elem_of_further
               | apply elem_of_app; right].

(** The blocks of an iteration and of a state, in the order in which
    [state_delete] releases them. *)
Definition pairs (rows1 rows2 : list loc) : list loc :=
  concat (zip_with (λ a b, [a; b]) rows1 rows2).

Definition blocks_of_iteration (x : iteration_ptr) : list loc :=
  [p_l x; p_codeword x; p_parity x]
  ++ pairs (rows_v_to_c x) (rows_c_to_v x)
  ++ [p_message_v_to_c x; p_message_c_to_v x; p_iteration x].

Definition blocks_of_state (s : state_ptr) : list loc :=
  concat (blocks_of_iteration <$> ptr_iterations s)
  ++ [p_channel s; p_channel_llr s] ++ rows_matrix s ++ [p_matrix s; p_state s].

(** The state [s] owns its blocks in the heap [h], which holds nothing
    else on top of [h0], and its arrays of pointers have [n_c] rows. *)
Definition owns (h0 : heap) (s : state_ptr) (h : heap) : Prop :=
  fresh_list h0 (blocks_of_state s) h ∧
  length (rows_matrix s) = ptr_n_c s ∧
  Forall (λ x, length (rows_v_to_c x) = ptr_n_c s ∧
               length (rows_c_to_v x) = ptr_n_c s) (ptr_iterations s).

Lemma pairs_snoc rows1 rows2 a b :
  length rows1 = length rows2 →
  pairs (rows1 ++ [a]) (rows2 ++ [b]) = pairs rows1 rows2 ++ [a; b].
Proof.
  intros Hlen. unfold pairs.
  rewrite zip_with_app by done. simpl. by rewrite concat_app.
Qed.

Lemma pairs_length rows1 rows2 :
  length rows1 = length rows2 → length (pairs rows1 rows2) = 2 * length rows1.
Proof.
  revert rows2. induction rows1 as [|a rows1 IH]; intros [|b rows2] Hlen;
    try done. unfold pairs in *. simpl in *. rewrite IH by lia. lia.
Qed.

Lemma pairs_drop rows1 rows2 k a b :
  rows1 !! k = Some a → rows2 !! k = Some b →
  pairs (drop k rows1) (drop k rows2)
  = a :: b :: pairs (drop (S k) rows1) (drop (S k) rows2).
Proof.
  intros Ha Hb. by rewrite (drop_S _ _ _ Ha), (drop_S _ _ _ Hb).
Qed.

(** The rows of an iteration, released two by two. *)
Lemma delete_rows_pairs h0 s x0 v c rows1 rows2 rest h n :
  length rows1 = n → length rows2 = n →
  s ∈ rest → x0 ∈ rest → v ∈ rest → c ∈ rest →
  fresh_list h0 (pairs rows1 rows2 ++ rest) h →
  ∃ h', for_mem n (λ i _,
          reach s ;;' reach x0 ;;' reach v ;;'
          a ←' row rows1 i; free a ;;'
          reach x0 ;;' reach c ;;'
          b ←' row rows2 i; free b) tt h = Some (tt, h') ∧
        fresh_list h0 rest h'.
Proof.
  clear pick pick_fresh.
  intros Hl1 Hl2 Hs Hx Hv Hc HF.
  destruct (for_mem_ind
    (λ k (_ : unit) hk,
       fresh_list h0 (pairs (drop k rows1) (drop k rows2) ++ rest) hk) n
    (λ i _,
       reach s ;;' reach x0 ;;' reach v ;;'
       a ←' row rows1 i; free a ;;'
       reach x0 ;;' reach c ;;'
       b ←' row rows2 i; free b) tt h) as ([] & h' & Hrun & HP).
  - exact HF.
  - intros i [] hi Hi HFi.
    destruct (lookup_lt_is_Some_2 rows1 i) as [a Ha]; [lia|].
    destruct (lookup_lt_is_Some_2 rows2 i) as [b Hb]; [lia|].
    rewrite (pairs_drop _ _ _ _ _ Ha Hb) in HFi.
    assert (Hin : ∀ p, p ∈ rest → p ∈ hi).
    { intros p Hp. apply (fresh_list_elem _ _ _ _ HFi).
      do 2 right. apply elem_of_app. by right. }
    rewrite !mbnd_reach by by apply Hin.
    rewrite (mbnd_row _ _ _ _ _ Ha).
    simpl in HFi. apply fresh_list_free in HFi as [Hah HFi].
    rewrite mbnd_free by done.
    assert (Hin' : ∀ p, p ∈ rest → p ∈ hi ∖ {[a]}).
    { intros p Hp. apply (fresh_list_elem _ _ _ _ HFi).
      right. apply elem_of_app. by right. }
    rewrite !mbnd_reach by by apply Hin'.
    rewrite (mbnd_row _ _ _ _ _ Hb).
    apply fresh_list_free in HFi as [Hbh HFi].
    exists tt, (hi ∖ {[a]} ∖ {[b]}). split; [|done].
    unfold free. by rewrite decide_True.
  - exists h'. split; [done|].
    rewrite !drop_ge in HP by lia. exact HP.
Qed.

(** The rows of the matrix, released one by one. *)
Lemma delete_rows h0 s m rows rest h n :
  length rows = n → s ∈ rest → m ∈ rest →
  fresh_list h0 (rows ++ rest) h →
  ∃ h', for_mem n (λ i _,
          reach s ;;' reach m ;;' a ←' row rows i; free a) tt h = Some (tt, h') ∧
        fresh_list h0 rest h'.
Proof.
  clear pick pick_fresh.
  intros Hl Hs Hm HF.
  destruct (for_mem_ind
    (λ k (_ : unit) hk, fresh_list h0 (drop k rows ++ rest) hk) n
    (λ i _, reach s ;;' reach m ;;' a ←' row rows i; free a) tt h)
    as ([] & h' & Hrun & HP).
  - exact HF.
  - intros i [] hi Hi HFi.
    destruct (lookup_lt_is_Some_2 rows i) as [a Ha]; [lia|].
    rewrite (drop_S _ _ _ Ha) in HFi.
    assert (Hin : ∀ p, p ∈ rest → p ∈ hi).
    { intros p Hp. apply (fresh_list_elem _ _ _ _ HFi).
      right. apply elem_of_app. by right. }
    rewrite !mbnd_reach by by apply Hin.
    rewrite (mbnd_row _ _ _ _ _ Ha).
    simpl in HFi. apply fresh_list_free in HFi as [Hah HFi].
    exists tt, (hi ∖ {[a]}). split; [|done].
    unfold free. by rewrite decide_True.
  - exists h'. split; [done|]. rewrite drop_ge in HP by lia. exact HP.
Qed.

Lemma delete_iterations_spec h0 s n_c its rest h :
  Forall (λ x, length (rows_v_to_c x) = n_c ∧ length (rows_c_to_v x) = n_c) its →
  s ∈ rest →
  fresh_list h0 (concat (blocks_of_iteration <$> its) ++ rest) h →
  ∃ h', delete_iterations s n_c its h = Some (tt, h') ∧ fresh_list h0 rest h'.
Proof.
  clear pick pick_fresh.
  intros Hits Hs. revert h.
  induction Hits as [|x its [Hl1 Hl2] _ IH]; intros h HF.
  - exists h. split; [|done]. simpl.
    rewrite mbnd_reach by (by apply (fresh_list_elem _ _ _ _ HF)). done.
  - simpl in HF. unfold blocks_of_iteration in HF.
    rewrite <- !app_assoc in HF. simpl in HF.
    set (R := concat (blocks_of_iteration <$> its) ++ rest) in *.
    set (X := [p_message_v_to_c x; p_message_c_to_v x; p_iteration x] ++ R).
    assert (HX : ∀ p, p ∈ X → p ∈ p_l x :: p_codeword x :: p_parity x ::
                   pairs (rows_v_to_c x) (rows_c_to_v x) ++ X).
    { intros p Hp. do 3 right. apply elem_of_app. by right. }
    assert (HsX : s ∈ X).
    { unfold X, R. rewrite !elem_of_app. right. by right. }
    assert (HxX : p_iteration x ∈ X) by (unfold X; in_list).
    assert (HvX : p_message_v_to_c x ∈ X) by (unfold X; in_list).
    assert (HcX : p_message_c_to_v x ∈ X) by (unfold X; in_list).
    change (fresh_list h0 (p_l x :: p_codeword x :: p_parity x ::
              pairs (rows_v_to_c x) (rows_c_to_v x) ++ X) h) in HF.
    cbn [delete_iterations].
    rewrite !mbnd_reach by (apply (fresh_list_elem _ _ _ _ HF); by apply HX).
    apply fresh_list_free in HF as [H1 HF]. rewrite mbnd_free by done.
    apply fresh_list_free in HF as [H2 HF]. rewrite mbnd_free by done.
    apply fresh_list_free in HF as [H3 HF]. rewrite mbnd_free by done.
    destruct (delete_rows_pairs h0 s (p_iteration x) (p_message_v_to_c x)
                (p_message_c_to_v x) (rows_v_to_c x) (rows_c_to_v x) X _ n_c
                Hl1 Hl2 HsX HxX HvX HcX HF) as (h1 & Hrun & HF1).
    rewrite (mbnd_Some _ _ _ _ _ Hrun).
    unfold X in HF1. simpl in HF1.
    rewrite mbnd_reach by (apply (fresh_list_elem _ _ _ _ HF1); in_list).
    apply fresh_list_free in HF1 as [H4 HF1]. rewrite mbnd_free by done.
    rewrite mbnd_reach by (apply (fresh_list_elem _ _ _ _ HF1); in_list).
    apply fresh_list_free in HF1 as [H5 HF1]. rewrite mbnd_free by done.
    apply fresh_list_free in HF1 as [H6 HF1]. rewrite mbnd_free by done.
    apply IH. exact HF1.
Qed.

(** [state_delete] on a state that owns its blocks releases every one of
    them, each once and none after a block it is reached through, and
    leaves the heap as it was before the state was made. *)
Lemma state_delete_owns h0 s h :
  owns h0 s h → state_delete s h = Some (tt, h0).
Proof.
  clear pick pick_fresh.
  intros (HF & Hrows & Hits). unfold state_delete, blocks_of_state in *.
  set (R := [p_channel s; p_channel_llr s] ++ rows_matrix s ++ [p_matrix s; p_state s]) in *.
  assert (HsR : p_state s ∈ R) by (unfold R; set_solver).
  destruct (delete_iterations_spec h0 (p_state s) (ptr_n_c s) (ptr_iterations s)
              R h Hits HsR HF) as (h1 & Hrun & HF1).
  rewrite (mbnd_Some _ _ _ _ _ Hrun). unfold R in HF1. simpl in HF1.
  rewrite mbnd_reach by (apply (fresh_list_elem _ _ _ _ HF1); in_list).
  apply fresh_list_free in HF1 as [H1 HF1]. rewrite mbnd_free by done.
  rewrite mbnd_reach by (apply (fresh_list_elem _ _ _ _ HF1); in_list).
  apply fresh_list_free in HF1 as [H2 HF1]. rewrite mbnd_free by done.
  destruct (delete_rows h0 (p_state s) (p_matrix s) (rows_matrix s)
              [p_matrix s; p_state s] (h1 ∖ {[p_channel s]} ∖ {[p_channel_llr s]})
              (ptr_n_c s) Hrows) as (h2 & Hrun2 & HF2);
    [in_list|in_list|exact HF1|].
  rewrite (mbnd_Some _ _ _ _ _ Hrun2).
  rewrite mbnd_reach by (apply (fresh_list_elem _ _ _ _ HF2); in_list).
  apply fresh_list_free in HF2 as [H3 HF2]. rewrite mbnd_free by done.
  apply fresh_list_free in HF2 as [H4 HF2].
  apply fresh_list_nil in HF2. unfold free. rewrite decide_True by done.
  by rewrite HF2.
Qed.

(** One [malloc] more: the new block joins the fresh ones. *)
Ltac m_malloc F p h' :=
  rewrite mbnd_malloc; apply fresh_list_malloc in F; revert F;
  match goal with
  | |- context [pick ?h] =>
      generalize (pick h); intros p; generalize ({[p]} ∪ h); intros h' F
  end.

Ltac m_reach F :=
  rewrite mbnd_reach by (apply (fresh_list_elem _ _ _ _ F); in_list).

Lemma add_iteration_owns h0 s h :
  owns h0 s h →
  ∃ s' h', add_iteration_ptr s h = Some (s', h') ∧ owns h0 s' h' ∧
           ptr_n_c s' = ptr_n_c s ∧
           length (ptr_iterations s') = S (length (ptr_iterations s)).
Proof.
  intros (F & Hrows & Hits). unfold add_iteration_ptr.
  assert (Hs : p_state s ∈ blocks_of_state s) by (unfold blocks_of_state; in_list).
  set (B := blocks_of_state s) in *.
  m_malloc F new_i h1. m_reach F.
  rewrite mbnd_reach by (apply (fresh_list_elem _ _ _ _ F); by right).
  m_malloc F pl h2. m_malloc F pv h3. m_malloc F pc h4.
  m_malloc F pcw h5. m_malloc F ppar h6.
  set (L0 := ppar :: pcw :: pc :: pv :: pl :: new_i :: B) in *.
  match goal with
  | |- context [for_mem ?n ?body ?x] =>
      destruct (for_mem_ind
        (λ k (rows : list loc * list loc) hk,
           length rows.1 = k ∧ length rows.2 = k ∧
           fresh_list h0 (pairs rows.1 rows.2 ++ L0) hk) n body x h6)
        as ([ra rb] & h7 & Hrun & Hl1 & Hl2 & F7)
  end.
  - done.
  - intros i [ra rb] hi Hi (Hl1 & Hl2 & Fi). simpl in *.
    rewrite mbnd_reach
      by (apply (fresh_list_elem _ _ _ _ Fi), elem_of_app; right;
          unfold L0; by do 6 right).
    m_malloc Fi a hi1.
    rewrite !mbnd_reach
      by (apply (fresh_list_elem _ _ _ _ Fi); right; unfold L0; in_list).
    m_malloc Fi b hi2.
    rewrite !mbnd_reach
      by (apply (fresh_list_elem _ _ _ _ Fi); do 2 right; unfold L0; in_list).
    eexists _, _. split; [reflexivity|]. simpl.
    rewrite !length_app. simpl. split; [lia|]. split; [lia|].
    rewrite pairs_snoc by lia.
    eapply fresh_list_perm; [|exact Fi]. solve_Permutation.
  - simpl in *. rewrite (mbnd_Some _ _ _ _ _ Hrun).
    rewrite !mbnd_reach
      by (apply (fresh_list_elem _ _ _ _ F7); unfold L0; in_list; by right).
    eexists _, _. split; [reflexivity|].
    split; [|done]. split; [|split].
    + eapply fresh_list_perm; [|exact F7].
      unfold blocks_of_state, blocks_of_iteration, L0, B, blocks_of_state. simpl.
      solve_Permutation.
    + done.
    + simpl. constructor; [by split|done].
Qed.

Lemma state_new_owns h0 n_i :
  ∃ s h, state_new_ptr n_i h0 = Some (s, h) ∧ owns h0 s h ∧
         ptr_n_c s = 4 ∧ length (ptr_iterations s) = Z.to_nat n_i.
Proof.
  assert (F : fresh_list h0 [] h0).
  { split; [constructor|]. split; [intros p Hp; by apply elem_of_nil in Hp|].
    clear. set_solver. }
  unfold state_new_ptr. revert F. generalize h0 at 2 3. intros h F.
  m_malloc F ps h1. m_reach F.
  m_malloc F pch h2. m_malloc F pllr h3. m_malloc F pm h4.
  set (L0 := [pm; pllr; pch; ps]) in *.
  match goal with
  | |- context [for_mem ?n ?body ?x] =>
      destruct (for_mem_ind
        (λ k (rows : list loc) hk,
           length rows = k ∧ fresh_list h0 (rows ++ L0) hk) n body x h4)
        as (rows & h5 & Hrun & Hl & F5)
  end.
  - done.
  - intros i rows hi Hi (Hl & Fi).
    m_malloc Fi a hi1.
    rewrite !mbnd_reach
      by (apply (fresh_list_elem _ _ _ _ Fi); right; unfold L0; in_list).
    eexists _, _. split; [reflexivity|].
    rewrite length_app. simpl. split; [lia|].
    eapply fresh_list_perm; [|exact Fi]. solve_Permutation.
  - rewrite (mbnd_Some _ _ _ _ _ Hrun).
    assert (Hin : ∀ p, p ∈ rows ++ L0 → p ∈ h5)
      by (intros p; apply (fresh_list_elem _ _ _ _ F5)).
    rewrite mbnd_reach by (apply Hin; unfold L0; in_list).
    rewrite (mbnd_Some _ _ _ tt h5)
      by (apply reaches_only; intros j _ _;
          rewrite !mbnd_reach by (apply Hin; unfold L0; in_list);
          unfold reach; rewrite decide_True by (apply Hin; unfold L0; in_list);
          done).
    rewrite (mbnd_Some _ _ _ tt h5).
    2:{ apply reaches_only. intros i' _ _.
        apply reaches_only. intros j _ Hj.
        destruct (lookup_lt_is_Some_2 rows j) as [a Ha]; [lia|].
        rewrite !mbnd_reach by (apply Hin; unfold L0; in_list).
        rewrite (mbnd_row _ _ _ _ _ Ha).
        unfold reach. rewrite decide_True; [done|].
        apply Hin, elem_of_app. left. by eapply list_elem_of_lookup_2. }
    match goal with
    | |- context [for_mem ?n ?body ?x] =>
        destruct (for_mem_ind
          (λ k (s : state_ptr) hk,
             owns h0 s hk ∧ ptr_n_c s = 4 ∧ length (ptr_iterations s) = k)
          n body x h5) as (s & h6 & Hrun' & Hown & Hnc & Hlen)
    end.
    + split; [|done]. split; [|done].
      eapply fresh_list_perm; [|exact F5].
      unfold blocks_of_state, L0. simpl. solve_Permutation.
    + intros i s hi Hi (Hown & Hnc & Hlen).
      destruct (add_iteration_owns h0 s hi Hown) as (s' & h' & Hadd & Hown' & Hnc' & Hlen').
      exists s', h'. split; [done|]. split; [done|]. split; [congruence|lia].
    + exists s, h6. done.
Qed.

Lemma blocks_of_state_length s :
  length (rows_matrix s) = ptr_n_c s →
  Forall (λ x, length (rows_v_to_c x) = ptr_n_c s ∧
               length (rows_c_to_v x) = ptr_n_c s) (ptr_iterations s) →
  length (blocks_of_state s)
  = 4 + ptr_n_c s + (6 + 2 * ptr_n_c s) * length (ptr_iterations s).
Proof.
  clear pick pick_fresh.
  intros Hrows Hits. unfold blocks_of_state.
  rewrite !length_app, Hrows. simpl.
  assert (length (concat (blocks_of_iteration <$> ptr_iterations s))
          = (6 + 2 * ptr_n_c s) * length (ptr_iterations s)) as ->; [|lia].
  induction Hits as [|x its [H1 H2] _ IH]; [simpl; lia|].
  rewrite fmap_cons. simpl.
  rewrite !length_app, IH, pairs_length by lia. simpl. lia.
Qed.

(** X20. [state_new(n_i)] obtains 8 blocks and 14 more for each iteration,
    all distinct and none of them live before, and leaves them live;
    [state_delete] then runs to its end without a fault: it releases each
    of these blocks once, reaches none after its release, and leaves the
    heap exactly as it was before [state_new]. A second [state_delete] on
    the same pointer is a fault. *)
Theorem state_delete_releases_every_block (h0 : heap) (n_i : Z) :
  ∃ s h,
    state_new_ptr n_i h0 = Some (s, h) ∧
    length (ptr_iterations s) = Z.to_nat n_i ∧
    h0 ⊆ h ∧ size h = size h0 + 8 + 14 * Z.to_nat n_i ∧
    state_delete s h = Some (tt, h0) ∧
    state_delete s h0 = None.
Proof.
  destruct (state_new_owns h0 n_i) as (s & h & Hnew & Hown & Hnc & Hlen).
  exists s, h. split; [done|]. split; [done|].
  pose proof Hown as (F & Hrows & Hits).
  split; [|split; [|split]].
  - destruct F as (_ & _ & ->). clear. set_solver.
  - rewrite (fresh_list_size _ _ _ F), blocks_of_state_length, Hnc, Hlen by done.
    lia.
  - by apply state_delete_owns.
  - destruct F as (_ & Hfresh & _).
    assert (Hs : p_state s ∉ h0)
      by (apply Hfresh; unfold blocks_of_state; in_list).
    unfold state_delete, mbnd at 1.
    destruct (ptr_iterations s); unfold delete_iterations, mbnd at 1, reach;
      by rewrite decide_False.
Qed.

End Allocation.

(** * More instances

    The theorems of the last sections that have hypotheses, applied to
    small states written out in full, on binary64. *)

Section MoreWitnesses.
#[local] Existing Instance glibc_libm.

(** A state with the matrix of the program, priors of 0.9 and two
    iteration records of zeros; and the same with one record. *)
Definition s_two : state float :=
  {| cursor := 0; page := 0; iterations := 2; n_v := 6; n_c := 4;
     channel := replicate 6 (float_const (9#10));
     channel_llr := replicate 6 PrimFloat.zero;
     matrix := ldpc_matrix; first_iteration := [blank; blank] |}.

Definition s_one : state float :=
  {| cursor := 0; page := 0; iterations := 1; n_v := 6; n_c := 4;
     channel := replicate 6 (float_const (9#10));
     channel_llr := replicate 6 PrimFloat.zero;
     matrix := ldpc_matrix; first_iteration := [blank] |}.

(** [s_one] with the slot (0, 2) of the message arrays of its record
    changed. *)
Definition s_one' : state float :=
  {| cursor := 0; page := 0; iterations := 1; n_v := 6; n_c := 4;
     channel := replicate 6 (float_const (9#10));
     channel_llr := replicate 6 PrimFloat.zero;
     matrix := ldpc_matrix; first_iteration := [blank'] |}.

Lemma ldpc_matrix_binary :
  Forall (Forall (λ x, x = 0 ∨ x = 1)%Z) ldpc_matrix.
Proof.
  unfold ldpc_matrix. repeat (constructor; [repeat constructor; lia|]).
  constructor.
Qed.

Lemma s_two_wf : wf_state s_two.
Proof.
  split; try reflexivity.
  - split; [reflexivity|]. unfold ldpc_matrix. repeat constructor.
  - exact ldpc_matrix_binary.
  - repeat constructor; exact blank_wf.
Qed.

Lemma s_one_wf : wf_state s_one.
Proof.
  split; try reflexivity.
  - split; [reflexivity|]. unfold ldpc_matrix. repeat constructor.
  - exact ldpc_matrix_binary.
  - repeat constructor; exact blank_wf.
Qed.

Lemma s_two_position : position_ok s_two.
Proof. unfold position_ok. simpl. lia. Qed.

Lemma s_two_round (r : nat) : (r < 2)%nat → is_Some (history s_two !! r).
Proof. intros Hr. apply lookup_lt_is_Some_2. by rewrite history_length. Qed.

Lemma keys_keep_cursor_and_page_witness :
  wf_state (process_keys KEY_LEFT s_two).2 ∧
  (Z.to_nat (cursor (process_keys KEY_LEFT s_two).2)
   < length (channel (process_keys KEY_LEFT s_two).2))%nat.
Proof.
  destruct (keys_keep_cursor_and_page KEY_LEFT s_two s_two_wf s_two_position)
    as (H1 & _ & _ & H2).
  split; assumption.
Defined.

Lemma cursor_keys_walk_a_cycle_witness :
  press KEY_LEFT 4 (press KEY_RIGHT 4 s_two) = s_two ∧
  press KEY_RIGHT 6 s_two = s_two.
Proof.
  destruct (cursor_keys_walk_a_cycle s_two 4) as (_ & _ & H1 & _ & H2 & _).
  - simpl. lia.
  - split; assumption.
Defined.

Lemma page_keys_saturate_witness :
  page (press KEY_NPAGE 5 s_two) = 1%Z ∧ page (press KEY_PPAGE 5 s_two) = 0%Z.
Proof.
  destruct (page_keys_saturate s_two 5) as (_ & _ & H1 & H2).
  - simpl. lia.
  - split; [apply H1|apply H2]; simpl; lia.
Defined.

Lemma main_loop_stops_at_first_quit_witness :
  ∃ states final,
    main_loop [KEY_RIGHT] s_two = (states, None) ∧
    main_loop ([KEY_RIGHT] ++ 113%Z :: [KEY_LEFT]) s_two = (states, Some final) ∧
    length states = 2%nat ∧ last states = Some final.
Proof.
  apply (main_loop_stops_at_first_quit [KEY_RIGHT] 113%Z [KEY_LEFT] s_two).
  - repeat constructor.
  - reflexivity.
Defined.

Lemma same_result_blank : same_result s_one blank blank'.
Proof.
  assert (H : edge_agree s_one (replicate 4 (replicate 6 PrimFloat.zero))
                (set2 (replicate 4 (replicate 6 PrimFloat.zero)) 0 2 PrimFloat.one)).
  { intros c v Hc Hv Hm. simpl in Hc, Hv, Hm.
    do 4 (destruct c as [|c];
          [do 6 (destruct v as [|v]; [try reflexivity; by destruct Hm|]); lia|]).
    lia. }
  repeat split; try reflexivity; exact H.
Qed.

Lemma display_prints_edges_only_witness : state_display s_one = state_display s_one'.
Proof.
  apply display_prints_edges_only; try reflexivity.
  constructor; [exact same_result_blank|constructor].
Defined.

Lemma codeword_and_parity_are_bits_witness :
  ∃ it, history s_two !! 1%nat = Some it ∧
        Forall (λ b, b = 0 ∨ b = 1)%Z (codeword it) ∧
        Forall (λ b, b = 0 ∨ b = 1)%Z (parity it).
Proof.
  destruct (s_two_round 1) as [it Hit]; [lia|].
  destruct (codeword_and_parity_are_bits s_two 1 it s_two_wf Hit)
    as (_ & _ & H1 & H2).
  exists it. repeat split; assumption.
Defined.

Lemma earlier_rounds_ignore_later_records_witness :
  history s_one = take 1 (history s_two).
Proof.
  apply (earlier_rounds_ignore_later_records s_one s_two s_one_wf s_two_wf);
    try reflexivity.
  unfold s_one, s_two. simpl. repeat constructor.
Defined.

Lemma no_rounds_when_n_i_not_positive_witness :
  first_iteration (state_solve (state_new PrimFloat.zero 0%Z 0%Z)) = [] ∧
  Forall (λ s : state float, first_iteration s = [] ∧ page s = 0%Z ∧ display_current s = [])
    (main_loop [KEY_NPAGE] (state_solve (state_new PrimFloat.zero 0%Z 0%Z))).1.
Proof.
  destruct (no_rounds_when_n_i_not_positive PrimFloat.zero 0%Z 0%Z [KEY_NPAGE]) as (H1 & _ & H2).
  - lia.
  - split; assumption.
Defined.

Lemma displayed_priors_are_probabilities_witness :
  Forall (λ s : state float,
            length (channel s) = 6%nat ∧
            Forall (λ p, proper p = true) (channel s))
    (main_loop [KEY_DOWN; KEY_LEFT; KEY_UP] (main_state PrimFloat.zero 0%Z)).1.
Proof.
  apply (displayed_priors_are_probabilities glibc_libm).
  apply proper_all. vm_compute. reflexivity.
Defined.

Lemma float_raise_gets_stuck_witness :
  PrimFloat.ltb (Nat.iter 7 nudge_up (float_const (1#100))) (float_const (7#100)) = true ∧
  Nat.iter 100 nudge_up (float_const (1#100)) = stuck_007.
Proof.
  destruct (float_raise_gets_stuck (float_const (1#100)) 1 6) as (_ & H1 & _ & _ & _).
  { vm_compute. reflexivity. }
  destruct (float_raise_gets_stuck (float_const (1#100)) 1 100) as (_ & _ & H2 & _ & _).
  { vm_compute. reflexivity. }
  split; [apply H1; lia|]. apply H2; lia.
Defined.

Lemma float_lower_reaches_clamp_witness :
  Nat.iter 100 nudge_down (float_const (99#100)) = float_const (1#100).
Proof.
  destruct (float_lower_reaches_clamp (float_const (99#100)) 99 100) as (H & _ & _).
  - vm_compute. reflexivity.
  - lia.
  - lia.
  - exact H.
Defined.

Lemma state_delete_releases_every_block_witness :
  ∃ s h,
    state_new_ptr fresh N_ITERATIONS ∅ = Some (s, h) ∧
    length (ptr_iterations s) = 8%nat ∧
    size h = 120%nat ∧
    state_delete s h = Some (tt, ∅).
Proof.
  destruct (state_delete_releases_every_block fresh is_fresh ∅ N_ITERATIONS)
    as (s & h & H1 & H2 & _ & H3 & H4 & _).
  exists s, h. split; [assumption|]. split; [exact H2|]. split; [|assumption].
  rewrite H3, size_empty. reflexivity.
Defined.

End MoreWitnesses.
